(** * Semi-Global Matching (hls/src/sgm_hls.cpp): a shallow embedding

    The three stages of the accelerator core are embedded as Rocq functions:
    [compute_sad_cost_hls], [aggregate_path_hls] and [sgm_hls].

    - C [int] indices and loop counters are [Z].
    - A statically dimensioned C array is a total map from its indices to
      its cells, written with [upd1]/[upd3]; the program only touches cells
      inside the bounds, and the theorems say so where it matters.
    - The cells are C [float]s.  The program is written once over the
      interface [FloatOps] (addition, subtraction, absolute value, the
      comparison [<] and the conversion of integer literals); the instance
      [binary32_ops] is IEEE-754 single precision, round to nearest even,
      built on the Standard Library's [SpecFloat]; [Z_ops] is exact integer
      arithmetic.
    - The [static] volumes of [sgm_hls] survive between calls: they are an
      explicit state ([sgm_state]) threaded through the function.

    The structural theorems hold for every [FloatOps].  Those that depend on
    the arithmetic are proved either for every [IntegerExact] instance
    (integers below [2 ^ 24] are computed without error, which binary32
    satisfies) or directly on binary32, from the sign of the results and
    from bounds on the rounded sums.

    The testbench (hls/tb/main_tb.cpp) comes last, in the module
    [Testbench]: its [main], over a file system given by the opening and
    the extraction operations. *)

From Stdlib Require Import ZArith List Lia Bool.
From Stdlib Require Import Floats.SpecFloat.
From Stdlib Require Strings.String Numbers.DecimalString.
Import ListNotations.
Open Scope Z_scope.

(** ** Constants of sgm_hls.h *)

Definition HEIGHT : Z := 240.
Definition WIDTH : Z := 272.
Definition MAX_DISP : Z := 16.
Definition P1_PENALTY : Z := 8.
Definition P2_PENALTY : Z := 128.

(** ** The arithmetic of the cells *)

Class FloatOps (F : Type) : Type := {
  fadd : F -> F -> F;
  fsub : F -> F -> F;
  fabs : F -> F;
  flt : F -> F -> bool;
  of_int : Z -> F
}.

(** IEEE-754 binary32: 24 bits of precision, infinities at exponent 128. *)
Definition binary32 : Type := spec_float.

Definition b32_of_int (z : Z) : binary32 := binary_normalize 24 128 z 0 false.

#[export] Instance binary32_ops : FloatOps binary32 := {
  fadd := SFadd 24 128;
  fsub := SFsub 24 128;
  fabs := SFabs;
  flt := SFltb;
  of_int := b32_of_int
}.

(** Exact integer arithmetic. *)
#[export] Instance Z_ops : FloatOps Z := {
  fadd := Z.add;
  fsub := Z.sub;
  fabs := Z.abs;
  flt := Z.ltb;
  of_int := fun z => z
}.

(** ** Arrays *)

Definition image (F : Type) : Type := Z -> F.
Definition volume (F : Type) : Type := Z -> Z -> Z -> F.
Definition dispmap : Type := Z -> Z.

Definition upd1 {A : Type} (a : Z -> A) (i : Z) (v : A) : Z -> A :=
  fun i' => if i' =? i then v else a i'.

Definition upd3 {A : Type} (a : Z -> Z -> Z -> A) (y x d : Z) (v : A)
  : Z -> Z -> Z -> A :=
  fun y' x' d' =>
    if (y' =? y) && (x' =? x) && (d' =? d) then v else a y' x' d'.

(** ** Loops

    [for_loop fuel continue step i body s] is
    [for (; continue(i); i += step) s = body(i, s);].  Every loop of the
    program runs over a range known in advance, which gives the fuel;
    [for_up_fuel] and [for_ne_fuel] below show that the loops leave
    through their test and not for want of fuel. *)

Fixpoint for_loop {S : Type} (fuel : nat) (continue : Z -> bool) (step : Z)
  (i : Z) (body : Z -> S -> S) (s : S) : S :=
  match fuel with
  | O => s
  | Datatypes.S k =>
      if continue i then for_loop k continue step (i + step) body (body i s)
      else s
  end.

(** [for (int i = lo; i < hi; i++)] *)
Definition for_up {S : Type} (lo hi : Z) (body : Z -> S -> S) (s : S) : S :=
  for_loop (Z.to_nat (hi - lo)) (fun i => i <? hi) 1 lo body s.

(** [for (int i = start; i != stop; i += step)], at most [n] rounds *)
Definition for_ne {S : Type} (n : Z) (start stop step : Z)
  (body : Z -> S -> S) (s : S) : S :=
  for_loop (Z.to_nat n) (fun i => negb (i =? stop)) step start body s.

Section Program.

Context {F : Type} `{FloatOps F}.

(** ** compute_sad_cost_hls *)

Definition sad_cell (left_pixels right_pixels : image F) (y x d : Z) : F :=
  let pixel_idx := y * WIDTH + x in
  if x - d >=? 0
  then fabs (fsub (left_pixels pixel_idx) (right_pixels (y * WIDTH + (x - d))))
  else of_int 1000.

Definition compute_sad_cost_hls (left_pixels right_pixels : image F)
  (cost_volume : volume F) : volume F :=
  for_up 0 HEIGHT (fun y cv =>
    for_up 0 WIDTH (fun x cv =>
      for_up 0 MAX_DISP (fun d cv =>
        upd3 cv y x d (sad_cell left_pixels right_pixels y x d)) cv) cv)
    cost_volume.

(** ** aggregate_path_hls *)

(** The scan for the minimum over the disparities of one pixel. *)
Definition min_prev_aggregated (cells : Z -> F) : F :=
  for_up 1 MAX_DISP (fun i m => if flt (cells i) m then cells i else m)
    (cells 0).

(** The body of the loop over [d] for a pixel with a predecessor: the four
    candidates, their minimum and the updated path cost. *)
Definition path_cell (cost : F) (prev : Z -> F) (min_prev : F) (d : Z) : F :=
  let cost_same := prev d in
  let cost_step_down :=
    if d >? 0 then fadd (prev (d - 1)) (of_int P1_PENALTY) else of_int 2000 in
  let cost_step_up :=
    if d <? MAX_DISP - 1 then fadd (prev (d + 1)) (of_int P1_PENALTY)
    else of_int 2000 in
  let cost_jump := fadd min_prev (of_int P2_PENALTY) in
  let min_transition_cost := cost_same in
  let min_transition_cost :=
    if flt cost_step_down min_transition_cost then cost_step_down
    else min_transition_cost in
  let min_transition_cost :=
    if flt cost_step_up min_transition_cost then cost_step_up
    else min_transition_cost in
  let min_transition_cost :=
    if flt cost_jump min_transition_cost then cost_jump
    else min_transition_cost in
  fadd cost (fsub min_transition_cost min_prev).

Definition in_frame (y x : Z) : bool :=
  (y >=? 0) && (y <? HEIGHT) && (x >=? 0) && (x <? WIDTH).

Definition aggregate_pixel (cost_volume : volume F) (dir_y dir_x : Z)
  (y x : Z) (path_cost_volume : volume F) : volume F :=
  let prev_y := y - dir_y in
  let prev_x := x - dir_x in
  if in_frame prev_y prev_x then
    let min_prev := min_prev_aggregated (path_cost_volume prev_y prev_x) in
    for_up 0 MAX_DISP (fun d pcv =>
      upd3 pcv y x d
        (path_cell (cost_volume y x d) (pcv prev_y prev_x) min_prev d))
      path_cost_volume
  else
    for_up 0 MAX_DISP (fun d pcv => upd3 pcv y x d (cost_volume y x d))
      path_cost_volume.

Definition aggregate_path_hls (cost_volume path_cost_volume : volume F)
  (dir_y dir_x : Z) : volume F :=
  let y_start := if dir_y >=? 0 then 0 else HEIGHT - 1 in
  let y_end := if dir_y >=? 0 then HEIGHT else -1 in
  let y_step := if dir_y >=? 0 then 1 else -1 in
  let x_start := if dir_x >=? 0 then 0 else WIDTH - 1 in
  let x_end := if dir_x >=? 0 then WIDTH else -1 in
  let x_step := if dir_x >=? 0 then 1 else -1 in
  for_ne HEIGHT y_start y_end y_step (fun y pcv =>
    for_ne WIDTH x_start x_end x_step (fun x pcv =>
      aggregate_pixel cost_volume dir_y dir_x y x pcv) pcv)
    path_cost_volume.

(** ** sgm_hls *)

(** The five [static] volumes. *)
Record sgm_state : Type := {
  cost_volume_s : volume F;
  path_left_to_right : volume F;
  path_right_to_left : volume F;
  path_top_to_bottom : volume F;
  path_bottom_to_top : volume F
}.

Definition total_aggregated_cost (st : sgm_state) (y x d : Z) : F :=
  fadd (fadd (fadd (path_left_to_right st y x d)
                   (path_right_to_left st y x d))
             (path_top_to_bottom st y x d))
       (path_bottom_to_top st y x d).

(** The winner-take-all scan of one pixel: the state is
    [(min_total_cost, best_disparity)]. *)
Definition wta_scan (total : Z -> F) : F * Z :=
  for_up 0 MAX_DISP (fun d mb =>
    if flt (total d) (fst mb) then (total d, d) else mb)
    (of_int 1000000000, 0).

Definition best_disparity (total : Z -> F) : Z := snd (wta_scan total).

Definition sgm_volumes (left_pixels right_pixels : image F) (st : sgm_state)
  : sgm_state :=
  let cv := compute_sad_cost_hls left_pixels right_pixels (cost_volume_s st) in
  {| cost_volume_s := cv;
     path_left_to_right := aggregate_path_hls cv (path_left_to_right st) 0 1;
     path_right_to_left := aggregate_path_hls cv (path_right_to_left st) 0 (-1);
     path_top_to_bottom := aggregate_path_hls cv (path_top_to_bottom st) 1 0;
     path_bottom_to_top := aggregate_path_hls cv (path_bottom_to_top st) (-1) 0
  |}.

Definition sgm_select (st : sgm_state) (disparity_output : dispmap) : dispmap :=
  for_up 0 HEIGHT (fun y out =>
    for_up 0 WIDTH (fun x out =>
      upd1 out (y * WIDTH + x)
        (best_disparity (total_aggregated_cost st y x))) out)
    disparity_output.

Definition sgm_hls (left_pixels right_pixels : image F) (st : sgm_state)
  (disparity_output : dispmap) : sgm_state * dispmap :=
  let st' := sgm_volumes left_pixels right_pixels st in
  (st', sgm_select st' disparity_output).

End Program.

(** * Loops as folds over the indices they visit *)

Section Loops.

Context {S : Type}.

Fixpoint steps (i step : Z) (n : nat) : list Z :=
  match n with
  | O => []
  | Datatypes.S k => i :: steps (i + step) step k
  end.

Definition foldi (l : list Z) (body : Z -> S -> S) (s : S) : S :=
  fold_left (fun s i => body i s) l s.

Lemma foldi_app (l1 l2 : list Z) (body : Z -> S -> S) (s : S) :
  foldi (l1 ++ l2) body s = foldi l2 body (foldi l1 body s).
Proof. apply fold_left_app. Qed.

Lemma foldi_cons (i : Z) (l : list Z) (body : Z -> S -> S) (s : S) :
  foldi (i :: l) body s = foldi l body (body i s).
Proof. reflexivity. Qed.

(** A loop whose test holds at its first [n] indices and fails at the next
    one runs exactly [n] rounds, whatever fuel is left over. *)
Lemma for_loop_steps (n k : nat) (continue : Z -> bool) (step i : Z)
  (body : Z -> S -> S) (s : S) :
  (forall j, (j < n)%nat -> continue (i + Z.of_nat j * step) = true) ->
  (k = O \/ continue (i + Z.of_nat n * step) = false) ->
  for_loop (n + k) continue step i body s = foldi (steps i step n) body s.
Proof.
  revert i s. induction n as [|n IH]; intros i s Hin Hout.
  - simpl. destruct Hout as [->|Hout]; [reflexivity|].
    destruct k; [reflexivity|]. simpl.
    assert (Hi : continue i = false) by (rewrite <- Hout; f_equal; lia).
    now rewrite Hi.
  - cbn [Nat.add for_loop steps]. rewrite foldi_cons.
    assert (Hi : continue i = true).
    { rewrite <- (Hin O ltac:(lia)). f_equal. lia. }
    rewrite Hi. apply IH.
    + intros j Hj. rewrite <- (Hin (Datatypes.S j) ltac:(lia)). f_equal. lia.
    + destruct Hout as [->|Hout]; [now left|right].
      rewrite <- Hout. f_equal. lia.
Qed.

Lemma for_up_steps (lo hi : Z) (body : Z -> S -> S) (s : S) :
  for_up lo hi body s = foldi (steps lo 1 (Z.to_nat (hi - lo))) body s.
Proof.
  unfold for_up. rewrite <- (Nat.add_0_r (Z.to_nat (hi - lo))) at 1.
  apply for_loop_steps; [|now left].
  intros j Hj. apply Z.ltb_lt. lia.
Qed.

(** The test [i < hi] fails after the last round: more fuel changes nothing. *)
Lemma for_up_fuel (k : nat) (lo hi : Z) (body : Z -> S -> S) (s : S) :
  for_loop (Z.to_nat (hi - lo) + k) (fun i => i <? hi) 1 lo body s
  = for_up lo hi body s.
Proof.
  rewrite for_up_steps. apply for_loop_steps.
  - intros j Hj. apply Z.ltb_lt. lia.
  - right. apply Z.ltb_ge. lia.
Qed.

Lemma for_ne_steps (n start stop step : Z) (body : Z -> S -> S) (s : S) :
  0 <= n -> step <> 0 -> stop = start + n * step ->
  for_ne n start stop step body s = foldi (steps start step (Z.to_nat n)) body s.
Proof.
  intros Hn Hstep ->. unfold for_ne.
  rewrite <- (Nat.add_0_r (Z.to_nat n)) at 1.
  apply for_loop_steps; [|now left].
  intros j Hj. apply negb_true_iff, Z.eqb_neq. nia.
Qed.

(** The test [i != stop] fails after round [n]. *)
Lemma for_ne_fuel (k : nat) (n start stop step : Z) (body : Z -> S -> S) (s : S) :
  0 <= n -> step <> 0 -> stop = start + n * step ->
  for_loop (Z.to_nat n + k) (fun i => negb (i =? stop)) step start body s
  = for_ne n start stop step body s.
Proof.
  intros Hn Hstep Hstop. rewrite for_ne_steps by assumption. subst stop.
  apply for_loop_steps.
  - intros j Hj. apply negb_true_iff, Z.eqb_neq. nia.
  - right. apply negb_false_iff, Z.eqb_eq. lia.
Qed.

End Loops.

(** The indices of a scan. *)

Lemma steps_length (i step : Z) (n : nat) : length (steps i step n) = n.
Proof. revert i. induction n; intros; simpl; auto. Qed.

Lemma steps_In (i step : Z) (n : nat) (j : Z) :
  In j (steps i step n) <-> exists k : nat, (k < n)%nat /\ j = i + Z.of_nat k * step.
Proof.
  revert i. induction n as [|n IH]; intros i; simpl.
  - split; [tauto|]. intros (k & Hk & _). lia.
  - rewrite IH. split.
    + intros [<-|(k & Hk & ->)].
      * exists O. split; lia.
      * exists (Datatypes.S k). split; lia.
    + intros (k & Hk & ->). destruct k as [|k].
      * left. lia.
      * right. exists k. split; lia.
Qed.

Lemma steps_split (i step : Z) (n a : nat) :
  (a < n)%nat ->
  steps i step n
  = steps i step a ++ (i + Z.of_nat a * step)
      :: steps (i + Z.of_nat (Datatypes.S a) * step) step (n - Datatypes.S a).
Proof.
  revert i n. induction a as [|a IH]; intros i n Ha.
  - destruct n; [lia|]. cbn [steps app Nat.sub]. rewrite Nat.sub_0_r.
    f_equal; [lia|]. f_equal. lia.
  - destruct n; [lia|]. cbn [steps app Nat.sub]. f_equal.
    rewrite (IH (i + step) n) by lia. f_equal. f_equal; [lia|].
    f_equal. lia.
Qed.

Lemma steps_NoDup (i step : Z) (n : nat) : step <> 0 -> NoDup (steps i step n).
Proof.
  intros Hstep. revert i. induction n as [|n IH]; intros i; simpl; constructor.
  - rewrite steps_In. intros (k & _ & Hk). nia.
  - apply IH.
Qed.

Lemma foldi_ext_in {S : Type} (l : list Z) (body body' : Z -> S -> S) (s : S) :
  (forall i s, In i l -> body i s = body' i s) ->
  foldi l body s = foldi l body' s.
Proof.
  revert s. induction l as [|i l IH]; intros s Hb; [reflexivity|].
  rewrite !foldi_cons, Hb by now left.
  apply IH. intros j s' Hj. apply Hb. now right.
Qed.

Lemma foldi_ext {S : Type} (l : list Z) (body body' : Z -> S -> S) (s : S) :
  (forall i s, body i s = body' i s) -> foldi l body s = foldi l body' s.
Proof. intros Hb. apply foldi_ext_in. intros i s' _. apply Hb. Qed.

(** * Writes to a volume *)

Lemma upd3_same {A : Type} (a : Z -> Z -> Z -> A) (y x d : Z) (v : A) :
  upd3 a y x d v y x d = v.
Proof. unfold upd3. now rewrite !Z.eqb_refl. Qed.

Lemma upd3_other {A : Type} (a : Z -> Z -> Z -> A) (y x d : Z) (v : A)
  (y' x' d' : Z) :
  y' <> y \/ x' <> x \/ d' <> d -> upd3 a y x d v y' x' d' = a y' x' d'.
Proof.
  unfold upd3. intros Hne.
  destruct (Z.eqb_spec y' y), (Z.eqb_spec x' x), (Z.eqb_spec d' d);
    simpl; try reflexivity; lia.
Qed.

(** The loop over the disparities of one pixel [(y, x)]: each round writes
    the cell [(y, x, d)]. *)
Section DisparityLoop.

Context {A : Type}.
Variables (y x : Z) (g : Z -> (Z -> Z -> Z -> A) -> A).

Definition write_cells (ds : list Z) (v : Z -> Z -> Z -> A) : Z -> Z -> Z -> A :=
  foldi ds (fun d v => upd3 v y x d (g d v)) v.

Lemma write_cells_frame (ds : list Z) (v : Z -> Z -> Z -> A) (y' x' d' : Z) :
  y' <> y \/ x' <> x \/ ~ In d' ds ->
  write_cells ds v y' x' d' = v y' x' d'.
Proof.
  unfold write_cells. revert v. induction ds as [|d ds IH]; intros v Hne.
  - reflexivity.
  - rewrite foldi_cons, IH.
    + apply upd3_other. simpl in Hne. intuition.
    + simpl in Hne. intuition.
Qed.

Lemma write_cells_at (ds1 ds2 : list Z) (d : Z) (v : Z -> Z -> Z -> A) :
  ~ In d ds2 ->
  write_cells (ds1 ++ d :: ds2) v y x d = g d (write_cells ds1 v).
Proof.
  intros Hd. unfold write_cells. rewrite foldi_app, foldi_cons.
  fold (write_cells ds1 v).
  fold (write_cells ds2 (upd3 (write_cells ds1 v) y x d (g d (write_cells ds1 v)))).
  rewrite write_cells_frame by auto. apply upd3_same.
Qed.

End DisparityLoop.

(** The two loops over the pixels: the body at [(y, x)] writes cells of the
    pixel [(y, x)] only. *)
Section PixelScan.

Context {A : Type}.
Variable body : Z -> Z -> (Z -> Z -> Z -> A) -> Z -> Z -> Z -> A.
Hypothesis body_frame : forall y x v y' x' d',
  y' <> y \/ x' <> x -> body y x v y' x' d' = v y' x' d'.

Definition scan_row (xs : list Z) (y : Z) (v : Z -> Z -> Z -> A) :=
  foldi xs (body y) v.

Definition scan (ys xs : list Z) (v : Z -> Z -> Z -> A) :=
  foldi ys (scan_row xs) v.

Lemma scan_row_frame (xs : list Z) (y : Z) (v : Z -> Z -> Z -> A) (y' x' d' : Z) :
  y' <> y \/ ~ In x' xs -> scan_row xs y v y' x' d' = v y' x' d'.
Proof.
  unfold scan_row. revert v. induction xs as [|x xs IH]; intros v Hne.
  - reflexivity.
  - rewrite foldi_cons, IH.
    + apply body_frame. simpl in Hne. intuition.
    + simpl in Hne. intuition.
Qed.

Lemma scan_frame (ys xs : list Z) (v : Z -> Z -> Z -> A) (y' x' d' : Z) :
  ~ In y' ys \/ ~ In x' xs -> scan ys xs v y' x' d' = v y' x' d'.
Proof.
  unfold scan. revert v. induction ys as [|y ys IH]; intros v Hne.
  - reflexivity.
  - rewrite foldi_cons, IH.
    + apply scan_row_frame. simpl in Hne. intuition.
    + simpl in Hne. intuition.
Qed.

(** The volume as the body at [(y, x)] finds it. *)
Definition before (ys1 xs1 xs : list Z) (y : Z) (v : Z -> Z -> Z -> A) :=
  scan_row xs1 y (scan ys1 xs v).

Lemma scan_split (ys1 ys2 xs1 xs2 : list Z) (y x : Z) (v : Z -> Z -> Z -> A) :
  scan (ys1 ++ y :: ys2) (xs1 ++ x :: xs2) v
  = scan ys2 (xs1 ++ x :: xs2)
      (scan_row xs2 y
         (body y x (before ys1 xs1 (xs1 ++ x :: xs2) y v))).
Proof.
  unfold scan at 1. rewrite foldi_app, foldi_cons.
  unfold scan_row at 2. rewrite foldi_app, foldi_cons. reflexivity.
Qed.

(** What the body writes at its pixel stays until the end. *)
Lemma scan_at (ys1 ys2 xs1 xs2 : list Z) (y x : Z) (v : Z -> Z -> Z -> A) (d : Z) :
  ~ In y ys2 -> ~ In x xs2 ->
  scan (ys1 ++ y :: ys2) (xs1 ++ x :: xs2) v y x d
  = body y x (before ys1 xs1 (xs1 ++ x :: xs2) y v) y x d.
Proof.
  intros Hy Hx. rewrite scan_split, scan_frame, scan_row_frame by auto.
  reflexivity.
Qed.

(** The pixels visited earlier already hold their final cells. *)
Lemma scan_before (ys1 ys2 xs1 xs2 : list Z) (y x : Z) (v : Z -> Z -> Z -> A)
  (y' x' d' : Z) :
  ~ In y ys2 ->
  (y' <> y /\ ~ In y' ys2) \/ (y' = y /\ x' <> x /\ ~ In x' xs2) ->
  before ys1 xs1 (xs1 ++ x :: xs2) y v y' x' d'
  = scan (ys1 ++ y :: ys2) (xs1 ++ x :: xs2) v y' x' d'.
Proof.
  intros Hy Hp. rewrite scan_split.
  destruct Hp as [[Hne Hy']|(-> & Hne & Hx')].
  - rewrite scan_frame, scan_row_frame, body_frame by auto. reflexivity.
  - rewrite scan_frame, scan_row_frame, body_frame by auto. reflexivity.
Qed.

End PixelScan.

Lemma steps_split_at (i step : Z) (n a : nat) :
  (a < n)%nat -> step <> 0 ->
  exists l1 l2,
    steps i step n = l1 ++ (i + Z.of_nat a * step) :: l2 /\
    (forall j, In j l1 -> exists k : nat, (k < a)%nat /\ j = i + Z.of_nat k * step) /\
    (forall j, In j l2 ->
       exists k : nat, (a < k < n)%nat /\ j = i + Z.of_nat k * step).
Proof.
  intros Ha Hstep.
  exists (steps i step a),
    (steps (i + Z.of_nat (Datatypes.S a) * step) step (n - Datatypes.S a)).
  split; [now apply steps_split|]. split; intros j Hj.
  - apply steps_In in Hj. exact Hj.
  - apply steps_In in Hj. destruct Hj as (k & Hk & ->).
    exists (Datatypes.S a + k)%nat. split; lia.
Qed.

(** The index lists of the program's loops. *)
Definition rows : list Z := steps 0 1 (Z.to_nat HEIGHT).
Definition cols : list Z := steps 0 1 (Z.to_nat WIDTH).
Definition disps : list Z := steps 0 1 (Z.to_nat MAX_DISP).

Lemma up_range_split (n j : Z) :
  0 <= j < n ->
  exists l1 l2, steps 0 1 (Z.to_nat n) = l1 ++ j :: l2 /\
    (forall k, In k l1 -> 0 <= k < j) /\ (forall k, In k l2 -> j < k < n).
Proof.
  intros Hj.
  destruct (steps_split_at 0 1 (Z.to_nat n) (Z.to_nat j)) as (l1 & l2 & E & H1 & H2);
    [lia|lia|].
  exists l1, l2. replace (0 + Z.of_nat (Z.to_nat j) * 1) with j in E by lia.
  split; [exact E|]. split; intros k Hk.
  - destruct (H1 k Hk) as (c & Hc & ->). lia.
  - destruct (H2 k Hk) as (c & Hc & ->). lia.
Qed.

Lemma up_range_In (n j : Z) : In j (steps 0 1 (Z.to_nat n)) <-> 0 <= j < n.
Proof.
  rewrite steps_In. split.
  - intros (k & Hk & ->). lia.
  - intros Hj. exists (Z.to_nat j). split; lia.
Qed.

Lemma down_range_split (n j : Z) :
  0 <= j < n ->
  exists l1 l2, steps (n - 1) (-1) (Z.to_nat n) = l1 ++ j :: l2 /\
    (forall k, In k l1 -> j < k < n) /\ (forall k, In k l2 -> 0 <= k < j).
Proof.
  intros Hj.
  destruct (steps_split_at (n - 1) (-1) (Z.to_nat n) (Z.to_nat (n - 1 - j)))
    as (l1 & l2 & E & H1 & H2); [lia|lia|].
  exists l1, l2.
  replace (n - 1 + Z.of_nat (Z.to_nat (n - 1 - j)) * -1) with j in E by lia.
  split; [exact E|]. split; intros k Hk.
  - destruct (H1 k Hk) as (c & Hc & ->). lia.
  - destruct (H2 k Hk) as (c & Hc & ->). lia.
Qed.

Lemma down_range_In (n j : Z) : In j (steps (n - 1) (-1) (Z.to_nat n)) <-> 0 <= j < n.
Proof.
  rewrite steps_In. split.
  - intros (k & Hk & ->). lia.
  - intros Hj. exists (Z.to_nat (n - 1 - j)). split; lia.
Qed.

(** A loop over the disparities that writes [g d v] at [(y, x, d)]. *)
Lemma for_up_write_cells {A : Type} (y x : Z) (g : Z -> (Z -> Z -> Z -> A) -> A)
  (v : Z -> Z -> Z -> A) :
  for_up 0 MAX_DISP (fun d v => upd3 v y x d (g d v)) v = write_cells y x g disps v.
Proof. unfold write_cells, disps. rewrite for_up_steps. reflexivity. Qed.

Lemma disps_In (d : Z) : In d disps <-> 0 <= d < MAX_DISP.
Proof. apply up_range_In. Qed.

Lemma write_disps_at {A : Type} (y x : Z) (g : Z -> (Z -> Z -> Z -> A) -> A)
  (v : Z -> Z -> Z -> A) (d : Z) :
  0 <= d < MAX_DISP ->
  exists ds1, write_cells y x g disps v y x d = g d (write_cells y x g ds1 v).
Proof.
  intros Hd. destruct (up_range_split MAX_DISP d Hd) as (l1 & l2 & E & _ & H2).
  exists l1. unfold disps. rewrite E. apply write_cells_at.
  intros Hin. apply H2 in Hin. lia.
Qed.

(** * The cost volume *)

Section CostVolume.

Context {F : Type} `{FloatOps F}.
Variables left_pixels right_pixels : image F.

Definition sad_pixel (y x : Z) (cv : volume F) : volume F :=
  write_cells y x (fun d _ => sad_cell left_pixels right_pixels y x d) disps cv.

Lemma compute_sad_cost_scan (cv : volume F) :
  compute_sad_cost_hls left_pixels right_pixels cv = scan sad_pixel rows cols cv.
Proof.
  unfold compute_sad_cost_hls, scan, scan_row, rows, cols.
  rewrite for_up_steps. apply foldi_ext. intros y v.
  rewrite for_up_steps. apply foldi_ext. intros x v'.
  apply (for_up_write_cells y x (fun d _ => sad_cell left_pixels right_pixels y x d)).
Qed.

Lemma sad_pixel_frame (y x : Z) (v : volume F) (y' x' d' : Z) :
  y' <> y \/ x' <> x -> sad_pixel y x v y' x' d' = v y' x' d'.
Proof. intros Hne. apply write_cells_frame. tauto. Qed.

Lemma sad_pixel_at (y x : Z) (v : volume F) (d : Z) :
  0 <= d < MAX_DISP ->
  sad_pixel y x v y x d = sad_cell left_pixels right_pixels y x d.
Proof.
  intros Hd. unfold sad_pixel.
  destruct (write_disps_at y x (fun d _ => sad_cell left_pixels right_pixels y x d)
              v d Hd) as (ds1 & ->).
  reflexivity.
Qed.

(** Every cell of the volume is written, with [sad_cell]. *)
Lemma compute_sad_cost_at (cv : volume F) (y x d : Z) :
  0 <= y < HEIGHT -> 0 <= x < WIDTH -> 0 <= d < MAX_DISP ->
  compute_sad_cost_hls left_pixels right_pixels cv y x d
  = sad_cell left_pixels right_pixels y x d.
Proof.
  intros Hy Hx Hd. rewrite compute_sad_cost_scan.
  destruct (up_range_split HEIGHT y Hy) as (ys1 & ys2 & Ey & _ & Hys2).
  destruct (up_range_split WIDTH x Hx) as (xs1 & xs2 & Ex & _ & Hxs2).
  unfold rows, cols. rewrite Ey, Ex.
  rewrite (scan_at sad_pixel sad_pixel_frame).
  - now apply sad_pixel_at.
  - intros Hin. apply Hys2 in Hin. lia.
  - intros Hin. apply Hxs2 in Hin. lia.
Qed.

End CostVolume.

(** * Path aggregation *)

Section Aggregation.

Context {F : Type} `{FloatOps F}.

(** The scans of a pixel read the predecessor at the disparities of the
    range only. *)
Lemma min_prev_aggregated_ext (cells cells' : Z -> F) :
  (forall i, 0 <= i < MAX_DISP -> cells i = cells' i) ->
  min_prev_aggregated cells = min_prev_aggregated cells'.
Proof.
  intros E. unfold min_prev_aggregated.
  rewrite !for_up_steps, (E 0) by (unfold MAX_DISP; lia).
  apply foldi_ext_in. intros i m Hi.
  apply steps_In in Hi. destruct Hi as (k & Hk & ->).
  rewrite E; [reflexivity|]. unfold MAX_DISP in *. lia.
Qed.

Lemma path_cell_ext (cost : F) (prev prev' : Z -> F) (m : F) (d : Z) :
  0 <= d < MAX_DISP ->
  (forall i, 0 <= i < MAX_DISP -> prev i = prev' i) ->
  path_cell cost prev m d = path_cell cost prev' m d.
Proof.
  intros Hd E. unfold path_cell. rewrite (E d Hd).
  destruct (Z.gtb_spec d 0), (Z.ltb_spec d (MAX_DISP - 1));
    rewrite ?(E (d - 1)), ?(E (d + 1)) by lia; reflexivity.
Qed.

Variable cost_volume : volume F.
Variables dir_y dir_x : Z.

(** What [aggregate_pixel] leaves at [(y, x, d)], from the cells [prev] of
    the predecessor. *)
Definition path_step (y x : Z) (prev : Z -> F) (d : Z) : F :=
  if in_frame (y - dir_y) (x - dir_x)
  then path_cell (cost_volume y x d) prev (min_prev_aggregated prev) d
  else cost_volume y x d.

Lemma path_step_ext (y x : Z) (prev prev' : Z -> F) (d : Z) :
  0 <= d < MAX_DISP ->
  (forall i, 0 <= i < MAX_DISP -> prev i = prev' i) ->
  path_step y x prev d = path_step y x prev' d.
Proof.
  intros Hd E. unfold path_step. destruct (in_frame _ _); [|reflexivity].
  rewrite (min_prev_aggregated_ext _ _ E). now apply path_cell_ext.
Qed.

Lemma aggregate_pixel_frame (y x : Z) (v : volume F) (y' x' d' : Z) :
  y' <> y \/ x' <> x ->
  aggregate_pixel cost_volume dir_y dir_x y x v y' x' d' = v y' x' d'.
Proof.
  intros Hne. unfold aggregate_pixel.
  destruct (in_frame _ _).
  - rewrite (for_up_write_cells y x
      (fun d pcv => path_cell (cost_volume y x d) (pcv (y - dir_y) (x - dir_x))
                      (min_prev_aggregated (v (y - dir_y) (x - dir_x))) d)).
    apply write_cells_frame. tauto.
  - rewrite (for_up_write_cells y x (fun d _ => cost_volume y x d)).
    apply write_cells_frame. tauto.
Qed.

(** With a direction other than [(0, 0)] the predecessor is another pixel,
    and the cell written is a function of the predecessor's cells as the
    body found them. *)
Lemma aggregate_pixel_at (y x : Z) (v : volume F) (d : Z) :
  dir_y <> 0 \/ dir_x <> 0 -> 0 <= d < MAX_DISP ->
  aggregate_pixel cost_volume dir_y dir_x y x v y x d
  = path_step y x (v (y - dir_y) (x - dir_x)) d.
Proof.
  intros Hdir Hd. unfold aggregate_pixel, path_step.
  destruct (in_frame _ _).
  - rewrite (for_up_write_cells y x
      (fun d pcv => path_cell (cost_volume y x d) (pcv (y - dir_y) (x - dir_x))
                      (min_prev_aggregated (v (y - dir_y) (x - dir_x))) d)).
    destruct (write_disps_at y x
      (fun d pcv => path_cell (cost_volume y x d) (pcv (y - dir_y) (x - dir_x))
                      (min_prev_aggregated (v (y - dir_y) (x - dir_x))) d)
      v d Hd) as (ds1 & ->).
    apply path_cell_ext; [assumption|]. intros i _. apply write_cells_frame. lia.
  - rewrite (for_up_write_cells y x (fun d _ => cost_volume y x d)).
    destruct (write_disps_at y x (fun d _ => cost_volume y x d) v d Hd)
      as (ds1 & ->).
    reflexivity.
Qed.

(** The rows and the columns in the order of the scan. *)
Definition scan_order (dir n : Z) : list Z :=
  if dir >=? 0 then steps 0 1 (Z.to_nat n) else steps (n - 1) (-1) (Z.to_nat n).

Lemma aggregate_path_scan (pcv : volume F) :
  aggregate_path_hls cost_volume pcv dir_y dir_x
  = scan (aggregate_pixel cost_volume dir_y dir_x)
      (scan_order dir_y HEIGHT) (scan_order dir_x WIDTH) pcv.
Proof.
  assert (L : forall (S : Type) dir n (body : Z -> S -> S) s, 0 <= n ->
    for_ne n (if dir >=? 0 then 0 else n - 1) (if dir >=? 0 then n else -1)
      (if dir >=? 0 then 1 else -1) body s
    = foldi (scan_order dir n) body s).
  { intros S dir n body s Hn. unfold scan_order.
    destruct (dir >=? 0); apply for_ne_steps; lia. }
  unfold aggregate_path_hls, scan, scan_row.
  rewrite L by (unfold HEIGHT; lia). apply foldi_ext. intros y v.
  apply L. unfold WIDTH; lia.
Qed.

Lemma scan_order_In (dir n j : Z) : In j (scan_order dir n) <-> 0 <= j < n.
Proof.
  unfold scan_order. destruct (dir >=? 0);
    [apply up_range_In | apply down_range_In].
Qed.

(** The part of the scan after index [j] lies on the side the scan moves to. *)
Lemma scan_order_split (dir n j : Z) :
  0 <= j < n ->
  exists l1 l2, scan_order dir n = l1 ++ j :: l2 /\
    (forall k, In k l2 -> 0 <= k < n /\ if dir >=? 0 then j < k else k < j).
Proof.
  intros Hj. unfold scan_order. destruct (dir >=? 0).
  - destruct (up_range_split n j Hj) as (l1 & l2 & E & _ & H2).
    exists l1, l2. split; [exact E|]. intros k Hk. apply H2 in Hk. lia.
  - destruct (down_range_split n j Hj) as (l1 & l2 & E & _ & H2).
    exists l1, l2. split; [exact E|]. intros k Hk. apply H2 in Hk. lia.
Qed.

(** The recurrence on the finished volume: each cell inside the frame is
    [path_step] of the predecessor's finished cells. *)
Lemma aggregate_path_at (pcv : volume F) (y x d : Z) :
  dir_y <> 0 \/ dir_x <> 0 ->
  0 <= y < HEIGHT -> 0 <= x < WIDTH -> 0 <= d < MAX_DISP ->
  aggregate_path_hls cost_volume pcv dir_y dir_x y x d
  = path_step y x
      (aggregate_path_hls cost_volume pcv dir_y dir_x (y - dir_y) (x - dir_x)) d.
Proof.
  intros Hdir Hy Hx Hd.
  destruct (scan_order_split dir_y HEIGHT y Hy) as (ys1 & ys2 & Ey & Hys2).
  destruct (scan_order_split dir_x WIDTH x Hx) as (xs1 & xs2 & Ex & Hxs2).
  assert (Hy2 : ~ In y ys2).
  { intros Hin. apply Hys2 in Hin. destruct (dir_y >=? 0); lia. }
  assert (Hx2 : ~ In x xs2).
  { intros Hin. apply Hxs2 in Hin. destruct (dir_x >=? 0); lia. }
  rewrite !aggregate_path_scan, Ey, Ex.
  rewrite (scan_at _ aggregate_pixel_frame) by assumption.
  rewrite aggregate_pixel_at by assumption.
  unfold path_step. destruct (in_frame (y - dir_y) (x - dir_x)) eqn:Hin;
    [|reflexivity].
  fold (path_step y x
    (before (aggregate_pixel cost_volume dir_y dir_x) ys1 xs1 (xs1 ++ x :: xs2) y pcv
       (y - dir_y) (x - dir_x)) d).
  assert (E : forall i,
    before (aggregate_pixel cost_volume dir_y dir_x) ys1 xs1 (xs1 ++ x :: xs2) y pcv
      (y - dir_y) (x - dir_x) i
    = scan (aggregate_pixel cost_volume dir_y dir_x) (ys1 ++ y :: ys2)
        (xs1 ++ x :: xs2) pcv (y - dir_y) (x - dir_x) i).
  { intros i. apply (scan_before _ aggregate_pixel_frame); [assumption|].
    destruct (Z.eq_dec dir_y 0) as [E0|Hne].
    - right. split; [lia|]. split; [lia|].
      intros Hk. apply Hxs2 in Hk.
      destruct (Z.geb_spec dir_x 0); lia.
    - left. split; [lia|].
      intros Hk. apply Hys2 in Hk.
      destruct (Z.geb_spec dir_y 0); lia. }
  rewrite (min_prev_aggregated_ext _ _ (fun i _ => E i)).
  apply path_cell_ext; [assumption|]. intros i _. apply E.
Qed.

(** Cells outside the frame are left alone. *)
Lemma aggregate_path_frame (pcv : volume F) (y x d : Z) :
  ~ (0 <= y < HEIGHT) \/ ~ (0 <= x < WIDTH) ->
  aggregate_path_hls cost_volume pcv dir_y dir_x y x d = pcv y x d.
Proof.
  intros Hout. rewrite aggregate_path_scan.
  apply (scan_frame _ aggregate_pixel_frame). rewrite !scan_order_In. exact Hout.
Qed.

End Aggregation.

(** * The comparison [<]

    The scans of the program keep a running minimum with the test
    [flt v m].  That this yields a minimum takes two laws of [<] only:
    irreflexivity and transitivity.  Both hold in IEEE arithmetic, where a
    comparison with a NaN is false.  [fnan] tells the values that compare
    with nothing; the others are weakly ordered. *)

Class FloatOrder (F : Type) {ops : FloatOps F} : Type := {
  fnan : F -> bool;
  flt_irrefl : forall a, flt a a = false;
  flt_trans : forall a b c, flt a b = true -> flt b c = true -> flt a c = true;
  flt_weak : forall a b c,
    flt a b = true -> fnan c = false -> flt a c = true \/ flt c b = true
}.

#[export] Program Instance Z_order : FloatOrder Z := {
  fnan := fun _ => false
}.
Next Obligation. apply Z.ltb_irrefl. Qed.
Next Obligation.
  simpl in *. rewrite Z.ltb_lt in *. lia.
Qed.
Next Obligation.
  simpl in *. rewrite !Z.ltb_lt in *. lia.
Qed.

Definition b32_is_nan (x : binary32) : bool :=
  match x with S754_nan => true | _ => false end.

Lemma SFltb_irrefl (a : spec_float) : SFltb a a = false.
Proof.
  unfold SFltb, SFcompare.
  destruct a as [[|]|[|]| |[|] m e]; try reflexivity;
    rewrite Z.compare_refl, Pos.compare_cont_refl; reflexivity.
Qed.

Ltac order_cases :=
  repeat match goal with
  | |- context [Z.compare ?a ?b] => destruct (Z.compare_spec a b)
  | H : context [Z.compare ?a ?b] |- _ => destruct (Z.compare_spec a b)
  | |- context [Pos.compare_cont Eq ?a ?b] =>
      change (Pos.compare_cont Eq a b) with (Pos.compare a b);
      destruct (Pos.compare_spec a b)
  | H : context [Pos.compare_cont Eq ?a ?b] |- _ =>
      change (Pos.compare_cont Eq a b) with (Pos.compare a b) in H;
      destruct (Pos.compare_spec a b)
  end;
  simpl in *; try discriminate; try reflexivity; try lia.

Lemma SFltb_trans (a b c : spec_float) :
  SFltb a b = true -> SFltb b c = true -> SFltb a c = true.
Proof.
  unfold SFltb, SFcompare.
  destruct a as [[|]|[|]| |[|] ma ea], b as [[|]|[|]| |[|] mb eb],
    c as [[|]|[|]| |[|] mc ec]; simpl; try discriminate; try reflexivity;
    intros Hab Hbc; order_cases.
Qed.

Lemma SFltb_weak (a b c : spec_float) :
  SFltb a b = true -> b32_is_nan c = false ->
  SFltb a c = true \/ SFltb c b = true.
Proof.
  unfold SFltb, SFcompare.
  destruct a as [[|]|[|]| |[|] ma ea], b as [[|]|[|]| |[|] mb eb],
    c as [[|]|[|]| |[|] mc ec]; simpl; try discriminate; auto;
    intros Hab _; order_cases; auto; try (left; order_cases; fail);
    try (right; order_cases; fail).
Qed.

#[export] Instance binary32_order : FloatOrder binary32 := {
  fnan := b32_is_nan;
  flt_irrefl := SFltb_irrefl;
  flt_trans := SFltb_trans;
  flt_weak := SFltb_weak
}.

(** * Running minima *)

(** [m] is a minimum of the values [l]: it is one of them and none is
    strictly below it. *)
Definition is_minimum {F : Type} `{FloatOps F} (m : F) (l : list F) : Prop :=
  In m l /\ forall v, In v l -> flt v m = false.

Section RunningMinimum.

Context {F : Type} `{FloatOrder F}.
Variable cells : Z -> F.

Definition running_min (l : list Z) (m0 : F) : F :=
  foldi l (fun i m => if flt (cells i) m then cells i else m) m0.

Lemma running_min_spec (l : list Z) (m0 : F) :
  let r := running_min l m0 in
  (r = m0 \/ (flt r m0 = true /\ exists j, In j l /\ r = cells j)) /\
  flt m0 r = false /\
  (forall j, In j l -> flt (cells j) r = false).
Proof.
  revert m0. induction l as [|i l IH]; intros m0; cbn zeta.
  - unfold running_min, foldi; simpl. split; [now left|].
    split; [apply flt_irrefl|tauto].
  - unfold running_min. rewrite foldi_cons.
    fold (running_min l (if flt (cells i) m0 then cells i else m0)).
    specialize (IH (if flt (cells i) m0 then cells i else m0)). cbn zeta in IH.
    set (r := running_min l _) in *.
    destruct IH as (Hr & Hm1 & Hl).
    destruct (flt (cells i) m0) eqn:Him.
    + (* the running minimum moves to [cells i] *)
      assert (Hrm0 : flt r m0 = true).
      { destruct Hr as [->|[Hlt _]]; [assumption|].
        now apply flt_trans with (cells i). }
      split; [|split].
      * right. split; [assumption|].
        destruct Hr as [->|(_ & j & Hj & E)].
        -- exists i. split; [now left|reflexivity].
        -- exists j. split; [now right|assumption].
      * destruct (flt m0 r) eqn:E; [|reflexivity].
        rewrite (flt_trans _ _ _ Him E) in Hm1. discriminate.
      * intros j [<-|Hj]; [assumption|now apply Hl].
    + split; [|split].
      * destruct Hr as [->|(Hlt & j & Hj & E)]; [now left|].
        right. split; [assumption|]. exists j. split; [now right|assumption].
      * assumption.
      * intros j [<-|Hj]; [|now apply Hl].
        destruct (flt (cells i) r) eqn:E; [|reflexivity].
        destruct Hr as [Hr|[Hlt _]].
        -- rewrite Hr, Him in E. discriminate.
        -- rewrite (flt_trans _ _ _ E Hlt) in Him. discriminate.
Qed.

Lemma running_min_is_minimum (l : list Z) (i0 : Z) :
  is_minimum (running_min l (cells i0)) (map cells (i0 :: l)).
Proof.
  destruct (running_min_spec l (cells i0)) as (Hr & H0 & Hl). split.
  - apply in_map_iff. destruct Hr as [->|(_ & j & Hj & ->)].
    + exists i0. split; [reflexivity|now left].
    + exists j. split; [reflexivity|now right].
  - intros v Hv. apply in_map_iff in Hv. destruct Hv as (j & <- & [<-|Hj]).
    + exact H0.
    + now apply Hl.
Qed.

End RunningMinimum.

Lemma min_prev_aggregated_is_minimum {F : Type} `{FloatOrder F} (cells : Z -> F) :
  is_minimum (min_prev_aggregated cells) (map cells disps).
Proof.
  unfold min_prev_aggregated. rewrite for_up_steps.
  change (is_minimum (running_min cells (steps 1 1 (Z.to_nat (MAX_DISP - 1))) (cells 0))
            (map cells (0 :: steps 1 1 (Z.to_nat (MAX_DISP - 1))))).
  apply running_min_is_minimum.
Qed.

(** The four candidates of a transition to disparity [d]. *)
Section Transition.

Context {F : Type} `{FloatOps F}.
Variables (prev : Z -> F) (min_prev : F) (d : Z).

Definition cost_same : F := prev d.
Definition cost_step_down : F :=
  if d >? 0 then fadd (prev (d - 1)) (of_int P1_PENALTY) else of_int 2000.
Definition cost_step_up : F :=
  if d <? MAX_DISP - 1 then fadd (prev (d + 1)) (of_int P1_PENALTY)
  else of_int 2000.
Definition cost_jump : F := fadd min_prev (of_int P2_PENALTY).

Definition min_transition_cost : F :=
  let m := cost_same in
  let m := if flt cost_step_down m then cost_step_down else m in
  let m := if flt cost_step_up m then cost_step_up else m in
  if flt cost_jump m then cost_jump else m.

Lemma path_cell_eq (cost : F) :
  path_cell cost prev min_prev d = fadd cost (fsub min_transition_cost min_prev).
Proof. reflexivity. Qed.

End Transition.

Lemma min_transition_cost_is_minimum {F : Type} `{FloatOrder F}
  (prev : Z -> F) (min_prev : F) (d : Z) :
  is_minimum (min_transition_cost prev min_prev d)
    [cost_same prev d; cost_step_down prev d; cost_step_up prev d;
     cost_jump min_prev].
Proof.
  pose (c := fun i : Z =>
    if i =? 0 then cost_same prev d
    else if i =? 1 then cost_step_down prev d
    else if i =? 2 then cost_step_up prev d
    else cost_jump min_prev).
  exact (running_min_is_minimum c [1; 2; 3] 0).
Qed.

(** * The cost volume and the recurrence, as specified *)

(** C2: for every pair of images and every cell [(row, col, d)] of the
    volume, [compute_sad_cost_hls] leaves
    [|left[row][col] - right[row][col - d]|] in the cell when [col - d >= 0]
    and the constant 1000 when [col < d], whatever the volume held before. *)
Theorem compute_sad_cost_hls_spec :
  forall (F : Type) (ops : FloatOps F) (left_pixels right_pixels : image F)
    (stale : volume F) (row col d : Z),
    0 <= row < HEIGHT -> 0 <= col < WIDTH -> 0 <= d < MAX_DISP ->
    let cost := compute_sad_cost_hls left_pixels right_pixels stale in
    (col - d >= 0 ->
     cost row col d
     = fabs (fsub (left_pixels (row * WIDTH + col))
                  (right_pixels (row * WIDTH + (col - d))))) /\
    (col < d -> cost row col d = of_int 1000).
Proof.
  intros F ops l r stale row col d Hr Hc Hd cost. subst cost.
  rewrite compute_sad_cost_at by assumption. unfold sad_cell. split; intros Hcd.
  - destruct (Z.geb_spec (col - d) 0); [reflexivity|lia].
  - destruct (Z.geb_spec (col - d) 0); [lia|reflexivity].
Qed.

(** C1: for a direction other than [(0, 0)] - the four cardinal directions
    among them - and a pixel whose predecessor lies in the frame, the
    aggregated cost at disparity [d] is
    [cost + (transitionMin - minPrev)], where [minPrev] is a minimum of the
    predecessor's aggregated costs and [transitionMin] a minimum of the four
    candidates: same disparity, [d - 1] plus P1 (2000 when [d = 0]), [d + 1]
    plus P1 (2000 when [d = MAX_DISP - 1]) and [minPrev] plus P2. *)
Theorem aggregate_path_hls_recurrence :
  forall (F : Type) (ops : FloatOps F) (ord : FloatOrder F)
    (cost stale : volume F) (dy dx row col d : Z),
    dy <> 0 \/ dx <> 0 ->
    0 <= row < HEIGHT -> 0 <= col < WIDTH ->
    in_frame (row - dy) (col - dx) = true ->
    0 <= d < MAX_DISP ->
    let aggregated := aggregate_path_hls cost stale dy dx in
    let pred := aggregated (row - dy) (col - dx) in
    exists minPrev transitionMin : F,
      is_minimum minPrev (map pred disps) /\
      is_minimum transitionMin
        [pred d;
         if d >? 0 then fadd (pred (d - 1)) (of_int P1_PENALTY) else of_int 2000;
         if d <? MAX_DISP - 1 then fadd (pred (d + 1)) (of_int P1_PENALTY)
         else of_int 2000;
         fadd minPrev (of_int P2_PENALTY)] /\
      aggregated row col d = fadd (cost row col d) (fsub transitionMin minPrev).
Proof.
  intros F ops ord cost stale dy dx row col d Hdir Hr Hc Hin Hd aggregated pred.
  exists (min_prev_aggregated pred),
    (min_transition_cost pred (min_prev_aggregated pred) d).
  split; [apply min_prev_aggregated_is_minimum|].
  split; [apply min_transition_cost_is_minimum|].
  subst aggregated pred. rewrite aggregate_path_at at 1 by assumption.
  unfold path_step. rewrite Hin. apply path_cell_eq.
Qed.

(** C3: a pixel of the frame whose predecessor lies outside the frame gets
    its raw costs: [aggregated[row][col][d] = cost[row][col][d]] for every
    disparity [d]. *)
Theorem aggregate_path_hls_boundary :
  forall (F : Type) (ops : FloatOps F) (cost stale : volume F)
    (dy dx row col d : Z),
    0 <= row < HEIGHT -> 0 <= col < WIDTH ->
    in_frame (row - dy) (col - dx) = false ->
    0 <= d < MAX_DISP ->
    aggregate_path_hls cost stale dy dx row col d = cost row col d.
Proof.
  intros F ops cost stale dy dx row col d Hr Hc Hout Hd.
  assert (Hdir : dy <> 0 \/ dx <> 0).
  { destruct (Z.eq_dec dy 0) as [->|]; [|now left].
    destruct (Z.eq_dec dx 0) as [->|]; [|now right].
    exfalso. unfold in_frame in Hout. rewrite !Z.sub_0_r in Hout.
    destruct (Z.geb_spec row 0), (Z.ltb_spec row HEIGHT),
      (Z.geb_spec col 0), (Z.ltb_spec col WIDTH); simpl in Hout;
      try discriminate; lia. }
  rewrite aggregate_path_at by assumption.
  unfold path_step. now rewrite Hout.
Qed.

(** ** Sample inputs in binary32 *)

Definition ramp_image : image binary32 := fun i => b32_of_int (i mod 7 * 30).
Definition step_image : image binary32 := fun i => b32_of_int (i mod 5 * 50).
Definition zero_volume : volume binary32 := fun _ _ _ => S754_zero false.
Definition ramp_volume : volume binary32 :=
  fun y x d => b32_of_int ((y + 3 * x + 5 * d) mod 11).

Lemma compute_sad_cost_hls_spec_witness :
  let cost := compute_sad_cost_hls ramp_image step_image zero_volume in
  (5 - 2 >= 0 ->
   cost 3 5 2
   = fabs (fsub (ramp_image (3 * WIDTH + 5)) (step_image (3 * WIDTH + (5 - 2))))) /\
  (5 < 2 -> cost 3 5 2 = of_int 1000).
Proof.
  apply (compute_sad_cost_hls_spec binary32 binary32_ops ramp_image step_image
           zero_volume 3 5 2); unfold HEIGHT, WIDTH, MAX_DISP; lia.
Defined.

Lemma aggregate_path_hls_recurrence_witness :
  let aggregated := aggregate_path_hls ramp_volume zero_volume 0 1 in
  let pred := aggregated (2 - 0) (7 - 1) in
  exists minPrev transitionMin : binary32,
    is_minimum minPrev (map pred disps) /\
    is_minimum transitionMin
      [pred 0;
       if 0 >? 0 then fadd (pred (0 - 1)) (of_int P1_PENALTY) else of_int 2000;
       if 0 <? MAX_DISP - 1 then fadd (pred (0 + 1)) (of_int P1_PENALTY)
       else of_int 2000;
       fadd minPrev (of_int P2_PENALTY)] /\
    aggregated 2 7 0 = fadd (ramp_volume 2 7 0) (fsub transitionMin minPrev).
Proof.
  apply (aggregate_path_hls_recurrence binary32 binary32_ops binary32_order
           ramp_volume zero_volume 0 1 2 7 0);
    try reflexivity; unfold HEIGHT, WIDTH, MAX_DISP; lia.
Defined.

Lemma aggregate_path_hls_boundary_witness :
  aggregate_path_hls ramp_volume zero_volume (-1) 0 239 4 9 = ramp_volume 239 4 9.
Proof.
  apply (aggregate_path_hls_boundary binary32 binary32_ops ramp_volume
           zero_volume (-1) 0 239 4 9);
    try reflexivity; unfold HEIGHT, WIDTH, MAX_DISP; lia.
Defined.

(** * The cells of one pixel, along its path

    [path_cells] follows the path of a pixel back to the border of the frame
    and returns the [MAX_DISP] aggregated costs of the pixel.  It mentions
    neither the scan order nor the previous content of the volume, and it
    runs on concrete inputs. *)

Lemma nth_steps (lo : Z) (n k : nat) (def : Z) :
  (k < n)%nat -> nth k (steps lo 1 n) def = lo + Z.of_nat k.
Proof.
  revert lo k. induction n as [|n IH]; intros lo k Hk; [lia|].
  destruct k as [|k]; simpl steps; cbn [nth]; [lia|].
  rewrite IH by lia. lia.
Qed.

Lemma nth_map_disps {A : Type} (f : Z -> A) (d : Z) (def : A) :
  0 <= d < MAX_DISP -> nth (Z.to_nat d) (map f disps) def = f d.
Proof.
  intros Hd. unfold disps.
  rewrite (nth_indep _ def (f 0))
    by (rewrite length_map, steps_length; lia).
  rewrite (map_nth f _ 0), nth_steps by lia. f_equal. lia.
Qed.

Section PathCells.

Context {F : Type} `{FloatOps F}.
Variable cost_volume : volume F.
Variables dir_y dir_x : Z.

Definition cell_of (cells : list F) (d : Z) : F :=
  nth (Z.to_nat d) cells (of_int 0).

Fixpoint path_cells (fuel : nat) (y x : Z) : list F :=
  if in_frame (y - dir_y) (x - dir_x) then
    match fuel with
    | O => map (cost_volume y x) disps
    | Datatypes.S k =>
        let prev := cell_of (path_cells k (y - dir_y) (x - dir_x)) in
        let min_prev := min_prev_aggregated prev in
        map (fun d => path_cell (cost_volume y x d) prev min_prev d) disps
    end
  else map (cost_volume y x) disps.

(** The number of steps from [(y, x)] back to the border. *)
Definition path_length (y x : Z) : Z :=
  if dir_y >? 0 then y
  else if dir_y <? 0 then HEIGHT - 1 - y
  else if dir_x >? 0 then x
  else WIDTH - 1 - x.

Lemma in_frame_spec (y x : Z) :
  in_frame y x = true <-> 0 <= y < HEIGHT /\ 0 <= x < WIDTH.
Proof.
  unfold in_frame.
  destruct (Z.geb_spec y 0), (Z.ltb_spec y HEIGHT),
    (Z.geb_spec x 0), (Z.ltb_spec x WIDTH); simpl; split;
    try discriminate; try reflexivity; lia.
Qed.

Lemma path_length_pred (y x : Z) :
  dir_y <> 0 \/ dir_x <> 0 ->
  in_frame y x = true -> in_frame (y - dir_y) (x - dir_x) = true ->
  0 <= path_length (y - dir_y) (x - dir_x) < path_length y x.
Proof.
  rewrite !in_frame_spec. unfold path_length. intros Hdir Hp Hq.
  destruct (Z.gtb_spec dir_y 0); [lia|].
  destruct (Z.ltb_spec dir_y 0); [lia|].
  destruct (Z.gtb_spec dir_x 0); lia.
Qed.

Lemma aggregate_path_cells (stale : volume F) (fuel : nat) (y x d : Z) :
  dir_y <> 0 \/ dir_x <> 0 ->
  in_frame y x = true -> path_length y x <= Z.of_nat fuel ->
  0 <= d < MAX_DISP ->
  aggregate_path_hls cost_volume stale dir_y dir_x y x d
  = cell_of (path_cells fuel y x) d.
Proof.
  intros Hdir. revert y x d. induction fuel as [|fuel IH];
    intros y x d Hin Hlen Hd;
    rewrite aggregate_path_at by (apply in_frame_spec in Hin; tauto);
    unfold path_step; cbn [path_cells];
    destruct (in_frame (y - dir_y) (x - dir_x)) eqn:Hpred;
    unfold cell_of; try (rewrite nth_map_disps by assumption; reflexivity).
  - pose proof (path_length_pred y x Hdir Hin Hpred). lia.
  - cbn zeta. rewrite nth_map_disps by assumption.
    assert (E : forall i, 0 <= i < MAX_DISP ->
      aggregate_path_hls cost_volume stale dir_y dir_x (y - dir_y) (x - dir_x) i
      = cell_of (path_cells fuel (y - dir_y) (x - dir_x)) i).
    { intros i Hi. apply IH; [assumption| |assumption].
      pose proof (path_length_pred y x Hdir Hin Hpred). lia. }
    rewrite (min_prev_aggregated_ext _ _ E). now apply path_cell_ext.
Qed.

(** The cells depend on the cost volume inside the frame only. *)
Lemma path_cells_length (fuel : nat) (y x : Z) :
  length (path_cells fuel y x) = Z.to_nat MAX_DISP.
Proof.
  destruct fuel; cbn [path_cells]; destruct (in_frame _ _);
    cbn zeta; unfold disps; now rewrite length_map, steps_length.
Qed.

End PathCells.

Lemma path_cells_ext {F : Type} `{FloatOps F} (cost cost' : volume F)
  (dir_y dir_x : Z) (fuel : nat) (y x : Z) :
  (forall y x d, in_frame y x = true -> 0 <= d < MAX_DISP ->
     cost y x d = cost' y x d) ->
  in_frame y x = true ->
  path_cells cost dir_y dir_x fuel y x = path_cells cost' dir_y dir_x fuel y x.
Proof.
  intros E. revert y x. induction fuel as [|fuel IH]; intros y x Hin;
    cbn [path_cells]; destruct (in_frame (y - dir_y) (x - dir_x)) eqn:Hpred;
    try (apply map_ext_in; intros d Hd; apply E;
         [assumption|now apply disps_In]).
  cbn zeta. rewrite (IH _ _ Hpred).
  apply map_ext_in. intros d Hd. rewrite E; [reflexivity|assumption|].
  now apply disps_In.
Qed.

(** * Winner-take-all selection *)

Section WinnerTakeAll.

Context {F : Type} `{FloatOps F}.
Variable total : Z -> F.

Definition wta_from (l : list Z) (mb0 : F * Z) : F * Z :=
  foldi l (fun d mb => if flt (total d) (fst mb) then (total d, d) else mb) mb0.

Lemma wta_scan_from : wta_scan total = wta_from disps (of_int 1000000000, 0).
Proof. unfold wta_scan, wta_from, disps. now rewrite for_up_steps. Qed.

(** The winner is the initial one or a disparity of the scan. *)
Lemma wta_from_range (n : nat) (lo : Z) (mb0 : F * Z) :
  let r := wta_from (steps lo 1 n) mb0 in
  r = mb0 \/ (lo <= snd r < lo + Z.of_nat n /\ fst r = total (snd r)).
Proof.
  revert lo mb0. induction n as [|n IH]; intros lo mb0; cbn zeta.
  - now left.
  - cbn [steps]. unfold wta_from. rewrite foldi_cons.
    fold (wta_from (steps (lo + 1) 1 n)
            (if flt (total lo) (fst mb0) then (total lo, lo) else mb0)).
    specialize (IH (lo + 1)
      (if flt (total lo) (fst mb0) then (total lo, lo) else mb0)).
    cbn zeta in IH. destruct IH as [->|[Hr Hf]].
    + destruct (flt (total lo) (fst mb0)); [right; simpl; split; [lia|reflexivity]|now left].
    + right. split; [lia|assumption].
Qed.

Lemma best_disparity_range : 0 <= best_disparity total < MAX_DISP.
Proof.
  unfold best_disparity. rewrite wta_scan_from.
  destruct (wta_from_range (Z.to_nat MAX_DISP) 0 (of_int 1000000000, 0))
    as [E|[Hr _]]; fold disps in *.
  - rewrite E. simpl. unfold MAX_DISP. lia.
  - unfold MAX_DISP in *. lia.
Qed.

End WinnerTakeAll.

Section WinnerTakeAllOrder.

Context {F : Type} `{FloatOrder F}.
Variable total : Z -> F.

Lemma wta_from_spec (n : nat) (lo : Z) (mb0 : F * Z) :
  let r := wta_from total (steps lo 1 n) mb0 in
  (r = mb0 \/
   (lo <= snd r < lo + Z.of_nat n /\ fst r = total (snd r) /\
    flt (fst r) (fst mb0) = true /\
    forall j, lo <= j < snd r -> fnan (total j) = false ->
      flt (fst r) (total j) = true)) /\
  flt (fst mb0) (fst r) = false /\
  (forall j, lo <= j < lo + Z.of_nat n -> flt (total j) (fst r) = false).
Proof.
  revert lo mb0. induction n as [|n IH]; intros lo mb0; cbn zeta.
  - unfold wta_from, foldi; simpl. split; [now left|].
    split; [apply flt_irrefl|]. intros j Hj. lia.
  - cbn [steps]. unfold wta_from. rewrite foldi_cons.
    fold (wta_from total (steps (lo + 1) 1 n)
            (if flt (total lo) (fst mb0) then (total lo, lo) else mb0)).
    specialize (IH (lo + 1)
      (if flt (total lo) (fst mb0) then (total lo, lo) else mb0)).
    cbn zeta in IH. set (r := wta_from total _ _) in *.
    destruct IH as (Hr & Hm1 & Hl).
    destruct (flt (total lo) (fst mb0)) eqn:Him; cbn [fst snd] in *.
    + split; [right|split].
      * destruct Hr as [->|(Hrng & Hf & Hlt & Hfirst)]; cbn [fst snd].
        -- split; [lia|]. split; [reflexivity|]. split; [assumption|].
           intros j Hj. lia.
        -- split; [lia|]. split; [assumption|].
           split; [now apply flt_trans with (total lo)|].
           intros j Hj Hnan. destruct (Z.eq_dec j lo) as [->|Hne];
             [assumption|apply Hfirst; [lia|assumption]].
      * destruct (flt (fst mb0) (fst r)) eqn:E; [|reflexivity].
        rewrite (flt_trans _ _ _ Him E) in Hm1. discriminate.
      * intros j Hj. destruct (Z.eq_dec j lo) as [->|Hne];
          [assumption|apply Hl; lia].
    + assert (Hlo : flt (total lo) (fst r) = false).
      { destruct (flt (total lo) (fst r)) eqn:E; [|reflexivity].
        destruct Hr as [Hr|(_ & _ & Hlt & _)].
        - rewrite Hr, Him in E. discriminate.
        - rewrite (flt_trans _ _ _ E Hlt) in Him. discriminate. }
      split; [|split].
      * destruct Hr as [->|(Hrng & Hf & Hlt & Hfirst)]; [now left|right].
        split; [lia|]. split; [assumption|]. split; [assumption|].
        intros j Hj Hnan. destruct (Z.eq_dec j lo) as [->|Hne];
          [|apply Hfirst; [lia|assumption]].
        destruct (flt_weak _ _ (total lo) Hlt Hnan) as [E|E];
          [assumption|]. rewrite E in Him. discriminate.
      * assumption.
      * intros j Hj. destruct (Z.eq_dec j lo) as [->|Hne];
          [assumption|apply Hl; lia].
Qed.

(** When some total is below the initial bound 1e9, the winner is the
    first disparity that no total is strictly below. *)
Lemma best_disparity_first_minimum :
  (exists d, 0 <= d < MAX_DISP /\ flt (total d) (of_int 1000000000) = true) ->
  let best := best_disparity total in
  0 <= best < MAX_DISP /\
  (forall d, 0 <= d < MAX_DISP -> flt (total d) (total best) = false) /\
  (forall d, 0 <= d < best -> fnan (total d) = false ->
     flt (total best) (total d) = true).
Proof.
  intros (d0 & Hd0 & Hlt0). cbn zeta. unfold best_disparity.
  rewrite wta_scan_from. unfold disps.
  destruct (wta_from_spec (Z.to_nat MAX_DISP) 0 (of_int 1000000000, 0))
    as (Hr & _ & Hl). cbn zeta in *. cbn [fst snd] in *.
  set (r := wta_from total _ _) in *.
  destruct Hr as [E|(Hrng & Hf & _ & Hfirst)].
  - specialize (Hl d0 ltac:(lia)). rewrite E in Hl. cbn [fst] in Hl.
    rewrite Hl in Hlt0. discriminate.
  - rewrite <- Hf. split; [lia|]. split.
    + intros d Hd. apply Hl. lia.
    + intros d Hd. apply Hfirst. lia.
Qed.

(** When no total is below 1e9, disparity 0 stays. *)
Lemma best_disparity_default :
  (forall d, 0 <= d < MAX_DISP -> flt (total d) (of_int 1000000000) = false) ->
  best_disparity total = 0.
Proof.
  intros Hnone. unfold best_disparity. rewrite wta_scan_from. unfold disps.
  destruct (wta_from_spec (Z.to_nat MAX_DISP) 0 (of_int 1000000000, 0))
    as (Hr & _ & _). cbn zeta in *. cbn [fst snd] in *.
  destruct Hr as [->|(Hrng & Hf & Hlt & _)]; [reflexivity|].
  rewrite Hf, Hnone in Hlt by lia. discriminate.
Qed.

End WinnerTakeAllOrder.

(** * The disparity map *)

Lemma upd1_same {A : Type} (a : Z -> A) (i : Z) (v : A) : upd1 a i v i = v.
Proof. unfold upd1. now rewrite Z.eqb_refl. Qed.

Lemma upd1_other {A : Type} (a : Z -> A) (i j : Z) (v : A) :
  j <> i -> upd1 a i v j = a j.
Proof. unfold upd1. intros Hne. now destruct (Z.eqb_spec j i). Qed.

Section WriteMap.

Variable g : Z -> Z -> Z.

Definition write_row (xs : list Z) (y : Z) (out : dispmap) : dispmap :=
  foldi xs (fun x out => upd1 out (y * WIDTH + x) (g y x)) out.

Definition write_map (ys xs : list Z) (out : dispmap) : dispmap :=
  foldi ys (write_row xs) out.

Lemma write_row_frame (xs : list Z) (y : Z) (out : dispmap) (i : Z) :
  (forall x, In x xs -> i <> y * WIDTH + x) -> write_row xs y out i = out i.
Proof.
  unfold write_row. revert out. induction xs as [|x xs IH]; intros out Hne.
  - reflexivity.
  - rewrite foldi_cons, IH by (intros; apply Hne; now right).
    apply upd1_other. apply Hne. now left.
Qed.

Lemma write_map_frame (ys xs : list Z) (out : dispmap) (i : Z) :
  (forall y x, In y ys -> In x xs -> i <> y * WIDTH + x) ->
  write_map ys xs out i = out i.
Proof.
  unfold write_map. revert out. induction ys as [|y ys IH]; intros out Hne.
  - reflexivity.
  - rewrite foldi_cons, IH by (intros; apply Hne; [now right|assumption]).
    apply write_row_frame. intros x Hx. apply Hne; [now left|assumption].
Qed.

Lemma write_map_at (out : dispmap) (y x : Z) :
  0 <= y < HEIGHT -> 0 <= x < WIDTH ->
  write_map rows cols out (y * WIDTH + x) = g y x.
Proof.
  intros Hy Hx.
  destruct (up_range_split HEIGHT y Hy) as (ys1 & ys2 & Ey & _ & Hys2).
  destruct (up_range_split WIDTH x Hx) as (xs1 & xs2 & Ex & _ & Hxs2).
  assert (Hcols : forall k, In k cols -> 0 <= k < WIDTH)
    by (intros k; apply up_range_In).
  unfold write_map, rows. rewrite Ey, foldi_app, foldi_cons.
  fold (write_map ys1 cols out).
  fold (write_map ys2 cols (write_row cols y (write_map ys1 cols out))).
  rewrite write_map_frame.
  - unfold write_row, cols. rewrite Ex, foldi_app, foldi_cons.
    fold (write_row xs1 y (write_map ys1 (xs1 ++ x :: xs2) out)).
    match goal with |- foldi xs2 _ ?o _ = _ => fold (write_row xs2 y o) end.
    rewrite write_row_frame; [apply upd1_same|].
    intros k Hk. apply Hxs2 in Hk. lia.
  - intros y' x' Hy' Hx'. apply Hys2 in Hy'. apply Hcols in Hx'. nia.
Qed.

Lemma write_map_outside (out : dispmap) (i : Z) :
  ~ (0 <= i < HEIGHT * WIDTH) -> write_map rows cols out i = out i.
Proof.
  intros Hout. apply write_map_frame. intros y x Hy Hx.
  apply up_range_In in Hy. apply up_range_In in Hx. nia.
Qed.

End WriteMap.

Section Select.

Context {F : Type} `{FloatOps F}.

Lemma sgm_select_write_map (st : sgm_state) (out : dispmap) :
  sgm_select st out
  = write_map (fun y x => best_disparity (total_aggregated_cost st y x))
      rows cols out.
Proof.
  unfold sgm_select, write_map, write_row, rows, cols.
  rewrite for_up_steps. apply foldi_ext. intros y o. now rewrite for_up_steps.
Qed.

Lemma sgm_select_at (st : sgm_state) (out : dispmap) (y x : Z) :
  0 <= y < HEIGHT -> 0 <= x < WIDTH ->
  sgm_select st out (y * WIDTH + x)
  = best_disparity (total_aggregated_cost st y x).
Proof. intros Hy Hx. rewrite sgm_select_write_map. now apply write_map_at. Qed.

Lemma sgm_select_outside (st : sgm_state) (out : dispmap) (i : Z) :
  ~ (0 <= i < HEIGHT * WIDTH) -> sgm_select st out i = out i.
Proof. intros Hi. rewrite sgm_select_write_map. now apply write_map_outside. Qed.

End Select.

(** * One pixel of the disparity map, from the images alone *)

Section Pixel.

Context {F : Type} `{FloatOps F}.

Definition path_fuel : nat := Z.to_nat (HEIGHT + WIDTH).

Definition sgm_totals (left_pixels right_pixels : image F) (row col : Z)
  : Z -> F :=
  let cost := sad_cell left_pixels right_pixels in
  let lr := path_cells cost 0 1 path_fuel row col in
  let rl := path_cells cost 0 (-1) path_fuel row col in
  let tb := path_cells cost 1 0 path_fuel row col in
  let bt := path_cells cost (-1) 0 path_fuel row col in
  fun d => fadd (fadd (fadd (cell_of lr d) (cell_of rl d)) (cell_of tb d))
             (cell_of bt d).

Definition sgm_pixel (left_pixels right_pixels : image F) (row col : Z) : Z :=
  best_disparity (sgm_totals left_pixels right_pixels row col).

Lemma best_disparity_ext (total total' : Z -> F) :
  (forall d, 0 <= d < MAX_DISP -> total d = total' d) ->
  best_disparity total = best_disparity total'.
Proof.
  intros E. unfold best_disparity, wta_scan. rewrite !for_up_steps.
  f_equal. apply foldi_ext_in. intros d mb Hd.
  apply disps_In in Hd. now rewrite E.
Qed.

Lemma path_length_fuel (dir_y dir_x y x : Z) :
  in_frame y x = true -> path_length dir_y dir_x y x <= Z.of_nat path_fuel.
Proof.
  rewrite in_frame_spec. unfold path_length, path_fuel, HEIGHT, WIDTH.
  intros Hin. destruct (dir_y >? 0), (dir_y <? 0), (dir_x >? 0); lia.
Qed.

(** A finished path volume of [sgm_volumes], at a cell of the frame. *)
Lemma sgm_path_cells (left_pixels right_pixels : image F)
  (stale_cost stale : volume F) (dir_y dir_x row col d : Z) :
  dir_y <> 0 \/ dir_x <> 0 ->
  in_frame row col = true -> 0 <= d < MAX_DISP ->
  aggregate_path_hls (compute_sad_cost_hls left_pixels right_pixels stale_cost)
    stale dir_y dir_x row col d
  = cell_of (path_cells (sad_cell left_pixels right_pixels) dir_y dir_x
               path_fuel row col) d.
Proof.
  intros Hdir Hin Hd.
  rewrite (aggregate_path_cells _ _ _ _ path_fuel)
    by (try apply path_length_fuel; assumption).
  f_equal. apply path_cells_ext; [|assumption].
  intros y x d' Hf Hd'. apply in_frame_spec in Hf.
  apply compute_sad_cost_at; tauto.
Qed.

Lemma sgm_volumes_totals (left_pixels right_pixels : image F) (st : sgm_state)
  (row col d : Z) :
  in_frame row col = true -> 0 <= d < MAX_DISP ->
  total_aggregated_cost (sgm_volumes left_pixels right_pixels st) row col d
  = sgm_totals left_pixels right_pixels row col d.
Proof.
  intros Hin Hd. unfold total_aggregated_cost, sgm_volumes, sgm_totals.
  cbn [path_left_to_right path_right_to_left path_top_to_bottom
       path_bottom_to_top].
  rewrite !sgm_path_cells by (assumption || lia). reflexivity.
Qed.

(** [sgm_hls] writes [sgm_pixel] at every pixel and nothing elsewhere. *)
Lemma sgm_hls_pixel (left_pixels right_pixels : image F) (st : sgm_state)
  (out : dispmap) (row col : Z) :
  0 <= row < HEIGHT -> 0 <= col < WIDTH ->
  snd (sgm_hls left_pixels right_pixels st out) (row * WIDTH + col)
  = sgm_pixel left_pixels right_pixels row col.
Proof.
  intros Hr Hc. unfold sgm_hls. cbn [snd].
  rewrite sgm_select_at by assumption.
  apply best_disparity_ext. intros d Hd.
  apply sgm_volumes_totals; [|assumption]. now apply in_frame_spec.
Qed.

Lemma sgm_hls_outside (left_pixels right_pixels : image F) (st : sgm_state)
  (out : dispmap) (i : Z) :
  ~ (0 <= i < HEIGHT * WIDTH) ->
  snd (sgm_hls left_pixels right_pixels st out) i = out i.
Proof. intros Hi. unfold sgm_hls. cbn [snd]. now apply sgm_select_outside. Qed.

(** The cost of a cell of the frame reads the images inside their bounds. *)
Lemma sad_cell_ext (l r l' r' : image F) (y x d : Z) :
  (forall i, 0 <= i < HEIGHT * WIDTH -> l i = l' i /\ r i = r' i) ->
  in_frame y x = true -> 0 <= d < MAX_DISP ->
  sad_cell l r y x d = sad_cell l' r' y x d.
Proof.
  intros E Hin Hd. apply in_frame_spec in Hin. unfold sad_cell.
  destruct (Z.geb_spec (x - d) 0); [|reflexivity].
  destruct (E (y * WIDTH + x)) as [-> _]; [nia|].
  destruct (E (y * WIDTH + (x - d))) as [_ ->]; [nia|]. reflexivity.
Qed.

Lemma sgm_pixel_ext (l r l' r' : image F) (row col : Z) :
  (forall i, 0 <= i < HEIGHT * WIDTH -> l i = l' i /\ r i = r' i) ->
  in_frame row col = true ->
  sgm_pixel l r row col = sgm_pixel l' r' row col.
Proof.
  intros E Hin. unfold sgm_pixel, sgm_totals.
  rewrite !(path_cells_ext (sad_cell l r) (sad_cell l' r')); try assumption;
    try reflexivity; intros y x d Hf Hd; now apply sad_cell_ext.
Qed.

End Pixel.

(** * The disparity map, as specified *)

Definition zero_state : sgm_state (F := binary32) :=
  {| cost_volume_s := zero_volume;
     path_left_to_right := zero_volume;
     path_right_to_left := zero_volume;
     path_top_to_bottom := zero_volume;
     path_bottom_to_top := zero_volume |}.

Definition ramp_state : sgm_state (F := binary32) :=
  {| cost_volume_s := ramp_volume;
     path_left_to_right := ramp_volume;
     path_right_to_left := zero_volume;
     path_top_to_bottom := ramp_volume;
     path_bottom_to_top := zero_volume |}.

Definition zero_map : dispmap := fun _ => 0.
Definition stale_map : dispmap := fun i => 99 - i.

(** A pair of images with intensities far above the grey levels: the left
    one is 4e9 everywhere, the right one is 0 but for one pixel at 3e9. *)
Definition bright_image : image binary32 := fun _ => b32_of_int 4000000000.
Definition spot_image : image binary32 :=
  fun i => if i =? 100 * WIDTH + 99 then b32_of_int 3000000000
           else S754_zero false.

(** Far above the grey levels the initial value of the running minimum
    decides: at pixel (100, 100) of the bright pair every total is 1e9 or
    more, disparity 1 has a total strictly below that of disparity 0, and
    [sgm_hls] outputs 0. *)
Lemma sgm_hls_misses_minimum_above_1e9 :
  let run := sgm_hls bright_image spot_image zero_state zero_map in
  let total := total_aggregated_cost (fst run) 100 100 in
  snd run (100 * WIDTH + 100) = 0 /\ flt (total 1) (total 0) = true.
Proof.
  cbn zeta. split.
  - rewrite sgm_hls_pixel by (unfold HEIGHT, WIDTH; lia).
    vm_compute. reflexivity.
  - unfold sgm_hls. cbn [fst].
    rewrite !sgm_volumes_totals by (reflexivity || (unfold MAX_DISP; lia)).
    vm_compute. reflexivity.
Qed.

(** X15: for every input and every arithmetic of the cells, [sgm_hls]
    outputs at each pixel the winner of the scan over [total[d]], the sum
    of the four aggregated volumes at the pixel, against a running minimum
    that starts at 1e9.  When some total is below 1e9 the output is a
    disparity whose total no total is strictly below, and every total at a
    smaller disparity (NaN apart) is strictly above it: among equal minimal
    totals the smallest index wins.  When no total is below 1e9 the output
    is 0. *)
Theorem sgm_hls_first_minimum :
  forall (F : Type) (ops : FloatOps F) (ord : FloatOrder F)
    (left_pixels right_pixels : image F) (st : sgm_state) (out : dispmap)
    (row col : Z),
    0 <= row < HEIGHT -> 0 <= col < WIDTH ->
    let run := sgm_hls left_pixels right_pixels st out in
    let total := total_aggregated_cost (fst run) row col in
    let best := snd run (row * WIDTH + col) in
    ((exists d, 0 <= d < MAX_DISP /\ flt (total d) (of_int 1000000000) = true) ->
     0 <= best < MAX_DISP /\
     (forall d, 0 <= d < MAX_DISP -> flt (total d) (total best) = false) /\
     (forall d, 0 <= d < best -> fnan (total d) = false ->
        flt (total best) (total d) = true)) /\
    ((forall d, 0 <= d < MAX_DISP -> flt (total d) (of_int 1000000000) = false) ->
     best = 0).
Proof.
  intros F ops ord l r st out row col Hr Hc run total best.
  assert (E : best = best_disparity total).
  { subst best run total. unfold sgm_hls. cbn [fst snd].
    now apply sgm_select_at. }
  rewrite E. split.
  - apply best_disparity_first_minimum.
  - apply best_disparity_default.
Qed.

Lemma sgm_hls_first_minimum_witness :
  let run := sgm_hls ramp_image step_image ramp_state stale_map in
  let total := total_aggregated_cost (fst run) 100 100 in
  let best := snd run (100 * WIDTH + 100) in
  0 <= best < MAX_DISP /\
  (forall d, 0 <= d < MAX_DISP -> flt (total d) (total best) = false) /\
  (forall d, 0 <= d < best -> fnan (total d) = false ->
     flt (total best) (total d) = true).
Proof.
  apply (sgm_hls_first_minimum binary32 binary32_ops binary32_order
           ramp_image step_image ramp_state stale_map 100 100);
    try (unfold HEIGHT, WIDTH; lia).
  exists 0. split; [unfold MAX_DISP; lia|].
  unfold sgm_hls. cbn [fst].
  rewrite sgm_volumes_totals by (reflexivity || (unfold MAX_DISP; lia)).
  vm_compute. reflexivity.
Defined.

(** C8: every cell of the disparity map - the indices
    [0 .. HEIGHT * WIDTH - 1] of the images - receives a disparity in
    [[0, MAX_DISP)], that is in [[0, 16)]; no other index is written. *)
Theorem sgm_hls_output_range :
  forall (F : Type) (ops : FloatOps F) (left_pixels right_pixels : image F)
    (st : sgm_state) (out : dispmap) (i : Z),
    let out' := snd (sgm_hls left_pixels right_pixels st out) in
    MAX_DISP = 16 /\
    (0 <= i < HEIGHT * WIDTH -> 0 <= out' i < MAX_DISP) /\
    (~ (0 <= i < HEIGHT * WIDTH) -> out' i = out i).
Proof.
  intros F ops l r st out i out'. split; [reflexivity|]. split; intros Hi.
  - assert (Hw : 0 < WIDTH) by (unfold WIDTH; lia).
    assert (Hrow : 0 <= i / WIDTH < HEIGHT).
    { split; [apply Z.div_pos; lia|apply Z.div_lt_upper_bound; lia]. }
    pose proof (Z.mod_pos_bound i WIDTH Hw) as Hcol.
    assert (E : i = i / WIDTH * WIDTH + i mod WIDTH).
    { rewrite (Z.div_mod i WIDTH) at 1 by lia. lia. }
    subst out'. rewrite E, sgm_hls_pixel by assumption.
    apply best_disparity_range.
  - now apply sgm_hls_outside.
Qed.

Lemma sgm_hls_output_range_witness :
  let out' := snd (sgm_hls ramp_image step_image ramp_state stale_map) in
  MAX_DISP = 16 /\
  (0 <= 4242 < HEIGHT * WIDTH -> 0 <= out' 4242 < MAX_DISP) /\
  (~ (0 <= 70000 < HEIGHT * WIDTH) -> out' 70000 = stale_map 70000).
Proof.
  cbn zeta. split; [reflexivity|]. split.
  - apply (sgm_hls_output_range binary32 binary32_ops ramp_image step_image
             ramp_state stale_map 4242).
  - apply (sgm_hls_output_range binary32 binary32_ops ramp_image step_image
             ramp_state stale_map 70000).
Defined.

(** The volumes a run leaves behind, inside their bounds, are a function of
    the images: each cell is written before the run reads it. *)
Lemma sgm_volumes_fresh {F : Type} `{FloatOps F} (l r l' r' : image F)
  (st st' : sgm_state) (y x d : Z) :
  (forall j, 0 <= j < HEIGHT * WIDTH -> l j = l' j /\ r j = r' j) ->
  in_frame y x = true -> 0 <= d < MAX_DISP ->
  let v := sgm_volumes l r st in
  let v' := sgm_volumes l' r' st' in
  cost_volume_s v y x d = cost_volume_s v' y x d /\
  path_left_to_right v y x d = path_left_to_right v' y x d /\
  path_right_to_left v y x d = path_right_to_left v' y x d /\
  path_top_to_bottom v y x d = path_top_to_bottom v' y x d /\
  path_bottom_to_top v y x d = path_bottom_to_top v' y x d.
Proof.
  intros E Hin Hd. cbn zeta. unfold sgm_volumes.
  cbn [cost_volume_s path_left_to_right path_right_to_left path_top_to_bottom
       path_bottom_to_top].
  rewrite !sgm_path_cells by (assumption || lia).
  rewrite !(path_cells_ext (sad_cell l r) (sad_cell l' r'))
    by (assumption || (intros; now apply sad_cell_ext)).
  pose proof Hin as Hin'. apply in_frame_spec in Hin'.
  rewrite !compute_sad_cost_at by tauto.
  rewrite (sad_cell_ext l r l' r') by assumption. tauto.
Qed.

(** C9: the disparity map is a function of the two images, read inside
    their bounds, and of nothing else: two runs on the same images give the
    same map whatever the static volumes and the output buffer held before
    each of them - in particular a second run, which starts from the
    volumes the first one left. *)
Theorem sgm_hls_deterministic :
  forall (F : Type) (ops : FloatOps F) (l r l' r' : image F)
    (st st' : sgm_state) (out out' : dispmap) (i : Z),
    (forall j, 0 <= j < HEIGHT * WIDTH -> l j = l' j /\ r j = r' j) ->
    0 <= i < HEIGHT * WIDTH ->
    snd (sgm_hls l r st out) i = snd (sgm_hls l' r' st' out') i /\
    snd (sgm_hls l r (fst (sgm_hls l r st out)) out') i
    = snd (sgm_hls l r st out) i.
Proof.
  intros F ops l r l' r' st st' out out' i E Hi.
  assert (Hw : 0 < WIDTH) by (unfold WIDTH; lia).
  assert (Hrow : 0 <= i / WIDTH < HEIGHT).
  { split; [apply Z.div_pos; lia|apply Z.div_lt_upper_bound; lia]. }
  pose proof (Z.mod_pos_bound i WIDTH Hw) as Hcol.
  assert (Ei : i = i / WIDTH * WIDTH + i mod WIDTH).
  { rewrite (Z.div_mod i WIDTH) at 1 by lia. lia. }
  rewrite Ei, !sgm_hls_pixel by assumption. split; [|reflexivity].
  apply sgm_pixel_ext; [assumption|]. now apply in_frame_spec.
Qed.

Lemma sgm_hls_deterministic_witness :
  snd (sgm_hls ramp_image step_image zero_state zero_map) 4242
  = snd (sgm_hls ramp_image step_image ramp_state stale_map) 4242 /\
  snd (sgm_hls ramp_image step_image
         (fst (sgm_hls ramp_image step_image zero_state zero_map)) stale_map) 4242
  = snd (sgm_hls ramp_image step_image zero_state zero_map) 4242.
Proof.
  apply (sgm_hls_deterministic binary32 binary32_ops ramp_image step_image
           ramp_image step_image zero_state ramp_state zero_map stale_map 4242).
  - intros j _. split; reflexivity.
  - unfold HEIGHT, WIDTH. lia.
Defined.

(** * No error path *)

(** The four cardinal unit vectors. *)
Definition cardinal (dir_y dir_x : Z) : bool :=
  ((dir_y =? 0) && ((dir_x =? 1) || (dir_x =? -1)))
  || ((dir_x =? 0) && ((dir_y =? 1) || (dir_y =? -1))).

(** C6, as stated, fails: [aggregate_path_hls] does not reject a direction
    that is not cardinal.  With the diagonal [(1, 1)] it overwrites the
    volume like with any other: the cell (1, 1, 5), 0 before the call, holds
    10 after it. *)
Lemma aggregate_path_hls_accepts_diagonal :
  cardinal 1 1 = false /\
  zero_volume 1 1 5 = b32_of_int 0 /\
  aggregate_path_hls ramp_volume zero_volume 1 1 1 1 5 = b32_of_int 10.
Proof.
  split; [reflexivity|]. split; [reflexivity|].
  rewrite (aggregate_path_cells _ _ _ _ path_fuel)
    by (reflexivity || (unfold MAX_DISP; lia) || (left; lia)
        || (vm_compute; discriminate)).
  vm_compute. reflexivity.
Qed.

(** C6 (amended): the core has no error path.  The dimensions, the number
    of disparities and the penalties are constants of the program, and
    [aggregate_path_hls] takes any direction; [sgm_hls] itself passes the
    four cardinal directions, always returns, and returns the complete map:
    every pixel holds the winner of its totals, a disparity of the range. *)
Theorem sgm_hls_total :
  forall (F : Type) (ops : FloatOps F) (left_pixels right_pixels : image F)
    (st : sgm_state) (out : dispmap),
    exists (vols : sgm_state) (out' : dispmap) (cost : volume F),
      sgm_hls left_pixels right_pixels st out = (vols, out') /\
      cost = compute_sad_cost_hls left_pixels right_pixels (cost_volume_s st) /\
      path_left_to_right vols
      = aggregate_path_hls cost (path_left_to_right st) 0 1 /\
      path_right_to_left vols
      = aggregate_path_hls cost (path_right_to_left st) 0 (-1) /\
      path_top_to_bottom vols
      = aggregate_path_hls cost (path_top_to_bottom st) 1 0 /\
      path_bottom_to_top vols
      = aggregate_path_hls cost (path_bottom_to_top st) (-1) 0 /\
      cardinal 0 1 && cardinal 0 (-1) && cardinal 1 0 && cardinal (-1) 0 = true /\
      forall row col, 0 <= row < HEIGHT -> 0 <= col < WIDTH ->
        out' (row * WIDTH + col)
        = best_disparity (total_aggregated_cost vols row col) /\
        0 <= out' (row * WIDTH + col) < MAX_DISP.
Proof.
  intros F ops l r st out.
  exists (sgm_volumes l r st), (sgm_select (sgm_volumes l r st) out),
    (compute_sad_cost_hls l r (cost_volume_s st)).
  repeat (split; [reflexivity|]).
  intros row col Hr Hc. rewrite sgm_select_at by assumption.
  split; [reflexivity|apply best_disparity_range].
Qed.

Lemma sgm_hls_total_witness :
  exists (vols : sgm_state) (out' : dispmap),
    sgm_hls ramp_image step_image ramp_state stale_map = (vols, out') /\
    out' (7 * WIDTH + 9) = best_disparity (total_aggregated_cost vols 7 9) /\
    0 <= out' (7 * WIDTH + 9) < MAX_DISP.
Proof.
  destruct (sgm_hls_total binary32 binary32_ops ramp_image step_image
              ramp_state stale_map)
    as (vols & out' & cost & E & _ & _ & _ & _ & _ & _ & Hall).
  exists vols, out'. split; [exact E|].
  apply Hall; unfold HEIGHT, WIDTH; lia.
Defined.

(** * binary32 on small integers

    An integer below 2^24 in absolute value is a binary32 number, and the
    sums and differences of such integers that stay below 2^24 are computed
    without rounding.  The proofs follow [SpecFloat]'s definitions: the
    alignment of the mantissas, the shift to the canonical exponent and
    the rounding, which finds nothing to round. *)

Lemma iter_xO_pow (m d : positive) : Zpos (Pos.iter xO m d) = Zpos m * 2 ^ Zpos d.
Proof.
  induction d as [|d IH] using Pos.peano_ind.
  - simpl. lia.
  - rewrite Pos.iter_succ, Pos2Z.inj_xO, IH, Pos2Z.inj_succ, Z.pow_succ_r by lia. lia.
Qed.

Lemma digits2_pos_bounds (p : positive) :
  2 ^ (Zpos (digits2_pos p) - 1) <= Zpos p < 2 ^ Zpos (digits2_pos p).
Proof.
  induction p as [p IH|p IH|]; cbn [digits2_pos].
  - rewrite Pos2Z.inj_succ, (Pos2Z.inj_xI p).
    replace (Z.succ (Zpos (digits2_pos p)) - 1) with (Z.succ (Zpos (digits2_pos p) - 1)) by lia.
    rewrite !Z.pow_succ_r by lia.
    revert IH. generalize (2 ^ (Zpos (digits2_pos p) - 1)), (2 ^ Zpos (digits2_pos p)).
    intros; lia.
  - rewrite Pos2Z.inj_succ, (Pos2Z.inj_xO p).
    replace (Z.succ (Zpos (digits2_pos p)) - 1) with (Z.succ (Zpos (digits2_pos p) - 1)) by lia.
    rewrite !Z.pow_succ_r by lia.
    revert IH. generalize (2 ^ (Zpos (digits2_pos p) - 1)), (2 ^ Zpos (digits2_pos p)).
    intros; lia.
  - simpl. lia.
Qed.

Lemma digits2_pos_unique (p : positive) (k : Z) :
  2 ^ (k - 1) <= Zpos p < 2 ^ k -> Zpos (digits2_pos p) = k.
Proof.
  intros Hk. pose proof (digits2_pos_bounds p) as Hd.
  assert (0 < k).
  { destruct (Z.ltb_spec 0 k); [assumption|].
    assert (2 ^ k <= 2 ^ 0) by (apply Z.pow_le_mono_r; lia). simpl in *. lia. }
  destruct (Z.lt_trichotomy (Zpos (digits2_pos p)) k) as [Hlt|[E|Hgt]]; [|assumption|].
  - assert (2 ^ Zpos (digits2_pos p) <= 2 ^ (k - 1)) by (apply Z.pow_le_mono_r; lia). lia.
  - assert (2 ^ k <= 2 ^ (Zpos (digits2_pos p) - 1)) by (apply Z.pow_le_mono_r; lia). lia.
Qed.

Lemma shr_1_even (m : Z) :
  0 <= m -> m mod 2 = 0 ->
  shr_1 (Build_shr_record m false false) = Build_shr_record (m / 2) false false.
Proof.
  intros Hm He. destruct m as [|[p|p|]|p]; cbn [shr_1 orb]; try lia.
  - reflexivity.
  - rewrite (Pos2Z.inj_xI p) in He. rewrite Z.add_comm, Z.mul_comm, Z.mod_add in He by lia. discriminate.
  - f_equal. rewrite (Pos2Z.inj_xO p), Z.mul_comm, Z.div_mul by lia. reflexivity.
  - discriminate.
Qed.

Lemma iter_shr_1_exact (p : positive) (m : Z) :
  0 <= m -> m mod 2 ^ Zpos p = 0 ->
  iter_pos shr_1 p (Build_shr_record m false false)
  = Build_shr_record (m / 2 ^ Zpos p) false false.
Proof.
  revert m. induction p as [p IH|p IH|]; intros m Hm He; cbn [iter_pos].
  - rewrite (Pos2Z.inj_xI p) in *.
    assert (E2 : 2 ^ (2 * Zpos p + 1) = 2 ^ Zpos p * 2 ^ Zpos p * 2).
    { replace (2 * Zpos p + 1) with (Zpos p + Zpos p + 1) by lia.
      rewrite !Z.pow_add_r by lia. reflexivity. }
    rewrite E2 in *.
    assert (Hp : 0 < 2 ^ Zpos p) by (apply Z.pow_pos_nonneg; lia).
    apply Z.mod_divide in He; [|lia]. destruct He as (q & ->).
    assert (Hq : 0 <= q) by nia.
    rewrite Z.div_mul by lia.
    rewrite Z.mul_assoc, shr_1_even, Z.div_mul by (try apply Z.mod_mul; lia).
    rewrite Z.mul_assoc, IH, Z.div_mul by (try apply Z.mod_mul; nia).
    rewrite IH, Z.div_mul by (try apply Z.mod_mul; nia).
    reflexivity.
  - rewrite (Pos2Z.inj_xO p) in *.
    assert (E2 : 2 ^ (2 * Zpos p) = 2 ^ Zpos p * 2 ^ Zpos p).
    { replace (2 * Zpos p) with (Zpos p + Zpos p) by lia.
      now rewrite Z.pow_add_r by lia. }
    rewrite E2 in *.
    assert (Hp : 0 < 2 ^ Zpos p) by (apply Z.pow_pos_nonneg; lia).
    apply Z.mod_divide in He; [|lia]. destruct He as (q & ->).
    assert (Hq : 0 <= q) by nia.
    rewrite Z.div_mul by lia.
    rewrite Z.mul_assoc, IH, Z.div_mul by (try apply Z.mod_mul; nia).
    rewrite IH, Z.div_mul by (try apply Z.mod_mul; nia).
    reflexivity.
  - change (2 ^ 1) with 2 in *. now apply shr_1_even.
Qed.

Lemma pow2_scale_bounds (n d j : Z) :
  0 <= j -> 1 <= d -> 2 ^ (d - 1) <= n < 2 ^ d ->
  2 ^ (d + j - 1) <= n * 2 ^ j < 2 ^ (d + j).
Proof.
  intros Hj Hd Hn.
  replace (d + j - 1) with ((d - 1) + j) by lia.
  rewrite !Z.pow_add_r by lia.
  assert (Hp : 0 < 2 ^ j) by (apply Z.pow_pos_nonneg; lia).
  revert Hn Hp. generalize (2 ^ (d - 1)), (2 ^ d), (2 ^ j). intros; nia.
Qed.

Lemma digits2_pos_scale (S n : positive) (j : Z) :
  0 <= j -> Zpos S = Zpos n * 2 ^ j ->
  Zpos (digits2_pos S) = Zpos (digits2_pos n) + j.
Proof.
  intros Hj HS. apply digits2_pos_unique. rewrite HS.
  apply pow2_scale_bounds; [assumption|lia|apply digits2_pos_bounds].
Qed.

Lemma fexp_b32 (x : Z) : fexp 24 128 x = Z.max (x - 24) (-149).
Proof. reflexivity. Qed.

Lemma binary_round_aux_canonical (s : bool) (m : positive) (e : Z) :
  Zpos (digits2_pos m) = 24 -> -149 <= e <= 104 ->
  binary_round_aux 24 128 s (Zpos m) e loc_Exact = S754_finite s m e.
Proof.
  intros Hd He. unfold binary_round_aux, shr_fexp.
  cbn [Zdigits2 shr_record_of_loc]. rewrite Hd, fexp_b32.
  replace (Z.max (24 + e - 24) (-149) - e) with 0 by lia.
  cbn [shr shr_m loc_of_shr_record round_nearest_even Zdigits2 shr_record_of_loc].
  rewrite Hd, fexp_b32.
  replace (Z.max (24 + e - 24) (-149) - e) with 0 by lia.
  cbn [shr shr_m].
  destruct (Z.leb_spec e (128 - 24)); [reflexivity|lia].
Qed.

Lemma binary_round_aux_shift (s : bool) (S m p : positive) (e : Z) :
  Zpos S = Zpos m * 2 ^ Zpos p ->
  Zpos (digits2_pos m) = 24 -> -149 <= e + Zpos p <= 104 ->
  binary_round_aux 24 128 s (Zpos S) e loc_Exact = S754_finite s m (e + Zpos p).
Proof.
  intros HS Hd He.
  assert (HdS : Zpos (digits2_pos S) = 24 + Zpos p).
  { rewrite <- Hd. apply digits2_pos_scale; [lia|assumption]. }
  unfold binary_round_aux, shr_fexp.
  cbn [Zdigits2 shr_record_of_loc]. rewrite HdS, fexp_b32.
  replace (Z.max (24 + Zpos p + e - 24) (-149) - e) with (Zpos p) by lia.
  cbn [shr]. rewrite iter_shr_1_exact, HS, Z.div_mul;
    try (rewrite ?HS; try apply Z.mod_mul;
         assert (0 < 2 ^ Zpos p) by (apply Z.pow_pos_nonneg; lia); lia).
  cbn [shr_m loc_of_shr_record round_nearest_even Zdigits2 shr_record_of_loc].
  rewrite Hd, fexp_b32.
  replace (Z.max (24 + (e + Zpos p) - 24) (-149) - (e + Zpos p)) with 0 by lia.
  cbn [shr shr_m].
  destruct (Z.leb_spec (e + Zpos p) (128 - 24)); [reflexivity|lia].
Qed.

Definition b32_mantissa (n : positive) : positive :=
  match (24 - Zpos (digits2_pos n))%Z with
  | Zpos d => Pos.iter xO n d
  | _ => n
  end.

Definition b32_pos (s : bool) (n : positive) : spec_float :=
  S754_finite s (b32_mantissa n) (Zpos (digits2_pos n) - 24).

Lemma digits2_pos_small (n : positive) :
  Zpos n < 2 ^ 24 -> 1 <= Zpos (digits2_pos n) <= 24.
Proof.
  intros Hn. pose proof (digits2_pos_bounds n) as Hb. split; [lia|].
  destruct (Z.leb_spec (Zpos (digits2_pos n)) 24); [assumption|].
  assert (2 ^ 24 <= 2 ^ (Zpos (digits2_pos n) - 1))
    by (apply Z.pow_le_mono_r; lia). lia.
Qed.

Lemma b32_mantissa_spec (n : positive) :
  Zpos n < 2 ^ 24 ->
  Zpos (b32_mantissa n) = Zpos n * 2 ^ (24 - Zpos (digits2_pos n)) /\
  Zpos (digits2_pos (b32_mantissa n)) = 24.
Proof.
  intros Hn. pose proof (digits2_pos_small n Hn) as Hd.
  assert (E : Zpos (b32_mantissa n) = Zpos n * 2 ^ (24 - Zpos (digits2_pos n))).
  { unfold b32_mantissa. destruct (24 - Zpos (digits2_pos n)) eqn:Ek; try lia.
    apply iter_xO_pow. }
  split; [exact E|].
  rewrite (digits2_pos_scale _ n (24 - Zpos (digits2_pos n))) by (lia || assumption).
  lia.
Qed.

Lemma binary_round_exact (s : bool) (S n : positive) (e : Z) :
  e <= 0 -> Zpos S = Zpos n * 2 ^ (- e) -> Zpos n < 2 ^ 24 ->
  binary_round 24 128 s S e = b32_pos s n.
Proof.
  intros He HS Hn.
  pose proof (digits2_pos_small n Hn) as Hd.
  destruct (b32_mantissa_spec n Hn) as (Em & Dm).
  pose proof (digits2_pos_bounds n) as Hb.
  set (d := Zpos (digits2_pos n)) in *.
  assert (HdS : Zpos (digits2_pos S) = d - e).
  { rewrite (digits2_pos_scale S n (- e)) by (lia || assumption). fold d. lia. }
  unfold binary_round, b32_pos. rewrite HdS, fexp_b32. fold d.
  replace (Z.max (d - e + e - 24) (-149)) with (d - 24) by lia.
  unfold shl_align. destruct (d - 24 - e) as [|p|p] eqn:Ek.
  - assert (S = b32_mantissa n) as ->.
    { apply Pos2Z.inj. rewrite HS, Em. f_equal. f_equal. lia. }
    rewrite binary_round_aux_canonical by (assumption || lia).
    f_equal. lia.
  - rewrite (binary_round_aux_shift s S (b32_mantissa n) p).
    + f_equal. lia.
    + rewrite HS, Em, <- Z.mul_assoc, <- Z.pow_add_r by lia.
      f_equal. f_equal. lia.
    + assumption.
    + lia.
  - assert (Pos.iter xO S p = b32_mantissa n) as ->.
    { apply Pos2Z.inj. rewrite iter_xO_pow, HS, Em, <- Z.mul_assoc, <- Z.pow_add_r by lia.
      f_equal. f_equal. lia. }
    apply binary_round_aux_canonical; [assumption|lia].
Qed.

Definition small (z : Z) : Prop := - 2 ^ 24 < z < 2 ^ 24.

Lemma b32_of_int_pos (n : positive) :
  Zpos n < 2 ^ 24 -> b32_of_int (Zpos n) = b32_pos false n.
Proof.
  intros Hn. unfold b32_of_int, binary_normalize.
  apply binary_round_exact; [lia| |assumption]. change (2 ^ (- 0)) with 1. lia.
Qed.

Lemma b32_of_int_neg (n : positive) :
  Zpos n < 2 ^ 24 -> b32_of_int (Zneg n) = b32_pos true n.
Proof.
  intros Hn. unfold b32_of_int, binary_normalize.
  apply binary_round_exact; [lia| |assumption]. change (2 ^ (- 0)) with 1. lia.
Qed.

Definition b32_int (z : Z) : spec_float :=
  match z with
  | Z0 => S754_zero false
  | Zpos n => b32_pos false n
  | Zneg n => b32_pos true n
  end.

Lemma b32_of_int_small (z : Z) : small z -> b32_of_int z = b32_int z.
Proof.
  unfold small. destruct z as [|n|n]; intros Hz.
  - reflexivity.
  - apply b32_of_int_pos. lia.
  - apply b32_of_int_neg. lia.
Qed.

Lemma binary_normalize_exact (z e : Z) :
  e <= 0 -> small z ->
  binary_normalize 24 128 (z * 2 ^ (- e)) e false = b32_int z.
Proof.
  unfold small. intros He Hz.
  assert (Hp : 0 < 2 ^ (- e)) by (apply Z.pow_pos_nonneg; lia).
  destruct z as [|n|n]; cbn [b32_int].
  - reflexivity.
  - destruct (Zpos n * 2 ^ (- e)) as [|S|S] eqn:ES; try lia.
    cbn [binary_normalize]. apply binary_round_exact; lia.
  - destruct (Zneg n * 2 ^ (- e)) as [|S|S] eqn:ES; try lia.
    cbn [binary_normalize]. apply binary_round_exact; lia.
Qed.

Lemma shl_align_value (m : positive) (e e' : Z) :
  e' <= e -> Zpos (fst (shl_align m e e')) = Zpos m * 2 ^ (e - e').
Proof.
  intros He. unfold shl_align. destruct (e' - e) as [|p|p] eqn:Ed; cbn [fst]; try lia.
  - replace (e - e') with 0 by lia. rewrite Z.pow_0_r. lia.
  - rewrite iter_xO_pow. f_equal. f_equal. lia.
Qed.

(** The signed integer a finite float of the form [b32_pos] stands for,
    scaled to the exponent [ez]. *)
Lemma b32_pos_aligned (s : bool) (n : positive) (ez : Z) :
  Zpos n < 2 ^ 24 -> ez <= Zpos (digits2_pos n) - 24 ->
  cond_Zopp s (Zpos (fst (shl_align (b32_mantissa n)
                             (Zpos (digits2_pos n) - 24) ez)))
  = cond_Zopp s (Zpos n) * 2 ^ (- ez).
Proof.
  intros Hn He. destruct (b32_mantissa_spec n Hn) as (Em & _).
  pose proof (digits2_pos_small n Hn) as Hd.
  assert (E : Zpos (fst (shl_align (b32_mantissa n) (Zpos (digits2_pos n) - 24) ez))
              = Zpos n * 2 ^ (- ez)).
  { rewrite shl_align_value, Em, <- Z.mul_assoc, <- Z.pow_add_r by lia.
    f_equal. f_equal. lia. }
  rewrite E. destruct s; cbn [cond_Zopp]; lia.
Qed.

Definition int_of_sign (s : bool) (n : positive) : Z := cond_Zopp s (Zpos n).

Lemma b32_int_sign (s : bool) (n : positive) :
  b32_int (int_of_sign s n) = b32_pos s n.
Proof. destruct s; reflexivity. Qed.

Lemma SFadd_b32_pos (sa sb : bool) (na nb : positive) :
  Zpos na < 2 ^ 24 -> Zpos nb < 2 ^ 24 ->
  small (int_of_sign sa na + int_of_sign sb nb) ->
  SFadd 24 128 (b32_pos sa na) (b32_pos sb nb)
  = b32_int (int_of_sign sa na + int_of_sign sb nb).
Proof.
  intros Ha Hb Hs. unfold b32_pos. cbn [SFadd].
  pose proof (digits2_pos_small na Ha). pose proof (digits2_pos_small nb Hb).
  rewrite !b32_pos_aligned by (assumption || lia).
  rewrite <- Z.mul_add_distr_r.
  apply binary_normalize_exact; [lia|assumption].
Qed.

Lemma SFsub_b32_pos (sa sb : bool) (na nb : positive) :
  Zpos na < 2 ^ 24 -> Zpos nb < 2 ^ 24 ->
  small (int_of_sign sa na - int_of_sign sb nb) ->
  SFsub 24 128 (b32_pos sa na) (b32_pos sb nb)
  = b32_int (int_of_sign sa na - int_of_sign sb nb).
Proof.
  intros Ha Hb Hs. unfold b32_pos. cbn [SFsub].
  pose proof (digits2_pos_small na Ha). pose proof (digits2_pos_small nb Hb).
  rewrite !b32_pos_aligned by (assumption || lia).
  rewrite <- Z.mul_sub_distr_r.
  apply binary_normalize_exact; [lia|assumption].
Qed.

Lemma b32_int_cases (z : Z) :
  z = 0 \/ exists s n, z = int_of_sign s n.
Proof.
  destruct z as [|n|n]; [now left|right; exists false, n|right; exists true, n];
    reflexivity.
Qed.

Lemma small_sign (s : bool) (n : positive) :
  small (int_of_sign s n) -> Zpos n < 2 ^ 24.
Proof. unfold small, int_of_sign. destruct s; cbn [cond_Zopp]; lia. Qed.

Lemma SFadd_b32_int (a b : Z) :
  small a -> small b -> small (a + b) ->
  SFadd 24 128 (b32_int a) (b32_int b) = b32_int (a + b).
Proof.
  intros Ha Hb Hs.
  destruct (b32_int_cases a) as [->|(sa & na & ->)],
    (b32_int_cases b) as [->|(sb & nb & ->)].
  - reflexivity.
  - rewrite Z.add_0_l, b32_int_sign. reflexivity.
  - rewrite Z.add_0_r, b32_int_sign. reflexivity.
  - rewrite !b32_int_sign. apply SFadd_b32_pos; try assumption;
      eapply small_sign; eassumption.
Qed.

Lemma SFsub_b32_int (a b : Z) :
  small a -> small b -> small (a - b) ->
  SFsub 24 128 (b32_int a) (b32_int b) = b32_int (a - b).
Proof.
  intros Ha Hb Hs.
  destruct (b32_int_cases a) as [->|(sa & na & ->)],
    (b32_int_cases b) as [->|(sb & nb & ->)].
  - reflexivity.
  - rewrite Z.sub_0_l, b32_int_sign. destruct sb; reflexivity.
  - rewrite Z.sub_0_r, b32_int_sign. reflexivity.
  - rewrite !b32_int_sign. apply SFsub_b32_pos; try assumption;
      eapply small_sign; eassumption.
Qed.

Lemma SFabs_b32_int (a : Z) : SFabs (b32_int a) = b32_int (Z.abs a).
Proof. destruct a; reflexivity. Qed.

Lemma SFltb_b32_int (a b : Z) :
  0 <= a < 2 ^ 24 -> 0 <= b < 2 ^ 24 ->
  SFltb (b32_int a) (b32_int b) = (a <? b).
Proof.
  intros Ha Hb. destruct a as [|na|na], b as [|nb|nb]; try lia; try reflexivity.
  unfold SFltb, b32_int, b32_pos. cbn [SFcompare].
  destruct (b32_mantissa_spec na) as (Ea & _); [lia|].
  destruct (b32_mantissa_spec nb) as (Eb & _); [lia|].
  pose proof (digits2_pos_bounds na) as Ba.
  pose proof (digits2_pos_bounds nb) as Bb.
  pose proof (digits2_pos_small na ltac:(lia)) as Sa.
  pose proof (digits2_pos_small nb ltac:(lia)) as Sb.
  set (da := Zpos (digits2_pos na)) in *. set (db := Zpos (digits2_pos nb)) in *.
  destruct (Z.compare_spec (da - 24) (db - 24)) as [E|Hlt|Hgt].
  - change (Pos.compare_cont Eq (b32_mantissa na) (b32_mantissa nb))
      with (Pos.compare (b32_mantissa na) (b32_mantissa nb)).
    rewrite Pos2Z.inj_compare, Ea, Eb.
    replace db with da by lia.
    assert (Hp : 0 < 2 ^ (24 - da)) by (apply Z.pow_pos_nonneg; lia).
    revert Hp. generalize (2 ^ (24 - da)). intros P Hp.
    destruct (Z.compare_spec (Zpos na * P) (Zpos nb * P)); symmetry;
      [apply Z.ltb_ge; nia|apply Z.ltb_lt; nia|apply Z.ltb_ge; nia].
  - assert (2 ^ da <= 2 ^ (db - 1)) by (apply Z.pow_le_mono_r; lia).
    symmetry. apply Z.ltb_lt. lia.
  - assert (2 ^ db <= 2 ^ (da - 1)) by (apply Z.pow_le_mono_r; lia).
    symmetry. apply Z.ltb_ge. lia.
Qed.

Lemma SFltb_b32_int_1e9 (a : Z) :
  0 <= a < 2 ^ 24 -> SFltb (b32_int a) (b32_of_int 1000000000) = true.
Proof.
  intros Ha. destruct a as [|na|na]; try lia; [reflexivity|].
  change (b32_of_int 1000000000) with (S754_finite false 15625000 6).
  unfold SFltb, b32_int, b32_pos. cbn [SFcompare].
  pose proof (digits2_pos_small na ltac:(lia)) as Hd.
  destruct (Z.compare_spec (Zpos (digits2_pos na) - 24) 6); [lia|reflexivity|lia].
Qed.

(** * Arithmetic that is exact on small integers

    The laws of [IntegerExact] say that on the integers of [[0, 2^24)] the
    operations of the cells agree with those on [Z].  They hold for [Z]
    itself, and for binary32 by the lemmas above. *)

Class IntegerExact (F : Type) {ops : FloatOps F} : Type := {
  exact_add : forall a b, 0 <= a -> 0 <= b -> a + b < 2 ^ 24 ->
    fadd (of_int a) (of_int b) = of_int (a + b);
  exact_sub : forall a b, 0 <= b <= a -> a < 2 ^ 24 ->
    fsub (of_int a) (of_int b) = of_int (a - b);
  exact_abs_sub : forall a b, 0 <= a < 2 ^ 24 -> 0 <= b < 2 ^ 24 ->
    fabs (fsub (of_int a) (of_int b)) = of_int (Z.abs (a - b));
  exact_lt : forall a b, 0 <= a < 2 ^ 24 ->
    0 <= b < 2 ^ 24 \/ b = 1000000000 ->
    flt (of_int a) (of_int b) = (a <? b)
}.

#[export] Program Instance Z_exact : IntegerExact Z.

#[export] Program Instance binary32_exact : IntegerExact binary32.
Next Obligation.
  cbn [fadd of_int binary32_ops].
  rewrite !b32_of_int_small by (unfold small; lia).
  apply SFadd_b32_int; unfold small; lia.
Qed.
Next Obligation.
  cbn [fsub of_int binary32_ops].
  rewrite !b32_of_int_small by (unfold small; lia).
  apply SFsub_b32_int; unfold small; lia.
Qed.
Next Obligation.
  cbn [fabs fsub of_int binary32_ops].
  rewrite !b32_of_int_small by (unfold small; lia).
  rewrite SFsub_b32_int, SFabs_b32_int by (unfold small; lia). reflexivity.
Qed.
Next Obligation.
  cbn [flt of_int binary32_ops].
  match goal with H : _ \/ _ |- _ => destruct H as [Hb| ->] end.
  - rewrite !b32_of_int_small by (unfold small; lia).
    apply SFltb_b32_int; lia.
  - rewrite (b32_of_int_small a) by (unfold small; lia).
    rewrite SFltb_b32_int_1e9 by lia. symmetry. apply Z.ltb_lt. lia.
Qed.

(** * Aggregation of integer costs *)

(** Induction along the path of a pixel, from the border of the frame. *)
Lemma path_induction (dir_y dir_x : Z) (P : Z -> Z -> Prop) :
  dir_y <> 0 \/ dir_x <> 0 ->
  (forall y x, in_frame y x = true ->
     (in_frame (y - dir_y) (x - dir_x) = true -> P (y - dir_y) (x - dir_x)) ->
     P y x) ->
  forall y x, in_frame y x = true -> P y x.
Proof.
  intros Hdir Hstep.
  assert (L : forall n y x, in_frame y x = true ->
                path_length dir_y dir_x y x < Z.of_nat n -> P y x).
  { induction n as [|n IH]; intros y x Hin Hlen.
    - destruct (in_frame (y - dir_y) (x - dir_x)) eqn:Hpred.
      + pose proof (path_length_pred dir_y dir_x y x Hdir Hin Hpred). lia.
      + apply Hstep; [assumption|]. rewrite Hpred. discriminate.
    - apply Hstep; [assumption|]. intros Hpred. apply IH; [assumption|].
      pose proof (path_length_pred dir_y dir_x y x Hdir Hin Hpred). lia. }
  intros y x Hin.
  apply (L (Datatypes.S (Z.to_nat (path_length dir_y dir_x y x)))); [assumption|].
  lia.
Qed.

Lemma pick_min (a m : Z) : (if a <? m then a else m) = Z.min a m.
Proof. destruct (Z.ltb_spec a m); lia. Qed.

(** The minimum over the disparities, on [Z]. *)
Lemma min_prev_aggregated_Z (pz : Z -> Z) :
  let m := min_prev_aggregated pz in
  (exists j, 0 <= j < MAX_DISP /\ m = pz j) /\
  (forall i, 0 <= i < MAX_DISP -> m <= pz i).
Proof.
  destruct (min_prev_aggregated_is_minimum pz) as (Hin & Hle). cbn zeta. split.
  - apply in_map_iff in Hin. destruct Hin as (j & E & Hj).
    exists j. split; [now apply disps_In|now symmetry].
  - intros i Hi. specialize (Hle (pz i)). cbn [flt Z_ops] in Hle.
    apply Z.ltb_ge. apply Hle. apply in_map. now apply disps_In.
Qed.

(** The transition on [Z]: the running minimum is [Z.min]. *)
Lemma path_cell_Z (c : Z) (pz : Z -> Z) (m d : Z) :
  path_cell c pz m d
  = c + (Z.min (m + P2_PENALTY)
           (Z.min (if d <? MAX_DISP - 1 then pz (d + 1) + P1_PENALTY else 2000)
              (Z.min (if d >? 0 then pz (d - 1) + P1_PENALTY else 2000) (pz d)))
         - m).
Proof.
  unfold path_cell. cbn [fadd fsub flt of_int Z_ops]. now rewrite !pick_min.
Qed.

Lemma path_cell_Z_bounds (c : Z) (pz : Z -> Z) (m d : Z) :
  0 <= d < MAX_DISP -> m <= 2000 ->
  (forall i, 0 <= i < MAX_DISP -> m <= pz i) ->
  c <= path_cell c pz m d <= c + P2_PENALTY.
Proof.
  intros Hd Hm Hle. rewrite path_cell_Z.
  pose proof (Hle d Hd) as H0. unfold P1_PENALTY, P2_PENALTY, MAX_DISP in *.
  destruct (Z.ltb_spec d (16 - 1)) as [Hu|Hu], (Z.gtb_spec d 0) as [Hl|Hl];
    try pose proof (Hle (d + 1) ltac:(lia)); try pose proof (Hle (d - 1) ltac:(lia));
    lia.
Qed.

Section Exact.

Context {F : Type} `{IntegerExact F}.

Lemma pick_exact (a m : Z) :
  0 <= a < 2 ^ 24 -> 0 <= m < 2 ^ 24 \/ m = 1000000000 ->
  (if flt (of_int a) (of_int m) then of_int a else of_int m)
  = of_int (if a <? m then a else m).
Proof. intros Ha Hm. rewrite exact_lt by assumption. now destruct (a <? m). Qed.

Lemma running_min_exact (prev : Z -> F) (pz : Z -> Z) (l : list Z) (mz : Z) :
  (forall i, In i l -> prev i = of_int (pz i) /\ 0 <= pz i < 2 ^ 24) ->
  0 <= mz < 2 ^ 24 ->
  running_min prev l (of_int mz) = of_int (running_min pz l mz).
Proof.
  unfold running_min. revert mz. induction l as [|i l IH]; intros mz Hl Hm.
  - reflexivity.
  - rewrite !foldi_cons. destruct (Hl i (or_introl eq_refl)) as (-> & Hi).
    rewrite pick_exact by (try left; lia). cbn [flt Z_ops].
    apply IH; [intros j Hj; apply Hl; now right|].
    destruct (pz i <? mz); lia.
Qed.

Lemma min_prev_aggregated_exact (prev : Z -> F) (pz : Z -> Z) :
  (forall i, 0 <= i < MAX_DISP -> prev i = of_int (pz i) /\ 0 <= pz i < 2 ^ 24) ->
  min_prev_aggregated prev = of_int (min_prev_aggregated pz).
Proof.
  intros Hp. unfold min_prev_aggregated. rewrite !for_up_steps.
  destruct (Hp 0) as (-> & H0); [unfold MAX_DISP; lia|].
  apply (running_min_exact prev pz); [|assumption].
  intros i Hi. apply Hp. apply steps_In in Hi.
  destruct Hi as (k & Hk & ->). unfold MAX_DISP in *. lia.
Qed.

Lemma path_cell_exact (c : Z) (prev : Z -> F) (pz : Z -> Z) (m d : Z) :
  0 <= d < MAX_DISP -> 0 <= c <= 2000 -> 0 <= m ->
  (forall i, 0 <= i < MAX_DISP ->
     prev i = of_int (pz i) /\ m <= pz i <= 2000) ->
  path_cell (of_int c) prev (of_int m) d = of_int (path_cell c pz m d).
Proof.
  intros Hd Hc Hm Hp. rewrite path_cell_Z. unfold path_cell.
  destruct (Hp d Hd) as (-> & Hpd).
  assert (Hm2 : m <= 2000) by lia.
  assert (Edown : (if d >? 0 then fadd (prev (d - 1)) (of_int P1_PENALTY)
                   else of_int 2000)
                  = of_int (if d >? 0 then pz (d - 1) + P1_PENALTY else 2000)).
  { destruct (Z.gtb_spec d 0); [|reflexivity].
    destruct (Hp (d - 1)) as (-> & Hb); [lia|].
    apply exact_add; unfold P1_PENALTY; lia. }
  assert (Eup : (if d <? MAX_DISP - 1 then fadd (prev (d + 1)) (of_int P1_PENALTY)
                 else of_int 2000)
                = of_int (if d <? MAX_DISP - 1 then pz (d + 1) + P1_PENALTY
                          else 2000)).
  { destruct (Z.ltb_spec d (MAX_DISP - 1)); [|reflexivity].
    destruct (Hp (d + 1)) as (-> & Hb); [lia|].
    apply exact_add; unfold P1_PENALTY; lia. }
  assert (Bdown : m <= (if d >? 0 then pz (d - 1) + P1_PENALTY else 2000) <= 2008).
  { destruct (Z.gtb_spec d 0); [|lia].
    destruct (Hp (d - 1)) as (_ & Hb); [lia|]. unfold P1_PENALTY. lia. }
  assert (Bup : m <= (if d <? MAX_DISP - 1 then pz (d + 1) + P1_PENALTY else 2000)
                <= 2008).
  { destruct (Z.ltb_spec d (MAX_DISP - 1)); [|lia].
    destruct (Hp (d + 1)) as (_ & Hb); [lia|]. unfold P1_PENALTY. lia. }
  rewrite Edown, Eup. clear Edown Eup.
  set (down := if d >? 0 then pz (d - 1) + P1_PENALTY else 2000) in *.
  set (up := if d <? MAX_DISP - 1 then pz (d + 1) + P1_PENALTY else 2000) in *.
  rewrite (exact_add m P2_PENALTY) by (unfold P2_PENALTY; lia).
  rewrite (pick_exact down) by (try left; lia). rewrite pick_min.
  rewrite (pick_exact up) by (try left; lia). rewrite pick_min.
  rewrite (pick_exact (m + P2_PENALTY)) by (unfold P2_PENALTY; try left; lia).
  rewrite pick_min.
  rewrite exact_sub by (unfold P2_PENALTY; lia).
  apply exact_add; unfold P2_PENALTY; lia.
Qed.

End Exact.

(** A cost volume whose cells, inside the frame, are the integers [cz],
    between 0 and [2000 - P2]. *)
Definition integer_costs {F : Type} `{FloatOps F} (cost : volume F)
  (cz : volume Z) : Prop :=
  forall y x d, in_frame y x = true -> 0 <= d < MAX_DISP ->
    cost y x d = of_int (cz y x d) /\ 0 <= cz y x d <= 2000 - P2_PENALTY.

Section ExactAggregation.

Context {F : Type} `{IntegerExact F}.
Variables (cost stale : volume F) (cz stale_z : volume Z).
Variables dir_y dir_x : Z.
Hypothesis direction : dir_y <> 0 \/ dir_x <> 0.
Hypothesis costs : integer_costs cost cz.

(** The aggregation of integer costs is exact, and each aggregated cost
    lies between the raw cost and the raw cost plus P2. *)
Lemma aggregate_path_exact (y x : Z) :
  in_frame y x = true ->
  forall d, 0 <= d < MAX_DISP ->
    aggregate_path_hls cost stale dir_y dir_x y x d
    = of_int (aggregate_path_hls cz stale_z dir_y dir_x y x d) /\
    cz y x d <= aggregate_path_hls cz stale_z dir_y dir_x y x d
             <= cz y x d + P2_PENALTY.
Proof.
  revert y x.
  apply (path_induction dir_y dir_x
    (fun y x => forall d, 0 <= d < MAX_DISP ->
       aggregate_path_hls cost stale dir_y dir_x y x d
       = of_int (aggregate_path_hls cz stale_z dir_y dir_x y x d) /\
       cz y x d <= aggregate_path_hls cz stale_z dir_y dir_x y x d
                <= cz y x d + P2_PENALTY) direction).
  intros y x Hin IH d Hd.
  pose proof Hin as Hin'. apply in_frame_spec in Hin'.
  destruct (costs y x d Hin Hd) as (Ec & Hc).
  rewrite !aggregate_path_at by tauto. unfold path_step.
  destruct (in_frame (y - dir_y) (x - dir_x)) eqn:Hpred.
  - specialize (IH eq_refl).
    set (prev := aggregate_path_hls cost stale dir_y dir_x (y - dir_y) (x - dir_x)) in *.
    set (pz := aggregate_path_hls cz stale_z dir_y dir_x (y - dir_y) (x - dir_x)) in *.
    assert (Hp : forall i, 0 <= i < MAX_DISP ->
                   prev i = of_int (pz i) /\ 0 <= pz i <= 2000).
    { intros i Hi. destruct (IH i Hi) as (E & Hb).
      destruct (costs (y - dir_y) (x - dir_x) i Hpred Hi) as (_ & Hcp).
      split; [exact E|lia]. }
    destruct (min_prev_aggregated_Z pz) as ((j & Hj & Em) & Hle). cbn zeta in *.
    rewrite (min_prev_aggregated_exact prev pz)
      by (intros i Hi; destruct (Hp i Hi); split; [assumption|lia]).
    set (m := min_prev_aggregated pz) in *.
    assert (Hm : 0 <= m <= 2000) by (destruct (Hp j Hj); lia).
    split.
    + rewrite Ec. apply path_cell_exact; try assumption; try lia.
      * unfold P2_PENALTY in Hc. lia.
      * intros i Hi. destruct (Hp i Hi). split; [assumption|].
        pose proof (Hle i Hi). lia.
    + apply path_cell_Z_bounds; [assumption|lia|assumption].
  - split; [assumption|unfold P2_PENALTY; lia].
Qed.

End ExactAggregation.

(** ** The bounds of the aggregated costs *)

(** All cells at 5000, above the constant 2000 that stands for an
    unreachable disparity. *)
Definition high_volume : volume binary32 := fun _ _ _ => b32_of_int 5000.

(** Cells that are not integers: 1024 - 2^-14 at most disparities of the
    pixel (0, 0). *)
Definition fraction_volume : volume binary32 :=
  fun y x d =>
    if (y =? 0) && (x =? 0)
    then if d <? 3 then b32_of_int 1800 else S754_finite false 16777215 (-14)
    else S754_zero false.

(** C7, as stated, fails on both sides.  Below: with all raw costs at 5000
    the candidate 2000 of disparity 0 wins, and the aggregated cost at
    (0, 1, 0), left to right, is 2000 < 5000.  Above: with the raw costs of
    [fraction_volume] the sum [minPrev + P2] is rounded up, and the
    aggregated cost at (0, 1, 0) is 128 + 2^-14 > 0 + P2. *)
Lemma aggregate_path_hls_leaves_bounds :
  (forall y x d, flt (high_volume y x d) (of_int 0) = false) /\
  flt (aggregate_path_hls high_volume zero_volume 0 1 0 1 0)
      (high_volume 0 1 0) = true /\
  (forall y x d, flt (fraction_volume y x d) (of_int 0) = false) /\
  flt (fadd (fraction_volume 0 1 0) (of_int P2_PENALTY))
      (aggregate_path_hls fraction_volume zero_volume 0 1 0 1 0) = true.
Proof.
  assert (Fuel : forall cost,
    aggregate_path_hls cost zero_volume 0 1 0 1 0
    = cell_of (path_cells cost 0 1 path_fuel 0 1) 0).
  { intros cost. apply aggregate_path_cells;
      [right; lia|reflexivity|vm_compute; discriminate|unfold MAX_DISP; lia]. }
  split; [intros; reflexivity|]. split; [rewrite Fuel; vm_compute; reflexivity|].
  split; [|rewrite Fuel; vm_compute; reflexivity].
  intros y x d. unfold fraction_volume.
  destruct ((y =? 0) && (x =? 0)); [destruct (d <? 3)|]; reflexivity.
Qed.

(** C7 (amended): when the raw costs are integers between 0 and
    [2000 - P2] = 1872 - those of a pair of grey-level images are - every
    aggregated cost, in every direction other than (0, 0), is an integer
    [a] with [cost <= a <= cost + P2]: it is finite, not below the raw cost
    and not above the raw cost plus P2. *)
Theorem aggregate_path_hls_bounds :
  forall (F : Type) (ops : FloatOps F) (exact : IntegerExact F)
    (cost stale : volume F) (cz : volume Z) (dy dx row col d : Z),
    dy <> 0 \/ dx <> 0 ->
    integer_costs cost cz ->
    0 <= row < HEIGHT -> 0 <= col < WIDTH -> 0 <= d < MAX_DISP ->
    let aggregated := aggregate_path_hls cost stale dy dx row col d in
    exists a : Z,
      aggregated = of_int a /\
      0 <= cz row col d <= a /\ a <= cz row col d + P2_PENALTY /\
      flt aggregated (cost row col d) = false /\
      flt (fadd (cost row col d) (of_int P2_PENALTY)) aggregated = false.
Proof.
  intros F ops exact cost stale cz dy dx row col d Hdir Hcosts Hr Hc Hd.
  assert (Hin : in_frame row col = true) by now apply in_frame_spec.
  destruct (aggregate_path_exact cost stale cz (fun _ _ _ => 0) dy dx Hdir Hcosts
              row col Hin d Hd) as (E & Hb).
  destruct (Hcosts row col d Hin Hd) as (Ec & Hcz).
  cbn zeta. exists (aggregate_path_hls cz (fun _ _ _ => 0) dy dx row col d).
  unfold P2_PENALTY in *.
  split; [exact E|]. split; [lia|]. split; [lia|].
  rewrite E, Ec. split.
  - rewrite exact_lt by (try left; lia). apply Z.ltb_ge. lia.
  - rewrite exact_add, exact_lt by (try left; lia). apply Z.ltb_ge. lia.
Qed.

Definition ramp_costs : volume Z := fun y x d => (y + 3 * x + 5 * d) mod 11.

Lemma ramp_volume_integer_costs : integer_costs ramp_volume ramp_costs.
Proof.
  intros y x d _ _. split; [reflexivity|].
  unfold ramp_costs, P2_PENALTY.
  pose proof (Z.mod_pos_bound (y + 3 * x + 5 * d) 11 ltac:(lia)). lia.
Qed.

Lemma aggregate_path_hls_bounds_witness :
  let aggregated := aggregate_path_hls ramp_volume zero_volume 1 0 17 23 4 in
  exists a : Z,
    aggregated = of_int a /\
    0 <= ramp_costs 17 23 4 <= a /\ a <= ramp_costs 17 23 4 + P2_PENALTY /\
    flt aggregated (ramp_volume 17 23 4) = false /\
    flt (fadd (ramp_volume 17 23 4) (of_int P2_PENALTY)) aggregated = false.
Proof.
  apply (aggregate_path_hls_bounds binary32 binary32_ops binary32_exact
           ramp_volume zero_volume ramp_costs 1 0 17 23 4);
    try (unfold HEIGHT, WIDTH, MAX_DISP; lia).
  apply ramp_volume_integer_costs.
Defined.

(** * Grey-level images *)

(** The image [img] holds the grey levels [z], integers of [[0, 255]]. *)
Definition grey_levels {F : Type} `{FloatOps F} (img : image F) (z : Z -> Z)
  : Prop :=
  forall i, 0 <= i < HEIGHT * WIDTH -> 0 <= z i <= 255 /\ img i = of_int (z i).

Lemma sad_cell_Z (zl zr : Z -> Z) (y x d : Z) :
  sad_cell zl zr y x d
  = if x - d >=? 0 then Z.abs (zl (y * WIDTH + x) - zr (y * WIDTH + (x - d)))
    else 1000.
Proof. reflexivity. Qed.

Section ExactRun.

Context {F : Type} `{IntegerExact F}.
Variables (left_pixels right_pixels : image F) (zl zr : Z -> Z).
Hypothesis left_grey : grey_levels left_pixels zl.
Hypothesis right_grey : grey_levels right_pixels zr.

Lemma sad_cell_exact (y x d : Z) :
  in_frame y x = true -> 0 <= d < MAX_DISP ->
  sad_cell left_pixels right_pixels y x d = of_int (sad_cell zl zr y x d) /\
  (x < d -> sad_cell zl zr y x d = 1000) /\
  (d <= x -> 0 <= sad_cell zl zr y x d <= 255).
Proof.
  intros Hin Hd. apply in_frame_spec in Hin. rewrite sad_cell_Z.
  unfold sad_cell. destruct (Z.geb_spec (x - d) 0) as [Hge|Hlt].
  - destruct (left_grey (y * WIDTH + x)) as (Hl & ->); [nia|].
    destruct (right_grey (y * WIDTH + (x - d))) as (Hr & ->); [nia|].
    rewrite exact_abs_sub by lia. split; [reflexivity|]. split; lia.
  - split; [reflexivity|]. split; lia.
Qed.

Lemma sad_integer_costs (stale : volume F) :
  integer_costs (compute_sad_cost_hls left_pixels right_pixels stale)
    (sad_cell zl zr).
Proof.
  intros y x d Hin Hd. pose proof Hin as Hin'. apply in_frame_spec in Hin'.
  rewrite compute_sad_cost_at by tauto.
  destruct (sad_cell_exact y x d Hin Hd) as (E & Hhigh & Hlow).
  split; [exact E|]. unfold P2_PENALTY.
  destruct (Z.lt_ge_cases x d); [rewrite Hhigh by assumption|]; lia.
Qed.

(** The aggregated costs of the pixel, on [Z], and their sum. *)
Definition path_z (dir_y dir_x row col d : Z) : Z :=
  aggregate_path_hls (sad_cell zl zr) (fun _ _ _ => 0) dir_y dir_x row col d.

Definition total_z (row col d : Z) : Z :=
  path_z 0 1 row col d + path_z 0 (-1) row col d + path_z 1 0 row col d
  + path_z (-1) 0 row col d.

Lemma sgm_path_exact (st_cost stale : volume F) (dir_y dir_x row col d : Z) :
  dir_y <> 0 \/ dir_x <> 0 ->
  in_frame row col = true -> 0 <= d < MAX_DISP ->
  aggregate_path_hls (compute_sad_cost_hls left_pixels right_pixels st_cost)
    stale dir_y dir_x row col d
  = of_int (path_z dir_y dir_x row col d) /\
  sad_cell zl zr row col d <= path_z dir_y dir_x row col d
    <= sad_cell zl zr row col d + P2_PENALTY.
Proof.
  intros Hdir Hin Hd.
  exact (aggregate_path_exact _ stale (sad_cell zl zr) (fun _ _ _ => 0)
           dir_y dir_x Hdir (sad_integer_costs st_cost) row col Hin d Hd).
Qed.

Lemma sgm_totals_exact (st : sgm_state) (row col d : Z) :
  in_frame row col = true -> 0 <= d < MAX_DISP ->
  total_aggregated_cost (sgm_volumes left_pixels right_pixels st) row col d
  = of_int (total_z row col d) /\
  4 * sad_cell zl zr row col d <= total_z row col d
    <= 4 * (sad_cell zl zr row col d + P2_PENALTY).
Proof.
  intros Hin Hd. unfold total_aggregated_cost, sgm_volumes, total_z.
  cbn [path_left_to_right path_right_to_left path_top_to_bottom
       path_bottom_to_top].
  destruct (sgm_path_exact (cost_volume_s st) (path_left_to_right st) 0 1
              row col d) as (-> & B1); [lia|assumption|assumption|].
  destruct (sgm_path_exact (cost_volume_s st) (path_right_to_left st) 0 (-1)
              row col d) as (-> & B2); [lia|assumption|assumption|].
  destruct (sgm_path_exact (cost_volume_s st) (path_top_to_bottom st) 1 0
              row col d) as (-> & B3); [lia|assumption|assumption|].
  destruct (sgm_path_exact (cost_volume_s st) (path_bottom_to_top st) (-1) 0
              row col d) as (-> & B4); [lia|assumption|assumption|].
  destruct (sad_cell_exact row col d Hin Hd) as (_ & Hhigh & Hlow).
  unfold P2_PENALTY in *.
  assert (0 <= sad_cell zl zr row col d <= 1000)
    by (destruct (Z.lt_ge_cases col d); [rewrite Hhigh by assumption|]; lia).
  rewrite !exact_add by lia. split; [reflexivity|lia].
Qed.

End ExactRun.

(** The winner of integer totals is the winner on [Z]. *)
Lemma wta_from_exact {F : Type} `{IntegerExact F} (total : Z -> F)
  (tz : Z -> Z) (l : list Z) (mz b : Z) :
  (forall d, In d l -> total d = of_int (tz d) /\ 0 <= tz d < 2 ^ 24) ->
  0 <= mz < 2 ^ 24 \/ mz = 1000000000 ->
  snd (wta_from total l (of_int mz, b)) = snd (wta_from tz l (mz, b)).
Proof.
  unfold wta_from. revert mz b. induction l as [|d l IH]; intros mz b Hl Hm.
  - reflexivity.
  - rewrite !foldi_cons. cbn [fst]. destruct (Hl d (or_introl eq_refl)) as (-> & Hd).
    rewrite exact_lt by assumption. cbn [flt Z_ops].
    destruct (tz d <? mz).
    + apply IH; [intros j Hj; apply Hl; now right|now left].
    + apply IH; [intros j Hj; apply Hl; now right|assumption].
Qed.

Lemma best_disparity_exact {F : Type} `{IntegerExact F} (total : Z -> F)
  (tz : Z -> Z) :
  (forall d, 0 <= d < MAX_DISP -> total d = of_int (tz d) /\ 0 <= tz d < 2 ^ 24) ->
  best_disparity total = best_disparity tz.
Proof.
  intros Ht. unfold best_disparity. rewrite !wta_scan_from.
  apply wta_from_exact; [|now right].
  intros d Hd. apply Ht. now apply disps_In.
Qed.

(** The winner on [Z]: a first minimum, below 1e9. *)
Lemma best_disparity_Z (tz : Z -> Z) :
  (forall d, 0 <= d < MAX_DISP -> tz d < 1000000000) ->
  let best := best_disparity tz in
  0 <= best < MAX_DISP /\
  (forall d, 0 <= d < MAX_DISP -> tz best <= tz d) /\
  (forall d, 0 <= d < best -> tz best < tz d).
Proof.
  intros Hlt.
  destruct (best_disparity_first_minimum tz) as (Hr & Hmin & Hfirst).
  { exists 0. split; [unfold MAX_DISP; lia|].
    apply Z.ltb_lt, Hlt. unfold MAX_DISP. lia. }
  cbn zeta. split; [exact Hr|]. split.
  - intros d Hd. apply Z.ltb_ge. now apply (Hmin d).
  - intros d Hd. apply Z.ltb_lt. now apply (Hfirst d).
Qed.

(** * Grey-level images: the selected disparity *)

(** For a pair of images of grey levels the totals of a pixel are integers:
    those of the disparities [d > col] are at least 4000, that of disparity
    0 is at most [4 * (255 + P2)] < 4000, and the selected disparity does
    not exceed [col].  No operation rounds. *)
Lemma grey_levels_selection :
  forall (F : Type) (ops : FloatOps F) (exact : IntegerExact F)
    (left_pixels right_pixels : image F) (zl zr : Z -> Z) (st : sgm_state)
    (out : dispmap) (row col : Z),
    grey_levels left_pixels zl -> grey_levels right_pixels zr ->
    0 <= row < HEIGHT -> 0 <= col < WIDTH ->
    let run := sgm_hls left_pixels right_pixels st out in
    let total := total_aggregated_cost (fst run) row col in
    let best := snd run (row * WIDTH + col) in
    exists tz : Z -> Z,
      (forall d, 0 <= d < MAX_DISP -> total d = of_int (tz d) /\ 0 <= tz d) /\
      (forall d, col < d < MAX_DISP -> 4000 <= tz d) /\
      tz 0 <= 4 * (255 + P2_PENALTY) < 4000 /\
      0 <= best <= col.
Proof.
  intros F ops exact l r zl zr st out row col Hl Hr Hrow Hcol run total best.
  assert (Hin : in_frame row col = true) by now apply in_frame_spec.
  assert (Ht : forall d, 0 <= d < MAX_DISP ->
    total d = of_int (total_z zl zr row col d) /\
    4 * sad_cell zl zr row col d <= total_z zl zr row col d
      <= 4 * (sad_cell zl zr row col d + P2_PENALTY)).
  { intros d Hd. subst total run. unfold sgm_hls. cbn [fst].
    now apply (sgm_totals_exact l r zl zr Hl Hr). }
  assert (Hsad : forall d, 0 <= d < MAX_DISP ->
    (col < d -> sad_cell zl zr row col d = 1000) /\
    (d <= col -> 0 <= sad_cell zl zr row col d <= 255)).
  { intros d Hd. now destruct (sad_cell_exact l r zl zr Hl Hr row col d Hin Hd). }
  assert (Hrange : forall d, 0 <= d < MAX_DISP ->
    0 <= total_z zl zr row col d <= 4512).
  { intros d Hd. destruct (Ht d Hd) as (_ & Hb), (Hsad d Hd) as (Hhigh & Hlow).
    unfold P2_PENALTY in Hb.
    destruct (Z.lt_ge_cases col d); [rewrite Hhigh in Hb by assumption|]; lia. }
  assert (Ebest : best = best_disparity (total_z zl zr row col)).
  { subst best run. unfold sgm_hls. cbn [snd].
    rewrite sgm_select_at by assumption.
    apply best_disparity_exact. intros d Hd.
    destruct (Ht d Hd) as (E & _). split; [exact E|].
    pose proof (Hrange d Hd). lia. }
  destruct (best_disparity_Z (total_z zl zr row col)) as (Hb & Hmin & _).
  { intros d Hd. pose proof (Hrange d Hd). lia. }
  cbn zeta in *. rewrite <- Ebest in *.
  assert (H0 : 0 <= 0 < MAX_DISP) by (unfold MAX_DISP; lia).
  assert (Hz0 : total_z zl zr row col 0 <= 4 * (255 + P2_PENALTY)).
  { destruct (Ht 0 H0) as (_ & Hb0), (Hsad 0 H0) as (_ & Hlow). lia. }
  exists (total_z zl zr row col).
  split; [intros d Hd; destruct (Ht d Hd); pose proof (Hrange d Hd); split;
          [assumption|lia]|].
  assert (Hhigh : forall d, col < d < MAX_DISP -> 4000 <= total_z zl zr row col d).
  { intros d Hd. destruct (Ht d ltac:(lia)) as (_ & Hbd).
    destruct (Hsad d ltac:(lia)) as (E & _). rewrite E in Hbd; lia. }
  split; [exact Hhigh|]. split; [unfold P2_PENALTY in *; lia|].
  split; [lia|].
  destruct (Z.le_gt_cases best col) as [|Hgt]; [assumption|].
  pose proof (Hhigh best ltac:(lia)). pose proof (Hmin 0 H0).
  unfold P2_PENALTY in *. lia.
Qed.

Definition ramp_levels : Z -> Z := fun i => i mod 7 * 30.
Definition step_levels : Z -> Z := fun i => i mod 5 * 50.

Lemma ramp_image_grey : grey_levels ramp_image ramp_levels.
Proof.
  intros i _. split; [|reflexivity]. unfold ramp_levels.
  pose proof (Z.mod_pos_bound i 7 ltac:(lia)). lia.
Qed.

Lemma step_image_grey : grey_levels step_image step_levels.
Proof.
  intros i _. split; [|reflexivity]. unfold step_levels.
  pose proof (Z.mod_pos_bound i 5 ltac:(lia)). lia.
Qed.

(** * Identical images, in binary32

    No rounding matters here: the difference of a finite number with
    itself is +0, and a sum of numbers that are not negative is not
    negative. *)

Definition b32_finite (x : binary32) : bool :=
  match x with
  | S754_zero _ | S754_finite _ _ _ => true
  | _ => false
  end.

(** Zero, positive or NaN: not below zero. *)
Definition b32_not_negative (x : binary32) : bool :=
  match x with
  | S754_zero _ | S754_nan => true
  | S754_infinity s | S754_finite s _ _ => negb s
  end.

Definition b32_zero : binary32 := S754_zero false.

Lemma SFsub_self (x : binary32) :
  b32_finite x = true -> SFabs (SFsub 24 128 x x) = b32_zero.
Proof.
  destruct x as [[|]| | |s m e]; try discriminate; try reflexivity.
  intros _. cbn [SFsub]. rewrite Z.sub_diag. reflexivity.
Qed.

Lemma binary_round_aux_sign (m e : Z) (l : location) :
  b32_not_negative (binary_round_aux 24 128 false m e l) = true.
Proof.
  unfold binary_round_aux.
  destruct (shr_fexp 24 128 m e l) as (mrs', e').
  destruct (shr_fexp 24 128 _ e' loc_Exact) as (mrs'', e'').
  destruct (shr_m mrs'') as [|p|p]; try reflexivity.
  destruct (e'' <=? 128 - 24); reflexivity.
Qed.

Lemma SFadd_not_negative (x y : binary32) :
  b32_not_negative x = true -> b32_not_negative y = true ->
  b32_not_negative (SFadd 24 128 x y) = true.
Proof.
  destruct x as [[|]|[|]| |[|] mx ex], y as [[|]|[|]| |[|] my ey];
    try discriminate; try reflexivity.
  intros _ _. cbn [SFadd cond_Zopp].
  destruct (shl_align mx ex (Z.min ex ey)) as (mx', ex'),
    (shl_align my ey (Z.min ex ey)) as (my', ey').
  cbn [fst binary_normalize Z.add]. unfold binary_round.
  destruct (shl_align _ _ _) as (mz, ez).
  apply binary_round_aux_sign.
Qed.

Lemma SFsub_zero_not_negative (x : binary32) :
  b32_not_negative x = true ->
  b32_not_negative (SFsub 24 128 x b32_zero) = true.
Proof. destruct x as [[|]|[|]| |[|] mx ex]; try discriminate; reflexivity. Qed.

Lemma SFltb_zero_not_negative (x : binary32) :
  b32_not_negative x = true -> SFltb x b32_zero = false.
Proof. destruct x as [[|]|[|]| |[|] mx ex]; try discriminate; reflexivity. Qed.

Lemma SFabs_not_negative (x : binary32) : b32_not_negative (SFabs x) = true.
Proof. destruct x; reflexivity. Qed.

Section IdenticalImages.

Variable pixels : image binary32.
Hypothesis pixels_finite :
  forall i, 0 <= i < HEIGHT * WIDTH -> b32_finite (pixels i) = true.

Lemma sad_identical (y x d : Z) :
  in_frame y x = true ->
  sad_cell pixels pixels y x 0 = b32_zero /\
  b32_not_negative (sad_cell pixels pixels y x d) = true.
Proof.
  intros Hin. apply in_frame_spec in Hin. unfold sad_cell. split.
  - rewrite Z.sub_0_r. destruct (Z.geb_spec x 0); [|lia].
    apply SFsub_self, pixels_finite. nia.
  - destruct (x - d >=? 0); [apply SFabs_not_negative|reflexivity].
Qed.

Variables (cost stale : volume binary32) (dir_y dir_x : Z).
Hypothesis direction : dir_y <> 0 \/ dir_x <> 0.
Hypothesis cost_identical : forall y x d,
  in_frame y x = true -> 0 <= d < MAX_DISP ->
  cost y x 0 = b32_zero /\ b32_not_negative (cost y x d) = true.

(** The candidates of a transition from cells that are not negative. *)
Lemma candidates_not_negative (prev : Z -> binary32) (d : Z) :
  0 <= d < MAX_DISP ->
  (forall i, 0 <= i < MAX_DISP -> b32_not_negative (prev i) = true) ->
  forall v, In v [cost_same prev d; cost_step_down prev d; cost_step_up prev d;
                  cost_jump b32_zero] ->
    b32_not_negative v = true.
Proof.
  intros Hd Hp v [<-|[<-|[<-|[<-|[]]]]].
  - now apply Hp.
  - unfold cost_step_down. destruct (Z.gtb_spec d 0); [|reflexivity].
    apply SFadd_not_negative; [apply Hp; lia|reflexivity].
  - unfold cost_step_up. destruct (Z.ltb_spec d (MAX_DISP - 1)); [|reflexivity].
    apply SFadd_not_negative; [apply Hp; lia|reflexivity].
  - reflexivity.
Qed.

(** Along every path the aggregated cost of disparity 0 is +0 and no
    aggregated cost is negative. *)
Lemma aggregate_identical (y x : Z) :
  in_frame y x = true ->
  aggregate_path_hls cost stale dir_y dir_x y x 0 = b32_zero /\
  forall d, 0 <= d < MAX_DISP ->
    b32_not_negative (aggregate_path_hls cost stale dir_y dir_x y x d) = true.
Proof.
  revert y x.
  apply (path_induction dir_y dir_x
    (fun y x =>
       aggregate_path_hls cost stale dir_y dir_x y x 0 = b32_zero /\
       forall d, 0 <= d < MAX_DISP ->
         b32_not_negative (aggregate_path_hls cost stale dir_y dir_x y x d) = true)
    direction).
  intros y x Hin IH. pose proof Hin as Hin'. apply in_frame_spec in Hin'.
  assert (H0 : 0 <= 0 < MAX_DISP) by (unfold MAX_DISP; lia).
  assert (Step : forall d, 0 <= d < MAX_DISP ->
    aggregate_path_hls cost stale dir_y dir_x y x d
    = path_step cost dir_y dir_x y x
        (aggregate_path_hls cost stale dir_y dir_x (y - dir_y) (x - dir_x)) d).
  { intros d Hd. apply aggregate_path_at; tauto. }
  unfold path_step in Step.
  destruct (in_frame (y - dir_y) (x - dir_x)) eqn:Hpred.
  2:{ split; [rewrite Step by assumption; now apply (cost_identical y x 0)|].
      intros d Hd. rewrite Step by assumption. now apply cost_identical. }
  destruct (IH eq_refl) as (Hz & Hnn). clear IH.
  set (prev := aggregate_path_hls cost stale dir_y dir_x (y - dir_y) (x - dir_x)) in *.
  (* the minimum over the predecessor stays at its first cell, +0 *)
  assert (Em : min_prev_aggregated prev = b32_zero).
  { unfold min_prev_aggregated. rewrite for_up_steps.
    destruct (running_min_spec prev (steps 1 1 (Z.to_nat (MAX_DISP - 1))) (prev 0))
      as ([E|(Hlt & j & Hj & E)] & _).
    - unfold running_min in E. rewrite E. exact Hz.
    - exfalso. apply steps_In in Hj. destruct Hj as (k & Hk & ->).
      rewrite E, Hz in Hlt. cbn [flt binary32_ops] in Hlt.
      rewrite SFltb_zero_not_negative in Hlt; [discriminate|].
      apply Hnn. unfold MAX_DISP in *. lia. }
  rewrite Em in Step.
  assert (Hcand := fun d Hd => candidates_not_negative prev d Hd Hnn).
  split.
  - rewrite Step, path_cell_eq by assumption.
    assert (Et : min_transition_cost prev b32_zero 0 = b32_zero).
    { pose (c := fun i : Z =>
        if i =? 0 then cost_same prev 0
        else if i =? 1 then cost_step_down prev 0
        else if i =? 2 then cost_step_up prev 0
        else cost_jump b32_zero).
      destruct (running_min_spec c [1; 2; 3] (c 0))
        as ([E|(Hlt & j & Hj & E)] & _).
      - change (running_min c [1; 2; 3] (c 0))
          with (min_transition_cost prev b32_zero 0) in E.
        rewrite E. exact Hz.
      - exfalso. rewrite E in Hlt. change (c 0) with (prev 0) in Hlt.
        rewrite Hz in Hlt. cbn [flt binary32_ops] in Hlt.
        rewrite SFltb_zero_not_negative in Hlt; [discriminate|].
        apply (Hcand 0 H0).
        destruct Hj as [<-|[<-|[<-|[]]]];
          [right; left|do 2 right; left|do 3 right; left]; reflexivity. }
    rewrite Et. destruct (cost_identical y x 0 Hin H0) as (-> & _). reflexivity.
  - intros d Hd. rewrite Step, path_cell_eq by assumption.
    apply SFadd_not_negative; [now apply cost_identical|].
    apply SFsub_zero_not_negative. apply (Hcand d Hd).
    apply (min_transition_cost_is_minimum prev b32_zero d).
Qed.

End IdenticalImages.

Section IdenticalRun.

Variables left_pixels right_pixels : image binary32.
Hypothesis identical : forall i, 0 <= i < HEIGHT * WIDTH ->
  b32_finite (left_pixels i) = true /\ right_pixels i = left_pixels i.
Variable stale_cost : volume binary32.

Lemma identical_costs (y x d : Z) :
  in_frame y x = true -> 0 <= d < MAX_DISP ->
  compute_sad_cost_hls left_pixels right_pixels stale_cost y x 0 = b32_zero /\
  b32_not_negative
    (compute_sad_cost_hls left_pixels right_pixels stale_cost y x d) = true.
Proof.
  intros Hf Hd. pose proof Hf as Hf'. apply in_frame_spec in Hf'.
  assert (H0 : 0 <= 0 < MAX_DISP) by (unfold MAX_DISP; lia).
  rewrite !compute_sad_cost_at by tauto.
  rewrite !(sad_cell_ext left_pixels right_pixels left_pixels left_pixels)
    by (assumption || (intros i Hi; destruct (identical i Hi); now split)).
  apply sad_identical; [|assumption].
  intros i Hi. now destruct (identical i Hi).
Qed.

Lemma identical_paths (stale : volume binary32) (dy dx row col : Z) :
  dy <> 0 \/ dx <> 0 -> in_frame row col = true ->
  let aggregated :=
    aggregate_path_hls
      (compute_sad_cost_hls left_pixels right_pixels stale_cost) stale dy dx in
  aggregated row col 0 = b32_zero /\
  forall d, 0 <= d < MAX_DISP -> b32_not_negative (aggregated row col d) = true.
Proof.
  intros Hdir Hin. apply aggregate_identical; try assumption.
  apply identical_costs.
Qed.

End IdenticalRun.

Lemma identical_totals (left_pixels right_pixels : image binary32)
  (st : sgm_state) (row col : Z) :
  (forall i, 0 <= i < HEIGHT * WIDTH ->
     b32_finite (left_pixels i) = true /\ right_pixels i = left_pixels i) ->
  in_frame row col = true ->
  let total :=
    total_aggregated_cost (sgm_volumes left_pixels right_pixels st) row col in
  total 0 = b32_zero /\
  forall d, 0 <= d < MAX_DISP -> b32_not_negative (total d) = true.
Proof.
  intros Hsame Hin. cbn zeta. unfold total_aggregated_cost, sgm_volumes.
  cbn [path_left_to_right path_right_to_left path_top_to_bottom
       path_bottom_to_top].
  destruct (identical_paths left_pixels right_pixels Hsame (cost_volume_s st)
              (path_left_to_right st) 0 1 row col) as (E1 & N1);
    [lia|assumption|].
  destruct (identical_paths left_pixels right_pixels Hsame (cost_volume_s st)
              (path_right_to_left st) 0 (-1) row col) as (E2 & N2);
    [lia|assumption|].
  destruct (identical_paths left_pixels right_pixels Hsame (cost_volume_s st)
              (path_top_to_bottom st) 1 0 row col) as (E3 & N3);
    [lia|assumption|].
  destruct (identical_paths left_pixels right_pixels Hsame (cost_volume_s st)
              (path_bottom_to_top st) (-1) 0 row col) as (E4 & N4);
    [lia|assumption|].
  cbn zeta in *. split.
  - rewrite E1, E2, E3, E4. reflexivity.
  - intros d Hd. cbn [fadd binary32_ops].
    apply SFadd_not_negative;
      [apply SFadd_not_negative; [apply SFadd_not_negative|]|];
      [apply N1|apply N2|apply N3|apply N4]; exact Hd.
Qed.

Lemma best_disparity_zero (total : Z -> binary32) :
  total 0 = b32_zero ->
  (forall d, 0 <= d < MAX_DISP -> b32_not_negative (total d) = true) ->
  best_disparity total = 0.
Proof.
  intros Et0 Htn.
  destruct (best_disparity_first_minimum total) as (Hb & _ & Hfirst).
  { exists 0. split; [unfold MAX_DISP; lia|]. rewrite Et0. reflexivity. }
  cbn zeta in *.
  destruct (Z.eq_dec (best_disparity total) 0) as [|Hne]; [assumption|].
  exfalso. specialize (Hfirst 0 ltac:(lia)).
  rewrite Et0 in Hfirst. specialize (Hfirst eq_refl).
  cbn [flt binary32_ops] in Hfirst.
  pose proof (SFltb_zero_not_negative _ (Htn _ Hb)) as Hc.
  pose proof (eq_trans (eq_sym Hfirst) Hc) as Habs. discriminate Habs.
Qed.

(** C5: when the two images are pixel-identical - and their pixels finite
    numbers, whole or not, of any magnitude - the raw cost of disparity 0
    is 0 at every pixel and, with P1 = 8 and P2 = 128, [sgm_hls] selects
    disparity 0 at every pixel. *)
Theorem sgm_hls_identical_images :
  forall (left_pixels right_pixels : image binary32) (st : sgm_state)
    (out : dispmap) (row col : Z),
    (forall i, 0 <= i < HEIGHT * WIDTH ->
       b32_finite (left_pixels i) = true /\ right_pixels i = left_pixels i) ->
    0 <= row < HEIGHT -> 0 <= col < WIDTH ->
    let run := sgm_hls left_pixels right_pixels st out in
    P1_PENALTY = 8 /\ P2_PENALTY = 128 /\
    cost_volume_s (fst run) row col 0 = of_int 0 /\
    snd run (row * WIDTH + col) = 0.
Proof.
  intros l r st out row col Hsame Hrow Hcol run.
  assert (Hin : in_frame row col = true) by now apply in_frame_spec.
  assert (H0 : 0 <= 0 < MAX_DISP) by (unfold MAX_DISP; lia).
  split; [reflexivity|]. split; [reflexivity|]. subst run. split.
  - unfold sgm_hls, sgm_volumes. cbn [fst cost_volume_s].
    now apply (identical_costs l r Hsame (cost_volume_s st) row col 0).
  - unfold sgm_hls. cbn [snd]. rewrite sgm_select_at by assumption.
    destruct (identical_totals l r st row col Hsame Hin) as (Et0 & Htn).
    now apply best_disparity_zero.
Qed.

(** An image that is not of integers: quarters of grey levels. *)
Definition quarter_image : image binary32 :=
  fun i => S754_finite false (Z.to_pos (8388608 + i mod 1000)) (-18).

Lemma sgm_hls_identical_images_witness :
  let run := sgm_hls quarter_image quarter_image ramp_state stale_map in
  P1_PENALTY = 8 /\ P2_PENALTY = 128 /\
  cost_volume_s (fst run) 200 150 0 = of_int 0 /\
  snd run (200 * WIDTH + 150) = 0.
Proof.
  apply (sgm_hls_identical_images quarter_image quarter_image ramp_state
           stale_map 200 150).
  - intros i _. split; reflexivity.
  - unfold HEIGHT. lia.
  - unfold WIDTH. lia.
Defined.

(** * binary32 with rounding

    The rest of the file follows the pixels that are not integers: every sum
    and difference is rounded to nearest, ties to even.  [b32_ulps] is the
    value of a number in units of 2^-149, an integer; [rounds_to v r] says
    that [r] is a number of the format that no number of the format
    separates from the exact value [v], which is all the proofs below use
    of the rounding. *)


(** One step of the right shift: the bit that leaves becomes the round bit,
    the old round bit is kept in the sticky bit. *)
Lemma shr_1_spec (m : Z) (r s : bool) :
  0 <= m ->
  shr_1 (Build_shr_record m r s) = Build_shr_record (m / 2) (Z.odd m) (r || s).
Proof.
  intros Hm. destruct m as [|[p|p|]|p]; cbn [shr_1 Z.odd]; try lia.
  - reflexivity.
  - f_equal. rewrite (Pos2Z.inj_xI p).
    apply Z.div_unique with (r := 1); lia.
  - f_equal. rewrite (Pos2Z.inj_xO p).
    apply Z.div_unique with (r := 0); lia.
  - reflexivity.
Qed.

Lemma mod_mul_zero (m a b : Z) :
  0 < a -> 0 < b ->
  (m mod (a * b) = 0 <-> m mod a = 0 /\ (m / a) mod b = 0).
Proof.
  intros Ha Hb. rewrite Z.rem_mul_r by lia.
  pose proof (Z.mod_pos_bound m a Ha). pose proof (Z.mod_pos_bound (m / a) b Hb).
  split; [intros E|intros (-> & ->); lia]. split; nia.
Qed.

Lemma pow2_xI (p : positive) : 2 ^ Zpos p~1 = 2 * (2 ^ Zpos p * 2 ^ Zpos p).
Proof.
  rewrite (Pos2Z.inj_xI p).
  replace (2 * Zpos p + 1) with (1 + (Zpos p + Zpos p)) by lia.
  now rewrite !Z.pow_add_r by lia.
Qed.

Lemma pow2_xO (p : positive) : 2 ^ Zpos p~0 = 2 ^ Zpos p * 2 ^ Zpos p.
Proof.
  rewrite (Pos2Z.inj_xO p).
  replace (2 * Zpos p) with (Zpos p + Zpos p) by lia.
  now rewrite !Z.pow_add_r by lia.
Qed.

(** Whether a bit that left the mantissa was set. *)
Definition shr_lost (mrs : shr_record) : bool := shr_r mrs || shr_s mrs.

Lemma odd_false_mod (m : Z) : Z.odd m = false <-> m mod 2 = 0.
Proof.
  rewrite Zmod_odd. destruct (Z.odd m); split; intros; try discriminate; lia.
Qed.

Lemma iter_shr_1_spec (p : positive) (m : Z) (r s : bool) :
  0 <= m ->
  let res := iter_pos shr_1 p (Build_shr_record m r s) in
  shr_m res = m / 2 ^ Zpos p /\
  (shr_lost res = false <-> r || s = false /\ m mod 2 ^ Zpos p = 0).
Proof.
  revert m r s. induction p as [p IH|p IH|]; intros m r s Hm; cbn [iter_pos].
  - rewrite shr_1_spec by assumption.
    assert (Hp : 0 < 2 ^ Zpos p) by (apply Z.pow_pos_nonneg; lia).
    assert (H2 : 0 <= m / 2) by (apply Z.div_pos; lia).
    destruct (IH (m / 2) (Z.odd m) (r || s) H2) as (E1 & X1).
    destruct (iter_pos shr_1 p _) as [m1 r1 s1].
    cbn [shr_m] in E1. subst m1. unfold shr_lost in X1. cbn [shr_r shr_s] in X1.
    assert (H3 : 0 <= m / 2 / 2 ^ Zpos p) by (apply Z.div_pos; lia).
    destruct (IH _ r1 s1 H3) as (E2 & X2).
    cbn zeta in *. rewrite pow2_xI. split.
    + rewrite E2, !Z.div_div by lia. reflexivity.
    + rewrite X2, X1, orb_false_iff, odd_false_mod.
      rewrite (mod_mul_zero m 2), (mod_mul_zero (m / 2) (2 ^ Zpos p)) by lia.
      tauto.
  - assert (Hp : 0 < 2 ^ Zpos p) by (apply Z.pow_pos_nonneg; lia).
    destruct (IH m r s Hm) as (E1 & X1).
    destruct (iter_pos shr_1 p _) as [m1 r1 s1].
    cbn [shr_m] in E1. subst m1. unfold shr_lost in X1. cbn [shr_r shr_s] in X1.
    assert (H3 : 0 <= m / 2 ^ Zpos p) by (apply Z.div_pos; lia).
    destruct (IH _ r1 s1 H3) as (E2 & X2).
    cbn zeta in *. rewrite pow2_xO. split.
    + rewrite E2, !Z.div_div by lia. reflexivity.
    + rewrite X2, X1, (mod_mul_zero m (2 ^ Zpos p)) by lia. tauto.
  - rewrite shr_1_spec by assumption. cbn zeta. cbn [shr_m]. split.
    + reflexivity.
    + unfold shr_lost. cbn [shr_r shr_s]. change (2 ^ 1) with 2.
      rewrite orb_false_iff, odd_false_mod. tauto.
Qed.

(** The value of a binary32 number in units of 2^-149, the smallest
    positive number of the format. *)
Definition b32_ulps (x : binary32) : Z :=
  match x with
  | S754_finite _ m e => Zpos m * 2 ^ (e + 149)
  | _ => 0
  end.

(** A zero or a positive finite number in canonical form. *)
Definition b32_number (x : binary32) : bool :=
  match x with
  | S754_zero _ => true
  | S754_finite false m e => bounded 24 128 m e
  | _ => false
  end.

Lemma bounded_spec (m : positive) (e : Z) :
  bounded 24 128 m e = true <->
  -149 <= e <= 104 /\ Zpos (digits2_pos m) <= 24 /\
  (e = -149 \/ Zpos (digits2_pos m) = 24).
Proof.
  unfold bounded, canonical_mantissa. rewrite fexp_b32, andb_true_iff.
  rewrite Z.eqb_eq, Z.leb_le. change (128 - 24) with 104. lia.
Qed.

Lemma pow2_pos (n : Z) : 0 <= n -> 0 < 2 ^ n.
Proof. intros Hn. apply Z.pow_pos_nonneg; lia. Qed.

Lemma pow2_split (a b : Z) : 0 <= b <= a -> 2 ^ a = 2 ^ (a - b) * 2 ^ b.
Proof.
  intros H. rewrite <- Z.pow_add_r by lia. f_equal. lia.
Qed.

(** On the grid of exponent [e1] a number is a grid point, or it lies below
    the first normal mantissa. *)
Lemma number_grid (w : binary32) (e1 : Z) :
  b32_number w = true -> -149 <= e1 ->
  (exists k, b32_ulps w = k * 2 ^ (e1 + 149)) \/
  b32_ulps w < 2 ^ 23 * 2 ^ (e1 + 149).
Proof.
  intros Hw He1. pose proof (pow2_pos (e1 + 149) ltac:(lia)) as Hu.
  destruct w as [s| | |[|] m e]; try discriminate; cbn [b32_ulps].
  - left. exists 0. lia.
  - cbn [b32_number] in Hw. apply bounded_spec in Hw.
    destruct Hw as (He & Hd & _).
    destruct (Z.le_gt_cases e1 e) as [Hle|Hlt].
    + left. exists (Zpos m * 2 ^ (e - e1)).
      rewrite <- Z.mul_assoc, <- Z.pow_add_r by lia. f_equal. f_equal. lia.
    + right. pose proof (digits2_pos_bounds m) as Hb.
      assert (Zpos m < 2 ^ 24).
      { assert (2 ^ Zpos (digits2_pos m) <= 2 ^ 24)
          by (apply Z.pow_le_mono_r; lia). lia. }
      rewrite (pow2_split (e1 + 149) (e + 149)) by lia.
      pose proof (pow2_pos (e + 149) ltac:(lia)).
      assert (2 <= 2 ^ (e1 + 149 - (e + 149))).
      { change 2 with (2 ^ 1) at 1. apply Z.pow_le_mono_r; lia. }
      change (2 ^ 24) with 16777216 in *. change (2 ^ 23) with 8388608.
      nia.
Qed.

Lemma round_nearest_even_cases (q : Z) (mrs : shr_record) :
  shr_m mrs = q ->
  let m1 := round_nearest_even (shr_m mrs) (loc_of_shr_record mrs) in
  (m1 = q \/ (m1 = q + 1 /\ shr_lost mrs = true)).
Proof.
  intros <-. destruct mrs as [m [|] [|]]; cbn; auto.
  destruct (Z.even m); auto.
Qed.

Lemma binary_round_aux_canon (s : bool) (m : positive) (e : Z) :
  Z.max (Zpos (digits2_pos m) + e - 24) (-149) = e -> e <= 104 ->
  binary_round_aux 24 128 s (Zpos m) e loc_Exact = S754_finite s m e.
Proof.
  intros Hc He. unfold binary_round_aux, shr_fexp.
  cbn [Zdigits2 shr_record_of_loc]. rewrite fexp_b32, Hc, Z.sub_diag.
  cbn [shr shr_m loc_of_shr_record round_nearest_even Zdigits2 shr_record_of_loc].
  rewrite fexp_b32, Hc, Z.sub_diag. cbn [shr shr_m].
  destruct (Z.leb_spec e (128 - 24)); [reflexivity|lia].
Qed.

(** Rounding a mantissa of more than 24 digits: the result is one of the
    two neighbours on the grid, the lower one when no set bit is lost. *)
Lemma binary_round_aux_shr (S : positive) (ez : Z) :
  let d := Zpos (digits2_pos S) in
  let p := d - 24 in
  let q := Zpos S / 2 ^ p in
  let u := 2 ^ (ez + p + 149) in
  24 < d -> -149 <= ez -> ez + p <= 103 ->
  exists r,
    binary_round_aux 24 128 false (Zpos S) ez loc_Exact = r /\
    b32_number r = true /\
    8388608 <= q /\
    (b32_ulps r = q * u \/
     (b32_ulps r = (q + 1) * u /\ Zpos S mod 2 ^ p <> 0)).
Proof.
  intros d p q u Hd Hez Hov.
  assert (Ed : Zpos (digits2_pos S) = d) by reflexivity.
  assert (Epd : p = d - 24) by reflexivity.
  assert (Eq : Zpos S / 2 ^ p = q) by reflexivity.
  assert (Eu : u = 2 ^ (ez + p + 149)) by reflexivity.
  clearbody d p q u.
  assert (Hpp : exists pp, p = Zpos pp) by (exists (Z.to_pos p); lia).
  destruct Hpp as (pp & Ep).
  pose proof (digits2_pos_bounds S) as HS. rewrite Ed in HS.
  assert (H2p : 0 < 2 ^ p) by (apply pow2_pos; lia).
  assert (Hq : 8388608 <= q < 16777216).
  { rewrite <- Eq. rewrite (pow2_split (d - 1) p) in HS by lia.
    rewrite (pow2_split d p) in HS by lia.
    replace (d - 1 - p) with 23 in HS by lia.
    replace (d - p) with 24 in HS by lia.
    change (2 ^ 23) with 8388608 in HS. change (2 ^ 24) with 16777216 in HS.
    split; [apply Z.div_le_lower_bound; lia|apply Z.div_lt_upper_bound; lia]. }
  unfold binary_round_aux, shr_fexp.
  cbn [Zdigits2 shr_record_of_loc]. rewrite Ed, fexp_b32.
  replace (Z.max (d + ez - 24) (-149) - ez) with (Zpos pp) by lia.
  cbn [shr].
  destruct (iter_shr_1_spec pp (Zpos S) false false ltac:(lia)) as (Em & Hlost).
  cbn zeta in *. rewrite <- Ep in *. rewrite Eq in Em.
  set (mrs := iter_pos shr_1 pp _) in *.
  change (2 ^ 23) with 8388608.
  destruct (round_nearest_even_cases q mrs Em) as [E1|(E1 & Hl)];
    cbn zeta in E1; rewrite E1.
  - (* rounded down *)
    destruct q as [|qq|qq]; try lia.
    assert (Hdq : Zpos (digits2_pos qq) = 24).
    { apply digits2_pos_unique. change (2 ^ (24 - 1)) with 8388608.
      change (2 ^ 24) with 16777216. lia. }
    cbn [Zdigits2 shr_record_of_loc]. rewrite Hdq, fexp_b32.
    replace (Z.max (24 + (ez + p) - 24) (-149) - (ez + p)) with 0 by lia.
    cbn [shr shr_m].
    destruct (Z.leb_spec (ez + p) (128 - 24)); [|lia].
    eexists. split; [reflexivity|]. split; [|split; [lia|left]].
    + cbn [b32_number]. apply bounded_spec. lia.
    + cbn [b32_ulps]. now rewrite Eu.
  - (* rounded up *)
    assert (Hne : Zpos S mod 2 ^ p <> 0).
    { intros E0. destruct Hlost as (_ & Hl'). rewrite Hl' in Hl by auto.
      discriminate. }
    destruct (Z.eq_dec (q + 1) 16777216) as [E24|Hn24].
    + (* the mantissa overflows to 2^24 and is shifted once more *)
      rewrite E24.
      cbn [Zdigits2 digits2_pos Pos.succ shr_record_of_loc].
      rewrite fexp_b32.
      replace (Z.max (25 + (ez + p) - 24) (-149) - (ez + p)) with 1 by lia.
      cbn [shr iter_pos shr_1 orb shr_m].
      destruct (Z.leb_spec (ez + p + 1) (128 - 24)); [|lia].
      eexists. split; [reflexivity|].
      split; [|split; [lia|right; split; [|assumption]]].
      * cbn [b32_number]. apply bounded_spec. cbn [digits2_pos Pos.succ]. lia.
      * cbn [b32_ulps]. rewrite Eu.
        replace (ez + p + 1 + 149) with (1 + (ez + p + 149)) by lia.
        rewrite Z.pow_add_r by lia. change (2 ^ 1) with 2. lia.
    + destruct (q + 1) as [|qq|qq] eqn:Eq1; try lia.
      assert (Hdq : Zpos (digits2_pos qq) = 24).
      { apply digits2_pos_unique. change (2 ^ (24 - 1)) with 8388608.
        change (2 ^ 24) with 16777216. lia. }
      cbn [Zdigits2 shr_record_of_loc]. rewrite Hdq, fexp_b32.
      replace (Z.max (24 + (ez + p) - 24) (-149) - (ez + p)) with 0 by lia.
      cbn [shr shr_m].
      destruct (Z.leb_spec (ez + p) (128 - 24)); [|lia].
      eexists. split; [reflexivity|].
      split; [|split; [lia|right; split; [|assumption]]].
      * cbn [b32_number]. apply bounded_spec. lia.
      * cbn [b32_ulps]. now rewrite Eu.
Qed.

(** [r] is a rounding of the value [v]: a number of the format that no
    other number of the format separates from [v]. *)
Definition rounds_to (v : Z) (r : binary32) : Prop :=
  b32_number r = true /\
  (forall w, b32_number w = true -> b32_ulps w <= v -> b32_ulps w <= b32_ulps r) /\
  (forall w, b32_number w = true -> v <= b32_ulps w -> b32_ulps r <= b32_ulps w).

Lemma rounds_to_exact (r : binary32) :
  b32_number r = true -> rounds_to (b32_ulps r) r.
Proof. intros Hr. split; [assumption|]. split; intros w _ Hw; exact Hw. Qed.

Lemma digits_no_overflow (S : positive) (ez : Z) :
  -149 <= ez -> Zpos S * 2 ^ (ez + 149) < 2 ^ 249 ->
  Zpos (digits2_pos S) + ez <= 100.
Proof.
  intros Hez Hv. pose proof (digits2_pos_bounds S) as (Hlo & _).
  pose proof (pow2_pos (ez + 149) ltac:(lia)) as Hu.
  assert (H : 2 ^ (Zpos (digits2_pos S) - 1 + (ez + 149)) < 2 ^ 249).
  { rewrite Z.pow_add_r by lia. nia. }
  apply Z.pow_lt_mono_r_iff in H; lia.
Qed.

Lemma binary_round_between (S : positive) (ez : Z) :
  -149 <= ez -> Zpos S * 2 ^ (ez + 149) < 2 ^ 249 ->
  rounds_to (Zpos S * 2 ^ (ez + 149)) (binary_round 24 128 false S ez).
Proof.
  intros Hez Hv. pose proof (digits_no_overflow S ez Hez Hv) as Hov.
  pose proof (pow2_pos (ez + 149) ltac:(lia)) as Hu0.
  unfold binary_round. rewrite fexp_b32.
  remember (Zpos (digits2_pos S)) as d eqn:Ed.
  destruct (Z.le_gt_cases d 24) as [Hd|Hd].
  - (* no digit is lost *)
    remember (Z.max (d + ez - 24) (-149)) as e1 eqn:Ee1.
    unfold shl_align. destruct (e1 - ez) as [|k|k] eqn:Ek; try lia.
    + assert (e1 = ez) by lia. subst e1.
      rewrite binary_round_aux_canon by (rewrite <- ?Ed; lia).
      replace (Zpos S * 2 ^ (ez + 149))
        with (b32_ulps (S754_finite false S ez)) by reflexivity.
      apply rounds_to_exact. cbn [b32_number]. apply bounded_spec.
      rewrite <- Ed. lia.
    + assert (Hdk : Zpos (digits2_pos (Pos.iter xO S k)) = d + Zpos k).
      { rewrite Ed. apply digits2_pos_scale; [lia|apply iter_xO_pow]. }
      rewrite binary_round_aux_canon by (rewrite ?Hdk; lia).
      replace (Zpos S * 2 ^ (ez + 149))
        with (b32_ulps (S754_finite false (Pos.iter xO S k) e1)).
      * apply rounds_to_exact. cbn [b32_number]. apply bounded_spec.
        rewrite Hdk. lia.
      * cbn [b32_ulps].
        rewrite iter_xO_pow, <- Z.mul_assoc, <- Z.pow_add_r by lia.
        f_equal. f_equal. lia.
  - (* the low digits are rounded away *)
    replace (Z.max (d + ez - 24) (-149)) with (ez + (d - 24)) by lia.
    unfold shl_align. destruct (ez + (d - 24) - ez) as [|k|k] eqn:Ek; try lia.
    destruct (binary_round_aux_shr S ez) as (r & -> & Hr & Hq & Hval);
      try (rewrite <- ?Ed; lia).
    rewrite <- Ed in Hq, Hval.
    remember (d - 24) as p eqn:Ep.
    assert (Hp0 : 0 < 2 ^ p) by (apply pow2_pos; lia).
    assert (Hp1 : 2 ^ p <> 0) by (apply Z.pow_nonzero; lia).
    assert (Eu : 2 ^ (ez + p + 149) = 2 ^ p * 2 ^ (ez + 149)).
    { rewrite <- Z.pow_add_r by lia. f_equal. lia. }
    pose proof (Z.div_mod (Zpos S) (2 ^ p) Hp1) as Hdm.
    pose proof (Z.mod_pos_bound (Zpos S) (2 ^ p) Hp0) as Hmod.
    assert (Hgrid : forall w, b32_number w = true ->
              (exists k, b32_ulps w = k * 2 ^ (ez + p + 149)) \/
              b32_ulps w < 8388608 * 2 ^ (ez + p + 149)).
    { intros w Hw. apply number_grid; [assumption|lia]. }
    rewrite Eu in Hval, Hgrid. clear Eu Hp1.
    revert Hq Hval Hdm Hmod Hgrid Hu0 Hp0.
    generalize (Zpos S / 2 ^ p). generalize (Zpos S mod 2 ^ p).
    generalize (2 ^ p). generalize (2 ^ (ez + 149)).
    intros U P rem q Hq Hval Hdm Hmod Hgrid Hu0 Hp0.
    assert (HPU : 0 < P * U) by (apply Z.mul_pos_pos; assumption).
    assert (Hrem : 0 <= rem * U < P * U).
    { split; [apply Z.mul_nonneg_nonneg; lia|apply Z.mul_lt_mono_pos_r; lia]. }
    assert (ESU : Zpos S * U = q * (P * U) + rem * U) by (rewrite Hdm; ring).
    assert (Eq1 : (q + 1) * (P * U) = q * (P * U) + P * U) by ring.
    assert (Hvr : q * (P * U) <= b32_ulps r <= (q + 1) * (P * U)).
    { destruct Hval as [->|(-> & _)]; lia. }
    split; [assumption|]. split; intros w Hw Hle.
    + destruct (Hgrid w Hw) as [(j & Ej)|Hsmall].
      * assert (j < q + 1).
        { apply (Z.mul_lt_mono_pos_r (P * U)); [assumption|]. lia. }
        assert (j * (P * U) <= q * (P * U))
          by (apply Z.mul_le_mono_nonneg_r; lia).
        lia.
      * assert (8388608 * (P * U) <= q * (P * U))
          by (apply Z.mul_le_mono_nonneg_r; lia).
        lia.
    + destruct Hval as [->|(-> & Hne)]; [lia|].
      assert (Hstrict : 0 < rem * U) by (apply Z.mul_pos_pos; lia).
      destruct (Hgrid w Hw) as [(j & Ej)|Hsmall].
      * assert (q < j).
        { apply (Z.mul_lt_mono_pos_r (P * U)); [assumption|]. lia. }
        rewrite Ej. apply Z.mul_le_mono_nonneg_r; lia.
      * assert (8388608 * (P * U) <= q * (P * U))
          by (apply Z.mul_le_mono_nonneg_r; lia).
        lia.
Qed.

Lemma SFabs_binary_round (s : bool) (m : positive) (e : Z) :
  SFabs (binary_round 24 128 s m e) = binary_round 24 128 false m e.
Proof.
  unfold binary_round. destruct (shl_align m e _) as (mz, ez).
  unfold binary_round_aux.
  destruct (shr_fexp 24 128 (Zpos mz) ez loc_Exact) as (mrs', e').
  destruct (shr_fexp 24 128 _ e' loc_Exact) as (mrs'', e'').
  destruct (shr_m mrs'') as [|p|p]; try reflexivity.
  destruct (e'' <=? 128 - 24); reflexivity.
Qed.

(** The value of a number, seen from an exponent [ez] not above its own. *)
Lemma aligned_ulps (m : positive) (e ez : Z) :
  -149 <= ez <= e ->
  Zpos (fst (shl_align m e ez)) * 2 ^ (ez + 149) = Zpos m * 2 ^ (e + 149).
Proof.
  intros He. rewrite shl_align_value by lia.
  rewrite <- Z.mul_assoc, <- Z.pow_add_r by lia. f_equal. f_equal. lia.
Qed.

Lemma number_finite (m : positive) (e : Z) :
  b32_number (S754_finite false m e) = true -> -149 <= e.
Proof. cbn [b32_number]. rewrite bounded_spec. lia. Qed.

Lemma b32_ulps_nonneg (x : binary32) : 0 <= b32_ulps x.
Proof.
  destruct x as [s|s| |s m e]; cbn [b32_ulps]; lia.
Qed.

Lemma rounds_to_zero (s : bool) : rounds_to 0 (S754_zero s).
Proof. exact (rounds_to_exact (S754_zero s) eq_refl). Qed.

Lemma SFadd_number (x y : binary32) :
  b32_number x = true -> b32_number y = true ->
  b32_ulps x + b32_ulps y < 2 ^ 249 ->
  rounds_to (b32_ulps x + b32_ulps y) (SFadd 24 128 x y).
Proof.
  intros Hx Hy Hov.
  destruct x as [sx| | |[|] mx ex], y as [sy| | |[|] my ey]; try discriminate.
  - destruct sx, sy; apply rounds_to_zero.
  - cbn [SFadd b32_ulps]. rewrite Z.add_0_l.
    now apply (rounds_to_exact (S754_finite false my ey)).
  - cbn [SFadd b32_ulps]. rewrite Z.add_0_r.
    now apply (rounds_to_exact (S754_finite false mx ex)).
  - pose proof (number_finite mx ex Hx). pose proof (number_finite my ey Hy).
    cbn [SFadd cond_Zopp b32_ulps] in *.
    rewrite <- (aligned_ulps mx ex (Z.min ex ey)) in * by lia.
    rewrite <- (aligned_ulps my ey (Z.min ex ey)) in * by lia.
    rewrite <- Z.mul_add_distr_r in *.
    cbn [Z.add binary_normalize] in *.
    apply binary_round_between; [lia|assumption].
Qed.

Lemma SFabs_SFsub_number (x y : binary32) :
  b32_number x = true -> b32_number y = true ->
  b32_ulps x < 2 ^ 249 -> b32_ulps y < 2 ^ 249 ->
  rounds_to (Z.abs (b32_ulps x - b32_ulps y)) (SFabs (SFsub 24 128 x y)).
Proof.
  intros Hx Hy Hox Hoy.
  destruct x as [sx| | |[|] mx ex], y as [sy| | |[|] my ey]; try discriminate.
  - destruct sx, sy; apply rounds_to_zero.
  - cbn [SFsub SFabs negb]. 
    replace (Z.abs (b32_ulps (S754_zero sx) - b32_ulps (S754_finite false my ey)))
      with (b32_ulps (S754_finite false my ey))
      by (pose proof (b32_ulps_nonneg (S754_finite false my ey));
          cbn [b32_ulps] in *; lia).
    now apply rounds_to_exact.
  - cbn [SFsub SFabs].
    replace (Z.abs (b32_ulps (S754_finite false mx ex) - b32_ulps (S754_zero sy)))
      with (b32_ulps (S754_finite false mx ex))
      by (pose proof (b32_ulps_nonneg (S754_finite false mx ex));
          cbn [b32_ulps] in *; lia).
    now apply rounds_to_exact.
  - pose proof (number_finite mx ex Hx). pose proof (number_finite my ey Hy).
    cbn [SFsub cond_Zopp b32_ulps] in *.
    rewrite <- (aligned_ulps mx ex (Z.min ex ey)) in * by lia.
    rewrite <- (aligned_ulps my ey (Z.min ex ey)) in * by lia.
    rewrite <- Z.mul_sub_distr_r.
    pose proof (pow2_pos (Z.min ex ey + 149) ltac:(lia)) as Hu.
    set (a := fst (shl_align mx ex (Z.min ex ey))) in *.
    set (b := fst (shl_align my ey (Z.min ex ey))) in *.
    rewrite Z.abs_mul, (Z.abs_eq (2 ^ _)) by lia.
    destruct (Zpos a - Zpos b) as [|c|c] eqn:Ec; cbn [binary_normalize Z.abs].
    + apply rounds_to_zero.
    + cbn [SFabs]. rewrite SFabs_binary_round.
      apply binary_round_between; [lia|]. 
      apply Z.le_lt_trans with (Zpos a * 2 ^ (Z.min ex ey + 149)); [|assumption].
      apply Z.mul_le_mono_nonneg_r; lia.
    + rewrite SFabs_binary_round.
      apply binary_round_between; [lia|].
      apply Z.le_lt_trans with (Zpos b * 2 ^ (Z.min ex ey + 149)); [|assumption].
      apply Z.mul_le_mono_nonneg_r; lia.
Qed.

Lemma SFsub_number (x y : binary32) :
  b32_number x = true -> b32_number y = true ->
  b32_ulps y <= b32_ulps x < 2 ^ 249 ->
  rounds_to (b32_ulps x - b32_ulps y) (SFsub 24 128 x y).
Proof.
  intros Hx Hy Hle.
  destruct x as [sx| | |[|] mx ex], y as [sy| | |[|] my ey]; try discriminate.
  - destruct sx, sy; apply rounds_to_zero.
  - exfalso. pose proof (number_finite my ey Hy).
    pose proof (pow2_pos (ey + 149) ltac:(lia)).
    cbn [b32_ulps] in Hle. nia.
  - cbn [SFsub b32_ulps]. rewrite Z.sub_0_r.
    now apply (rounds_to_exact (S754_finite false mx ex)).
  - pose proof (number_finite mx ex Hx). pose proof (number_finite my ey Hy).
    cbn [SFsub cond_Zopp b32_ulps] in *.
    rewrite <- (aligned_ulps mx ex (Z.min ex ey)) in * by lia.
    rewrite <- (aligned_ulps my ey (Z.min ex ey)) in * by lia.
    rewrite <- Z.mul_sub_distr_r.
    pose proof (pow2_pos (Z.min ex ey + 149) ltac:(lia)) as Hu.
    set (a := fst (shl_align mx ex (Z.min ex ey))) in *.
    set (b := fst (shl_align my ey (Z.min ex ey))) in *.
    assert (Hab : Zpos b <= Zpos a).
    { apply (Z.mul_le_mono_pos_r _ _ (2 ^ (Z.min ex ey + 149))); lia. }
    destruct (Zpos a - Zpos b) as [|c|c] eqn:Ec; cbn [binary_normalize]; try lia.
    + apply rounds_to_zero.
    + apply binary_round_between; [lia|].
      apply Z.le_lt_trans with (Zpos a * 2 ^ (Z.min ex ey + 149)); [|lia].
      apply Z.mul_le_mono_nonneg_r; lia.
Qed.

(** Canonical numbers compare like their values. *)
Lemma canonical_lt_exponent (m1 m2 : positive) (e1 e2 : Z) :
  bounded 24 128 m1 e1 = true -> bounded 24 128 m2 e2 = true -> e1 < e2 ->
  Zpos m1 * 2 ^ (e1 + 149) < Zpos m2 * 2 ^ (e2 + 149).
Proof.
  rewrite !bounded_spec. intros (He1 & Hd1 & _) (He2 & Hd2 & Hn2) Hlt.
  pose proof (digits2_pos_bounds m1) as B1.
  pose proof (digits2_pos_bounds m2) as B2.
  assert (Zpos m1 < 16777216).
  { assert (2 ^ Zpos (digits2_pos m1) <= 2 ^ 24)
      by (apply Z.pow_le_mono_r; lia).
    change (2 ^ 24) with 16777216 in *. lia. }
  assert (8388608 <= Zpos m2).
  { destruct Hn2 as [|E]; [lia|]. rewrite E in B2.
    change (2 ^ (24 - 1)) with 8388608 in B2. lia. }
  rewrite (pow2_split (e2 + 149) (e1 + 149)) by lia.
  pose proof (pow2_pos (e1 + 149) ltac:(lia)) as Hu.
  assert (2 <= 2 ^ (e2 + 149 - (e1 + 149))).
  { change 2 with (2 ^ 1) at 1. apply Z.pow_le_mono_r; lia. }
  revert Hu H1. generalize (2 ^ (e1 + 149)), (2 ^ (e2 + 149 - (e1 + 149))).
  intros U T Hu HT.
  apply Z.lt_le_trans with (16777216 * U).
  - apply Z.mul_lt_mono_pos_r; lia.
  - apply Z.le_trans with (8388608 * (2 * U)); [lia|].
    rewrite Z.mul_assoc. apply Z.le_trans with (Zpos m2 * (2 * U)).
    + rewrite Z.mul_assoc. apply Z.mul_le_mono_nonneg_r; lia.
    + apply Z.mul_le_mono_nonneg_l; [lia|].
      apply Z.mul_le_mono_nonneg_r; lia.
Qed.

Lemma SFltb_number (x y : binary32) :
  b32_number x = true -> b32_number y = true ->
  SFltb x y = (b32_ulps x <? b32_ulps y).
Proof.
  intros Hx Hy.
  destruct x as [sx| | |[|] mx ex], y as [sy| | |[|] my ey]; try discriminate;
    unfold SFltb; cbn [SFcompare b32_ulps].
  - reflexivity.
  - pose proof (number_finite my ey Hy).
    pose proof (pow2_pos (ey + 149) ltac:(lia)).
    symmetry. apply Z.ltb_lt. apply Z.mul_pos_pos; lia.
  - pose proof (number_finite mx ex Hx).
    pose proof (pow2_pos (ex + 149) ltac:(lia)).
    symmetry. apply Z.ltb_ge. apply Z.mul_nonneg_nonneg; lia.
  - cbn [b32_number] in Hx, Hy.
    destruct (Z.compare_spec ex ey) as [->|Hlt|Hgt].
    + change (Pos.compare_cont Eq mx my) with (Pos.compare mx my).
      pose proof (number_finite my ey Hy).
      pose proof (pow2_pos (ey + 149) ltac:(lia)) as Hu.
      destruct (Pos.compare_spec mx my) as [->|H1|H1]; symmetry.
      * apply Z.ltb_irrefl.
      * apply Z.ltb_lt. apply Z.mul_lt_mono_pos_r; lia.
      * apply Z.ltb_ge. apply Z.mul_le_mono_nonneg_r; lia.
    + symmetry. apply Z.ltb_lt. now apply canonical_lt_exponent.
    + symmetry. apply Z.ltb_ge. apply Z.lt_le_incl.
      now apply canonical_lt_exponent.
Qed.

(** The unit: 1 in units of 2^-149. *)
Definition unit149 : Z := 2 ^ 149.

Lemma b32_of_int_number (n : Z) :
  0 <= n < 2 ^ 24 ->
  b32_number (b32_of_int n) = true /\ b32_ulps (b32_of_int n) = n * unit149.
Proof.
  intros Hn. rewrite b32_of_int_small by (unfold small; lia).
  destruct n as [|n|n]; try lia.
  - split; reflexivity.
  - cbn [b32_int]. unfold b32_pos.
    destruct (b32_mantissa_spec n) as (Em & Dm); [lia|].
    pose proof (digits2_pos_small n ltac:(lia)) as Hd.
    split.
    + cbn [b32_number]. apply bounded_spec. lia.
    + cbn [b32_ulps]. rewrite Em, <- Z.mul_assoc, <- Z.pow_add_r by lia.
      unfold unit149. f_equal. f_equal. lia.
Qed.

Lemma unit149_pos : 0 < unit149.
Proof. reflexivity. Qed.

Lemma unit149_no_overflow (n : Z) : n < 2 ^ 24 -> n * unit149 < 2 ^ 249.
Proof.
  intros Hn. apply Z.lt_le_trans with (2 ^ 24 * unit149).
  - apply Z.mul_lt_mono_pos_r; [apply unit149_pos|assumption].
  - unfold unit149. rewrite <- Z.pow_add_r by lia. apply Z.pow_le_mono_r; lia.
Qed.

(** Integers below 2^24 bound the roundings of the values they bound. *)
Lemma rounds_to_upper (v : Z) (r : binary32) (n : Z) :
  rounds_to v r -> 0 <= n < 2 ^ 24 -> v <= n * unit149 ->
  b32_ulps r <= n * unit149.
Proof.
  intros (_ & _ & Hup) Hn Hv.
  destruct (b32_of_int_number n Hn) as (Hnum & E). rewrite <- E.
  apply Hup; [assumption|]. now rewrite E.
Qed.

Lemma rounds_to_lower (v : Z) (r : binary32) (n : Z) :
  rounds_to v r -> 0 <= n < 2 ^ 24 -> n * unit149 <= v ->
  n * unit149 <= b32_ulps r.
Proof.
  intros (_ & Hlow & _) Hn Hv.
  destruct (b32_of_int_number n Hn) as (Hnum & E). rewrite <- E.
  apply Hlow; [assumption|]. now rewrite E.
Qed.

Lemma rounds_to_number (v : Z) (r : binary32) : rounds_to v r -> b32_number r = true.
Proof. now intros (H & _). Qed.

Lemma rounds_to_above (v : Z) (r w : binary32) :
  rounds_to v r -> b32_number w = true -> b32_ulps w <= v ->
  b32_ulps w <= b32_ulps r.
Proof. intros (_ & Hlow & _). apply Hlow. Qed.

(** A number that is at most [hi], in units. *)
Definition at_most (hi : Z) (x : binary32) : Prop :=
  b32_number x = true /\ b32_ulps x <= hi * unit149.

Lemma SFadd_at_most (x y : binary32) (a b : Z) :
  at_most a x -> at_most b y -> 0 <= a + b < 2 ^ 24 ->
  at_most (a + b) (SFadd 24 128 x y) /\
  b32_ulps x <= b32_ulps (SFadd 24 128 x y) /\
  b32_ulps y <= b32_ulps (SFadd 24 128 x y).
Proof.
  intros (Hx & Bx) (Hy & By) Hab.
  pose proof (b32_ulps_nonneg x). pose proof (b32_ulps_nonneg y).
  assert (Hsum : b32_ulps x + b32_ulps y <= (a + b) * unit149) by lia.
  pose proof (unit149_no_overflow (a + b) ltac:(lia)).
  pose proof (SFadd_number x y Hx Hy ltac:(lia)) as Hr.
  split; [split|split].
  - now apply rounds_to_number in Hr.
  - now apply (rounds_to_upper _ _ (a + b) Hr).
  - apply (rounds_to_above _ _ x Hr); [assumption|lia].
  - apply (rounds_to_above _ _ y Hr); [assumption|lia].
Qed.

Lemma SFadd_at_least (x y : binary32) (a b n : Z) :
  at_most a x -> at_most b y -> 0 <= a + b < 2 ^ 24 -> 0 <= n < 2 ^ 24 ->
  n * unit149 <= b32_ulps x + b32_ulps y ->
  n * unit149 <= b32_ulps (SFadd 24 128 x y).
Proof.
  intros (Hx & Bx) (Hy & By) Hab Hn Hsum.
  pose proof (unit149_no_overflow (a + b) ltac:(lia)).
  pose proof (SFadd_number x y Hx Hy ltac:(lia)) as Hr.
  now apply (rounds_to_lower _ _ n Hr).
Qed.

Lemma SFsub_at_most (x y : binary32) (a n : Z) :
  at_most a x -> b32_number y = true -> a < 2 ^ 24 ->
  b32_ulps y <= b32_ulps x -> 0 <= n < 2 ^ 24 ->
  b32_ulps x - b32_ulps y <= n * unit149 ->
  at_most n (SFsub 24 128 x y).
Proof.
  intros (Hx & Bx) Hy Ha Hle Hn Hd.
  pose proof (unit149_no_overflow a Ha).
  pose proof (SFsub_number x y Hx Hy ltac:(lia)) as Hr.
  split; [now apply rounds_to_number in Hr|].
  now apply (rounds_to_upper _ _ n Hr).
Qed.

Lemma SFabs_SFsub_at_most (x y : binary32) (a : Z) :
  at_most a x -> at_most a y -> 0 <= a < 2 ^ 24 ->
  at_most a (SFabs (SFsub 24 128 x y)).
Proof.
  intros (Hx & Bx) (Hy & By) Ha.
  pose proof (unit149_no_overflow a ltac:(lia)).
  pose proof (b32_ulps_nonneg x). pose proof (b32_ulps_nonneg y).
  pose proof (SFabs_SFsub_number x y Hx Hy ltac:(lia) ltac:(lia)) as Hr.
  split; [now apply rounds_to_number in Hr|].
  apply (rounds_to_upper _ _ a Hr); lia.
Qed.

Lemma b32_of_int_at_most (n : Z) : 0 <= n < 2 ^ 24 -> at_most n (b32_of_int n).
Proof.
  intros Hn. destruct (b32_of_int_number n Hn) as (Hnum & E).
  split; [assumption|lia].
Qed.

Lemma number_le (x y : binary32) :
  b32_number x = true -> b32_number y = true ->
  SFltb y x = false -> b32_ulps x <= b32_ulps y.
Proof.
  intros Hx Hy Hlt. rewrite SFltb_number in Hlt by assumption.
  now apply Z.ltb_ge.
Qed.

(** * Aggregation of bounded costs, with rounding *)

Section RoundedTransition.

Variables (prev : Z -> binary32) (d : Z).
Hypothesis d_range : 0 <= d < MAX_DISP.
Hypothesis prev_cells : forall i, 0 <= i < MAX_DISP -> at_most 1129 (prev i).

Let m := min_prev_aggregated prev.

Lemma min_prev_number :
  at_most 1129 m /\ forall i, 0 <= i < MAX_DISP -> b32_ulps m <= b32_ulps (prev i).
Proof.
  destruct (min_prev_aggregated_is_minimum prev) as (Hin & Hle). fold m in Hin, Hle.
  apply in_map_iff in Hin. destruct Hin as (j & Ej & Hj). apply disps_In in Hj.
  assert (Hm : at_most 1129 m) by (rewrite <- Ej; now apply prev_cells).
  split; [assumption|]. intros i Hi.
  destruct (prev_cells i Hi) as (Hn & _). destruct Hm as (Hmn & _).
  apply number_le; try assumption.
  apply (Hle (prev i)). apply in_map. now apply disps_In.
Qed.

(** Every candidate is a number between the minimum and 2000. *)
Lemma candidates_number (c : binary32) :
  In c [cost_same prev d; cost_step_down prev d; cost_step_up prev d;
        cost_jump m] ->
  at_most 2000 c /\ b32_ulps m <= b32_ulps c.
Proof.
  destruct min_prev_number as (Hm & Hle).
  pose proof unit149_pos as HK.
  assert (Hstep : forall i, 0 <= i < MAX_DISP ->
    at_most 2000 (fadd (prev i) (of_int P1_PENALTY)) /\
    b32_ulps m <= b32_ulps (fadd (prev i) (of_int P1_PENALTY))).
  { intros i Hi. cbn [fadd of_int binary32_ops].
    destruct (SFadd_at_most (prev i) (b32_of_int P1_PENALTY) 1129 8)
      as ((Hn & Hb) & Hl & _);
      [now apply prev_cells|apply b32_of_int_at_most; unfold P1_PENALTY; lia|lia|].
    pose proof (Hle i Hi). split; [split; [assumption|lia]|lia]. }
  assert (H2000 : at_most 2000 (of_int 2000) /\ b32_ulps m <= b32_ulps (of_int 2000)).
  { cbn [of_int binary32_ops].
    destruct (b32_of_int_number 2000 ltac:(lia)) as (Hn & E).
    destruct Hm as (_ & Hm). split; [split; [assumption|lia]|lia]. }
  intros [<-|[<-|[<-|[<-|[]]]]].
  - unfold cost_same. destruct (prev_cells d d_range) as (Hn & Hb).
    pose proof (Hle d d_range). split; [split; [assumption|lia]|lia].
  - unfold cost_step_down. destruct (Z.gtb_spec d 0); [apply Hstep; lia|exact H2000].
  - unfold cost_step_up.
    destruct (Z.ltb_spec d (MAX_DISP - 1)); [apply Hstep; lia|exact H2000].
  - unfold cost_jump. cbn [fadd of_int binary32_ops].
    destruct (SFadd_at_most m (b32_of_int P2_PENALTY) 1129 128)
      as ((Hn & Hb) & Hl & _);
      [assumption|apply b32_of_int_at_most; unfold P2_PENALTY; lia|lia|].
    split; [split; [assumption|lia]|lia].
Qed.

(** The jump is less than 129 above the minimum. *)
Lemma jump_close :
  b32_ulps (cost_jump m) <= b32_ulps m + 129 * unit149.
Proof.
  destruct min_prev_number as ((Hmn & Hmb) & _).
  pose proof unit149_pos as HK. pose proof (b32_ulps_nonneg m) as H0.
  set (k := b32_ulps m / unit149).
  pose proof (Z.div_mod (b32_ulps m) unit149 ltac:(lia)) as Hdm.
  pose proof (Z.mod_pos_bound (b32_ulps m) unit149 HK) as Hmod. fold k in Hdm.
  assert (Hk : 0 <= k <= 1129).
  { split; [apply Z.div_pos; lia|].
    apply Z.div_le_upper_bound; lia. }
  unfold cost_jump. cbn [fadd of_int binary32_ops].
  assert (Hkm : at_most (k + 1) m) by (split; [assumption|lia]).
  destruct (SFadd_at_most m (b32_of_int P2_PENALTY) (k + 1) 128)
    as ((_ & Hb) & _);
    [assumption|apply b32_of_int_at_most; unfold P2_PENALTY; lia|lia|].
  lia.
Qed.

Lemma path_cell_rounded (cost : binary32) (C : Z) :
  at_most C cost -> 0 <= C <= 1000 ->
  let a := path_cell cost prev m d in
  at_most (C + 129) a /\ b32_ulps cost <= b32_ulps a.
Proof.
  intros Hc HC. cbn zeta. rewrite path_cell_eq.
  destruct min_prev_number as (Hm & _).
  destruct (min_transition_cost_is_minimum prev m d) as (Hin & Hmin).
  destruct (candidates_number _ Hin) as (Ht & Hmt).
  destruct (candidates_number (cost_jump m)) as (Hj & _);
    [do 3 right; now left|].
  assert (Htj : b32_ulps (min_transition_cost prev m d) <= b32_ulps (cost_jump m)).
  { apply number_le; [apply Ht|apply Hj|].
    apply (Hmin (cost_jump m)). do 3 right. now left. }
  pose proof jump_close as Hjc.
  assert (Hdelta : at_most 129 (fsub (min_transition_cost prev m d) m)).
  { cbn [fsub binary32_ops].
    apply (SFsub_at_most _ _ 2000); try assumption; try lia.
    apply Hm. }
  cbn [fadd binary32_ops].
  destruct (SFadd_at_most cost (fsub (min_transition_cost prev m d) m) C 129)
    as (Hr & Hl & _); [assumption|assumption|lia|].
  split; assumption.
Qed.

End RoundedTransition.

Lemma at_most_weaken (a b : Z) (x : binary32) :
  at_most a x -> a <= b -> at_most b x.
Proof.
  intros (Hn & Hb) Hab. split; [assumption|].
  pose proof unit149_pos. nia.
Qed.

Section RoundedAggregation.

Variables (cost stale : volume binary32) (dir_y dir_x : Z).
Hypothesis direction : dir_y <> 0 \/ dir_x <> 0.
Hypothesis cost_cells : forall y x d,
  in_frame y x = true -> 0 <= d < MAX_DISP -> at_most 1000 (cost y x d).

(** With rounding, an aggregated cost is still not below the raw cost, and
    less than 129 above a bound of the raw cost. *)
Lemma aggregate_path_rounded (y x : Z) :
  in_frame y x = true ->
  forall d, 0 <= d < MAX_DISP ->
    let a := aggregate_path_hls cost stale dir_y dir_x y x d in
    at_most 1129 a /\ b32_ulps (cost y x d) <= b32_ulps a /\
    (at_most 255 (cost y x d) -> at_most 384 a).
Proof.
  revert y x.
  apply (path_induction dir_y dir_x
    (fun y x => forall d, 0 <= d < MAX_DISP ->
       let a := aggregate_path_hls cost stale dir_y dir_x y x d in
       at_most 1129 a /\ b32_ulps (cost y x d) <= b32_ulps a /\
       (at_most 255 (cost y x d) -> at_most 384 a)) direction).
  intros y x Hin IH d Hd. cbn zeta.
  pose proof Hin as Hin'. apply in_frame_spec in Hin'.
  rewrite aggregate_path_at by tauto. unfold path_step.
  pose proof (cost_cells y x d Hin Hd) as Hc.
  destruct (in_frame (y - dir_y) (x - dir_x)) eqn:Hpred.
  - specialize (IH eq_refl).
    assert (Hprev : forall i, 0 <= i < MAX_DISP ->
      at_most 1129
        (aggregate_path_hls cost stale dir_y dir_x (y - dir_y) (x - dir_x) i)).
    { intros i Hi. now destruct (IH i Hi). }
    destruct (path_cell_rounded _ d Hd Hprev (cost y x d) 1000 Hc ltac:(lia))
      as (H1 & H2).
    split; [exact H1|]. split; [exact H2|]. intros H255.
    now destruct (path_cell_rounded _ d Hd Hprev (cost y x d) 255 H255 ltac:(lia)).
  - split; [apply (at_most_weaken 1000); [assumption|lia]|].
    split; [lia|]. intros H255. apply (at_most_weaken 255); [assumption|lia].
Qed.

End RoundedAggregation.

(** * Intensities *)

(** A binary32 number between 0 and 255. *)
Definition b32_intensity (x : binary32) : bool :=
  b32_number x && negb (SFltb (b32_of_int 255) x).

Lemma intensity_at_most (x : binary32) :
  b32_intensity x = true -> at_most 255 x.
Proof.
  unfold b32_intensity. rewrite andb_true_iff, negb_true_iff.
  intros (Hn & Hlt). split; [assumption|].
  destruct (b32_of_int_number 255 ltac:(lia)) as (Hn255 & E).
  rewrite <- E. now apply number_le.
Qed.

(** The winner among totals of which those above [col] are at least 4000
    and the others at most 1536. *)
Lemma winner_within_column (total : Z -> binary32) (col : Z) :
  0 <= col ->
  (forall d, 0 <= d < MAX_DISP ->
     at_most 4516 (total d) /\
     (col < d -> 4000 * unit149 <= b32_ulps (total d)) /\
     (d <= col -> at_most 1536 (total d))) ->
  0 <= best_disparity total <= col.
Proof.
  intros Hcol Ht.
  assert (H0 : 0 <= 0 < MAX_DISP) by (unfold MAX_DISP; lia).
  destruct (Ht 0 H0) as ((Hn0 & _) & _ & Hlow0).
  destruct (Hlow0 Hcol) as (_ & Hb0).
  pose proof unit149_pos as HK.
  assert (Hsome : exists d, 0 <= d < MAX_DISP /\
                    flt (total d) (of_int 1000000000) = true).
  { exists 0. split; [assumption|]. cbn [flt of_int binary32_ops].
    change (b32_of_int 1000000000) with (S754_finite false 15625000 6).
    rewrite SFltb_number by (assumption || reflexivity).
    apply Z.ltb_lt. cbn [b32_ulps].
    apply Z.le_lt_trans with (1536 * unit149); [assumption|].
    unfold unit149. rewrite (Z.pow_add_r 2 6 149) by lia. change (2 ^ 6) with 64.
    lia. }
  destruct (best_disparity_first_minimum total Hsome) as (Hb & Hmin & _).
  cbn zeta in *. split; [lia|].
  destruct (Z.le_gt_cases (best_disparity total) col) as [|Hgt]; [assumption|].
  exfalso.
  destruct (Ht _ Hb) as ((Hnb & _) & Hhigh & _).
  specialize (Hhigh Hgt).
  pose proof (Hmin 0 H0) as Hm0. cbn [flt binary32_ops] in Hm0.
  pose proof (number_le _ _ Hnb Hn0 Hm0). lia.
Qed.

Section RoundedRun.

Variables left_pixels right_pixels : image binary32.
Hypothesis left_intensities :
  forall i, 0 <= i < HEIGHT * WIDTH -> b32_intensity (left_pixels i) = true.
Hypothesis right_intensities :
  forall i, 0 <= i < HEIGHT * WIDTH -> b32_intensity (right_pixels i) = true.

Lemma sad_cell_rounded (y x d : Z) :
  in_frame y x = true -> 0 <= d < MAX_DISP ->
  let c := sad_cell left_pixels right_pixels y x d in
  at_most 1000 c /\
  (x < d -> b32_ulps c = 1000 * unit149) /\
  (d <= x -> at_most 255 c).
Proof.
  intros Hin Hd. apply in_frame_spec in Hin. cbn zeta. unfold sad_cell.
  destruct (Z.geb_spec (x - d) 0) as [Hge|Hlt].
  - assert (Hc : at_most 255
      (fabs (fsub (left_pixels (y * WIDTH + x))
                  (right_pixels (y * WIDTH + (x - d)))))).
    { cbn [fabs fsub binary32_ops]. apply SFabs_SFsub_at_most; [| |lia].
      - apply intensity_at_most, left_intensities. nia.
      - apply intensity_at_most, right_intensities. nia. }
    split; [apply (at_most_weaken 255); [assumption|lia]|].
    split; [lia|intros _; assumption].
  - cbn [of_int binary32_ops].
    destruct (b32_of_int_number 1000 ltac:(lia)) as (Hn & E).
    split; [split; [assumption|lia]|]. split; [intros _; exact E|lia].
Qed.

Variable st : sgm_state (F := binary32).
Variables row col : Z.
Hypothesis pixel : in_frame row col = true.

Let cost := compute_sad_cost_hls left_pixels right_pixels (cost_volume_s st).
Let total := total_aggregated_cost (sgm_volumes left_pixels right_pixels st) row col.

Lemma cost_rounded (y x d : Z) :
  in_frame y x = true -> 0 <= d < MAX_DISP ->
  at_most 1000 (cost y x d) /\
  (x < d -> b32_ulps (cost y x d) = 1000 * unit149) /\
  (d <= x -> at_most 255 (cost y x d)).
Proof.
  intros Hin Hd. pose proof Hin as Hin'. apply in_frame_spec in Hin'.
  unfold cost. rewrite compute_sad_cost_at by tauto.
  now apply sad_cell_rounded.
Qed.

Lemma total_rounded (d : Z) :
  0 <= d < MAX_DISP ->
  at_most 4516 (total d) /\
  (col < d -> 4000 * unit149 <= b32_ulps (total d)) /\
  (d <= col -> at_most 1536 (total d)).
Proof.
  intros Hd. unfold total, total_aggregated_cost, sgm_volumes.
  cbn [path_left_to_right path_right_to_left path_top_to_bottom
       path_bottom_to_top fadd binary32_ops]. fold cost.
  assert (Hcost : forall y x d, in_frame y x = true -> 0 <= d < MAX_DISP ->
            at_most 1000 (cost y x d))
    by (intros; now apply cost_rounded).
  destruct (cost_rounded row col d pixel Hd) as (_ & Hhigh & Hlow).
  assert (Hpath : forall stale dy dx, dy <> 0 \/ dx <> 0 ->
    let a := aggregate_path_hls cost stale dy dx row col d in
    at_most 1129 a /\ b32_ulps (cost row col d) <= b32_ulps a /\
    (at_most 255 (cost row col d) -> at_most 384 a)).
  { intros stale dy dx Hdir. now apply aggregate_path_rounded. }
  destruct (Hpath (path_left_to_right st) 0 1 ltac:(lia)) as (A1 & L1 & U1).
  destruct (Hpath (path_right_to_left st) 0 (-1) ltac:(lia)) as (A2 & L2 & U2).
  destruct (Hpath (path_top_to_bottom st) 1 0 ltac:(lia)) as (A3 & L3 & U3).
  destruct (Hpath (path_bottom_to_top st) (-1) 0 ltac:(lia)) as (A4 & L4 & U4).
  cbn zeta in *.
  set (a1 := aggregate_path_hls cost (path_left_to_right st) 0 1 row col d) in *.
  set (a2 := aggregate_path_hls cost (path_right_to_left st) 0 (-1) row col d) in *.
  set (a3 := aggregate_path_hls cost (path_top_to_bottom st) 1 0 row col d) in *.
  set (a4 := aggregate_path_hls cost (path_bottom_to_top st) (-1) 0 row col d) in *.
  clearbody a1 a2 a3 a4.
  destruct (SFadd_at_most a1 a2 1129 1129 A1 A2 ltac:(lia)) as (S1 & _ & _).
  destruct (SFadd_at_most _ a3 _ 1129 S1 A3 ltac:(lia)) as (S2 & _ & _).
  destruct (SFadd_at_most _ a4 _ 1129 S2 A4 ltac:(lia)) as (S3 & _ & _).
  split; [exact S3|]. split.
  - intros Hcd. specialize (Hhigh Hcd). rewrite Hhigh in *.
    assert (T1 : 2000 * unit149 <= b32_ulps (SFadd 24 128 a1 a2)).
    { apply (SFadd_at_least a1 a2 1129 1129); try assumption; lia. }
    assert (T2 : 3000 * unit149
                 <= b32_ulps (SFadd 24 128 (SFadd 24 128 a1 a2) a3)).
    { apply (SFadd_at_least _ a3 (1129 + 1129) 1129); try assumption; lia. }
    apply (SFadd_at_least _ a4 (1129 + 1129 + 1129) 1129); try assumption; lia.
  - intros Hcd. specialize (Hlow Hcd).
    specialize (U1 Hlow). specialize (U2 Hlow).
    specialize (U3 Hlow). specialize (U4 Hlow).
    destruct (SFadd_at_most a1 a2 384 384 U1 U2 ltac:(lia)) as (V1 & _ & _).
    destruct (SFadd_at_most _ a3 _ 384 V1 U3 ltac:(lia)) as (V2 & _ & _).
    destruct (SFadd_at_most _ a4 _ 384 V2 U4 ltac:(lia)) as (V3 & _ & _).
    exact V3.
Qed.

Lemma best_disparity_rounded : 0 <= best_disparity total <= col.
Proof.
  pose proof pixel as Hpix. apply in_frame_spec in Hpix.
  apply winner_within_column; [lia|]. apply total_rounded.
Qed.

End RoundedRun.

Lemma at_most_not_above (x : binary32) (n : Z) :
  at_most n x -> 0 <= n < 2 ^ 24 -> SFltb (b32_of_int n) x = false.
Proof.
  intros (Hx & Hb) Hn. destruct (b32_of_int_number n Hn) as (Hnum & E).
  rewrite SFltb_number, E by assumption. now apply Z.ltb_ge.
Qed.

Lemma at_most_below (x : binary32) (n k : Z) :
  at_most n x -> 0 <= n < k -> k < 2 ^ 24 -> SFltb x (b32_of_int k) = true.
Proof.
  intros (Hx & Hb) Hn Hk. destruct (b32_of_int_number k ltac:(lia)) as (Hnum & E).
  rewrite SFltb_number, E by assumption. apply Z.ltb_lt.
  pose proof unit149_pos. nia.
Qed.

Lemma at_least_not_below (x : binary32) (n : Z) :
  b32_number x = true -> n * unit149 <= b32_ulps x -> 0 <= n < 2 ^ 24 ->
  SFltb x (b32_of_int n) = false.
Proof.
  intros Hx Hb Hn. destruct (b32_of_int_number n Hn) as (Hnum & E).
  rewrite SFltb_number, E by assumption. now apply Z.ltb_ge.
Qed.

(** C10: for every pair of images whose pixels are binary32 numbers
    between 0 and 255, whole or not, the disparity that [sgm_hls] selects at
    [(row, col)] never exceeds [col]: the total of a disparity [d > col] is
    at least 4000 and the total of disparity 0 is below 4000 - at most
    [4 * (255 + P2)] when the pixels are integer grey levels, and at most 4
    more when the sums round. *)
Theorem sgm_hls_disparity_within_column :
  forall (left_pixels right_pixels : image binary32) (st : sgm_state)
    (out : dispmap) (row col : Z),
    (forall i, 0 <= i < HEIGHT * WIDTH ->
       b32_intensity (left_pixels i) = true /\
       b32_intensity (right_pixels i) = true) ->
    0 <= row < HEIGHT -> 0 <= col < WIDTH ->
    let run := sgm_hls left_pixels right_pixels st out in
    let total := total_aggregated_cost (fst run) row col in
    let best := snd run (row * WIDTH + col) in
    0 <= best <= col /\
    (forall d, col < d < MAX_DISP ->
       flt (total d) (of_int 4000) = false /\ flt (total 0) (total d) = true) /\
    flt (of_int (4 * (255 + P2_PENALTY) + 4)) (total 0) = false /\
    (forall zl zr, grey_levels left_pixels zl -> grey_levels right_pixels zr ->
       flt (of_int (4 * (255 + P2_PENALTY))) (total 0) = false).
Proof.
  intros l r st out row col Hpix Hrow Hcol run total best.
  assert (Hin : in_frame row col = true) by now apply in_frame_spec.
  assert (Hl : forall i, 0 <= i < HEIGHT * WIDTH -> b32_intensity (l i) = true)
    by (intros i Hi; now destruct (Hpix i Hi)).
  assert (Hr : forall i, 0 <= i < HEIGHT * WIDTH -> b32_intensity (r i) = true)
    by (intros i Hi; now destruct (Hpix i Hi)).
  assert (Ht : forall d, 0 <= d < MAX_DISP ->
     at_most 4516 (total d) /\
     (col < d -> 4000 * unit149 <= b32_ulps (total d)) /\
     (d <= col -> at_most 1536 (total d))).
  { intros d Hd. subst total run. unfold sgm_hls. cbn [fst].
    now apply total_rounded. }
  assert (H0 : 0 <= 0 < MAX_DISP) by (unfold MAX_DISP; lia).
  destruct (Ht 0 H0) as (_ & _ & Hlow0). specialize (Hlow0 ltac:(lia)).
  split; [|split; [|split]].
  - subst best run. unfold sgm_hls. cbn [snd].
    rewrite sgm_select_at by assumption.
    apply winner_within_column; [lia|exact Ht].
  - intros d Hd. destruct (Ht d ltac:(lia)) as ((Hn & _) & Hhigh & _).
    specialize (Hhigh ltac:(lia)). cbn [flt of_int binary32_ops]. split.
    + apply at_least_not_below; [assumption|assumption|lia].
    + destruct Hlow0 as (Hn0 & Hb0). rewrite SFltb_number by assumption.
      apply Z.ltb_lt. pose proof unit149_pos. lia.
  - cbn [flt of_int binary32_ops].
    apply at_most_not_above; [exact Hlow0|unfold P2_PENALTY; lia].
  - intros zl zr Hzl Hzr.
    destruct (grey_levels_selection binary32 binary32_ops binary32_exact
                l r zl zr st out row col Hzl Hzr Hrow Hcol)
      as (tz & Etz & _ & Hz0 & _).
    cbn zeta in Etz. fold run in Etz. fold total in Etz.
    destruct (Etz 0 H0) as (E0 & Hz0'). rewrite E0.
    rewrite (exact_lt (F := binary32) (4 * (255 + P2_PENALTY)) (tz 0))
      by (unfold P2_PENALTY in *; try left; lia).
    apply Z.ltb_ge. lia.
Qed.

Lemma quarter_image_intensity (i : Z) :
  b32_intensity (quarter_image i) = true.
Proof.
  unfold b32_intensity, quarter_image. apply andb_true_iff. split; [|reflexivity].
  cbn [b32_number]. apply bounded_spec.
  pose proof (Z.mod_pos_bound i 1000 ltac:(lia)) as Hk.
  assert (Zpos (digits2_pos (Z.to_pos (8388608 + i mod 1000))) = 24).
  { apply digits2_pos_unique. rewrite Z2Pos.id by lia.
    change (2 ^ (24 - 1)) with 8388608. change (2 ^ 24) with 16777216. lia. }
  lia.
Qed.

Lemma sgm_hls_disparity_within_column_witness :
  let run := sgm_hls quarter_image step_image ramp_state stale_map in
  let total := total_aggregated_cost (fst run) 3 2 in
  let best := snd run (3 * WIDTH + 2) in
  0 <= best <= 2 /\
  (forall d, 2 < d < MAX_DISP ->
     flt (total d) (of_int 4000) = false /\ flt (total 0) (total d) = true) /\
  flt (of_int (4 * (255 + P2_PENALTY) + 4)) (total 0) = false /\
  (forall zl zr, grey_levels quarter_image zl -> grey_levels step_image zr ->
     flt (of_int (4 * (255 + P2_PENALTY))) (total 0) = false).
Proof.
  apply (sgm_hls_disparity_within_column quarter_image step_image ramp_state
           stale_map 3 2).
  - intros i Hi. split; [apply quarter_image_intensity|].
    apply andb_true_iff. split.
    + destruct (b32_of_int_number (step_levels i)) as (Hn & _);
        [destruct (step_image_grey i Hi); lia|exact Hn].
    + apply negb_true_iff.
      destruct (step_image_grey i Hi) as (Hb & E). rewrite E.
      change (@flt binary32 _ (of_int 255) (of_int (step_levels i)) = false).
      rewrite (exact_lt (F := binary32) 255 (step_levels i)) by (try left; lia).
      apply Z.ltb_ge. lia.
  - unfold HEIGHT. lia.
  - unfold WIDTH. lia.
Defined.

(** * Accesses inside the bounds *)

Lemma foldi_preserves {S : Type} (P : S -> Prop) (l : list Z)
  (body : Z -> S -> S) (s : S) :
  (forall i s, In i l -> P s -> P (body i s)) -> P s -> P (foldi l body s).
Proof.
  revert s. induction l as [|i l IH]; intros s Hbody Hs; [exact Hs|].
  rewrite foldi_cons. apply IH.
  - intros j s' Hj. apply Hbody. now right.
  - apply Hbody; [now left|exact Hs].
Qed.

Section Bounds.

Context {F : Type} `{FloatOps F}.

(** One pixel of the aggregation writes the 16 cells of its pixel. *)
Lemma aggregate_pixel_cells (cost : volume F) (dir_y dir_x y x : Z)
  (v : volume F) (y' x' d' : Z) :
  y' <> y \/ x' <> x \/ ~ (0 <= d' < MAX_DISP) ->
  aggregate_pixel cost dir_y dir_x y x v y' x' d' = v y' x' d'.
Proof.
  intros Hne. unfold aggregate_pixel.
  destruct (in_frame _ _).
  - rewrite (for_up_write_cells y x
      (fun d pcv => path_cell (cost y x d) (pcv (y - dir_y) (x - dir_x))
                      (min_prev_aggregated (v (y - dir_y) (x - dir_x))) d)).
    apply write_cells_frame. rewrite disps_In. tauto.
  - rewrite (for_up_write_cells y x (fun d _ => cost y x d)).
    apply write_cells_frame. rewrite disps_In. tauto.
Qed.

Lemma aggregate_path_outside (cost stale : volume F) (dir_y dir_x y x d : Z) :
  ~ (0 <= y < HEIGHT /\ 0 <= x < WIDTH /\ 0 <= d < MAX_DISP) ->
  aggregate_path_hls cost stale dir_y dir_x y x d = stale y x d.
Proof.
  intros Hout. rewrite aggregate_path_scan. unfold scan, scan_row.
  apply (foldi_preserves (fun v : volume F => v y x d = stale y x d));
    [|reflexivity].
  intros y1 v Hy1 Hv.
  apply (foldi_preserves (fun v : volume F => v y x d = stale y x d));
    [|exact Hv].
  intros x1 v' Hx1 Hv'. rewrite aggregate_pixel_cells; [exact Hv'|].
  apply scan_order_In in Hy1, Hx1. lia.
Qed.

Lemma sad_pixel_cells (l r : image F) (y x : Z) (v : volume F) (y' x' d' : Z) :
  y' <> y \/ x' <> x \/ ~ (0 <= d' < MAX_DISP) ->
  sad_pixel l r y x v y' x' d' = v y' x' d'.
Proof.
  intros Hne. unfold sad_pixel.
  apply write_cells_frame. rewrite disps_In. tauto.
Qed.

Lemma compute_sad_cost_outside (l r : image F) (stale : volume F) (y x d : Z) :
  ~ (0 <= y < HEIGHT /\ 0 <= x < WIDTH /\ 0 <= d < MAX_DISP) ->
  compute_sad_cost_hls l r stale y x d = stale y x d.
Proof.
  intros Hout. rewrite compute_sad_cost_scan. unfold scan, scan_row.
  apply (foldi_preserves (fun v : volume F => v y x d = stale y x d));
    [|reflexivity].
  intros y1 v Hy1 Hv.
  apply (foldi_preserves (fun v : volume F => v y x d = stale y x d));
    [|exact Hv].
  intros x1 v' Hx1 Hv'. rewrite sad_pixel_cells; [exact Hv'|].
  unfold rows in Hy1. unfold cols in Hx1.
  apply up_range_In in Hy1, Hx1. lia.
Qed.

End Bounds.

(** X10: [aggregate_path_hls] stays inside its arrays, in every direction.
    It writes no cell outside [HEIGHT x WIDTH x MAX_DISP]; and in a
    direction other than (0, 0) it overwrites every cell inside with a
    value that depends on the costs inside the bounds only - not on what
    the output volume held, nor on anything outside the cost volume. *)
Theorem aggregate_path_hls_in_bounds :
  forall (F : Type) (ops : FloatOps F) (cost cost' stale stale' : volume F)
    (dy dx : Z),
    (forall y x d, 0 <= y < HEIGHT -> 0 <= x < WIDTH -> 0 <= d < MAX_DISP ->
       cost y x d = cost' y x d) ->
    (forall y x d,
       ~ (0 <= y < HEIGHT /\ 0 <= x < WIDTH /\ 0 <= d < MAX_DISP) ->
       aggregate_path_hls cost stale dy dx y x d = stale y x d) /\
    (dy <> 0 \/ dx <> 0 ->
     forall y x d, 0 <= y < HEIGHT -> 0 <= x < WIDTH -> 0 <= d < MAX_DISP ->
       aggregate_path_hls cost stale dy dx y x d
       = aggregate_path_hls cost' stale' dy dx y x d).
Proof.
  intros F ops cost cost' stale stale' dy dx E. split.
  - intros y x d. apply aggregate_path_outside.
  - intros Hdir y x d Hy Hx Hd.
    assert (Hin : in_frame y x = true) by now apply in_frame_spec.
    rewrite !(aggregate_path_cells _ _ _ _ path_fuel)
      by (try apply path_length_fuel; assumption).
    f_equal. apply path_cells_ext; [|assumption].
    intros y1 x1 d1 Hf Hd1. apply in_frame_spec in Hf. apply E; tauto.
Qed.

(** [ramp_volume] with other cells outside the bounds. *)
Definition padded_volume : volume binary32 :=
  fun y x d => if in_frame y x && (0 <=? d) && (d <? MAX_DISP)
               then ramp_volume y x d else S754_nan.

Lemma aggregate_path_hls_in_bounds_witness :
  (forall y x d,
     ~ (0 <= y < HEIGHT /\ 0 <= x < WIDTH /\ 0 <= d < MAX_DISP) ->
     aggregate_path_hls ramp_volume zero_volume 1 (-1) y x d
     = zero_volume y x d) /\
  (1 <> 0 \/ -1 <> 0 ->
   forall y x d, 0 <= y < HEIGHT -> 0 <= x < WIDTH -> 0 <= d < MAX_DISP ->
     aggregate_path_hls ramp_volume zero_volume 1 (-1) y x d
     = aggregate_path_hls padded_volume ramp_volume 1 (-1) y x d).
Proof.
  apply (aggregate_path_hls_in_bounds binary32 binary32_ops ramp_volume
           padded_volume zero_volume ramp_volume 1 (-1)).
  intros y x d Hy Hx Hd. unfold padded_volume.
  assert (Hin : in_frame y x = true) by now apply in_frame_spec.
  rewrite Hin. destruct (Z.leb_spec 0 d), (Z.ltb_spec d MAX_DISP);
    try reflexivity; lia.
Defined.

(** X11: [compute_sad_cost_hls] stays inside its arrays: it writes no cell
    outside [HEIGHT x WIDTH x MAX_DISP], and the cells inside depend on the
    pixels [0 .. HEIGHT * WIDTH - 1] of the two images only. *)
Theorem compute_sad_cost_hls_in_bounds :
  forall (F : Type) (ops : FloatOps F) (l r l' r' : image F)
    (stale stale' : volume F),
    (forall i, 0 <= i < HEIGHT * WIDTH -> l i = l' i /\ r i = r' i) ->
    (forall y x d,
       ~ (0 <= y < HEIGHT /\ 0 <= x < WIDTH /\ 0 <= d < MAX_DISP) ->
       compute_sad_cost_hls l r stale y x d = stale y x d) /\
    (forall y x d, 0 <= y < HEIGHT -> 0 <= x < WIDTH -> 0 <= d < MAX_DISP ->
       compute_sad_cost_hls l r stale y x d
       = compute_sad_cost_hls l' r' stale' y x d).
Proof.
  intros F ops l r l' r' stale stale' E. split.
  - intros y x d. apply compute_sad_cost_outside.
  - intros y x d Hy Hx Hd. rewrite !compute_sad_cost_at by assumption.
    apply sad_cell_ext; [assumption| |assumption]. now apply in_frame_spec.
Qed.

(** [ramp_image] with other pixels outside the bounds. *)
Definition padded_image : image binary32 :=
  fun i => if (0 <=? i) && (i <? HEIGHT * WIDTH) then ramp_image i else S754_nan.

Lemma compute_sad_cost_hls_in_bounds_witness :
  (forall y x d,
     ~ (0 <= y < HEIGHT /\ 0 <= x < WIDTH /\ 0 <= d < MAX_DISP) ->
     compute_sad_cost_hls ramp_image step_image ramp_volume y x d
     = ramp_volume y x d) /\
  (forall y x d, 0 <= y < HEIGHT -> 0 <= x < WIDTH -> 0 <= d < MAX_DISP ->
     compute_sad_cost_hls ramp_image step_image ramp_volume y x d
     = compute_sad_cost_hls padded_image step_image zero_volume y x d).
Proof.
  apply (compute_sad_cost_hls_in_bounds binary32 binary32_ops ramp_image
           step_image padded_image step_image).
  intros i Hi. split; [|reflexivity]. unfold padded_image.
  destruct (Z.leb_spec 0 i), (Z.ltb_spec i (HEIGHT * WIDTH));
    try reflexivity; lia.
Defined.

(** * Not-a-number pixels *)

Lemma b32_is_nan_eq (x : binary32) : b32_is_nan x = true <-> x = S754_nan.
Proof. destruct x; simpl; split; congruence. Qed.

Lemma SFadd_nan_l (y : binary32) : SFadd 24 128 S754_nan y = S754_nan.
Proof. reflexivity. Qed.

Lemma SFadd_nan_r (x : binary32) : SFadd 24 128 x S754_nan = S754_nan.
Proof. now destruct x. Qed.

Lemma SFsub_nan_l (y : binary32) : SFsub 24 128 S754_nan y = S754_nan.
Proof. reflexivity. Qed.

Lemma SFsub_nan_r (x : binary32) : SFsub 24 128 x S754_nan = S754_nan.
Proof. now destruct x. Qed.

Lemma SFltb_nan_r (x : binary32) : SFltb x S754_nan = false.
Proof. now destruct x as [[|]|[|]| |[|] m e]. Qed.

Lemma SFltb_nan_l (y : binary32) : SFltb S754_nan y = false.
Proof. reflexivity. Qed.

(** The scan for the minimum starts from cell 0 and replaces it by a cell
    strictly below: a NaN in cell 0 stays. *)
Lemma min_prev_aggregated_nan (cells : Z -> binary32) :
  cells 0 = S754_nan -> min_prev_aggregated cells = S754_nan.
Proof.
  intros E. unfold min_prev_aggregated. rewrite for_up_steps, E.
  generalize (steps 1 1 (Z.to_nat (MAX_DISP - 1))). intros l.
  induction l as [|i l IH]; [reflexivity|].
  rewrite foldi_cons. cbn [flt binary32_ops]. now rewrite SFltb_nan_r.
Qed.

Lemma path_cell_nan_min (cost : binary32) (prev : Z -> binary32) (d : Z) :
  path_cell cost prev S754_nan d = S754_nan.
Proof.
  unfold path_cell. cbn [fadd fsub binary32_ops].
  now rewrite SFsub_nan_r, SFadd_nan_r.
Qed.

Lemma path_cell_nan_cost (prev : Z -> binary32) (m : binary32) (d : Z) :
  path_cell S754_nan prev m d = S754_nan.
Proof. reflexivity. Qed.

Section NanPath.

Variables (cost stale : volume binary32) (dir_y dir_x : Z).
Hypothesis direction : dir_y <> 0 \/ dir_x <> 0.
Variables y0 x0 : Z.
Hypothesis source_in_frame : in_frame y0 x0 = true.
Hypothesis source_nan : cost y0 x0 0 = S754_nan.

Let aggregated := aggregate_path_hls cost stale dir_y dir_x.

Lemma nan_source : aggregated y0 x0 0 = S754_nan.
Proof.
  pose proof source_in_frame as Hin. apply in_frame_spec in Hin.
  unfold aggregated. rewrite aggregate_path_at
    by (try assumption; try tauto; unfold MAX_DISP; lia).
  unfold path_step. rewrite source_nan.
  destruct (in_frame (y0 - dir_y) (x0 - dir_x));
    [apply path_cell_nan_cost|reflexivity].
Qed.

Lemma nan_successor (y x : Z) :
  in_frame y x = true -> in_frame (y - dir_y) (x - dir_x) = true ->
  aggregated (y - dir_y) (x - dir_x) 0 = S754_nan ->
  forall d, 0 <= d < MAX_DISP -> aggregated y x d = S754_nan.
Proof.
  intros Hin Hpred E d Hd. apply in_frame_spec in Hin.
  unfold aggregated in *. rewrite aggregate_path_at by (assumption || tauto).
  unfold path_step. rewrite Hpred.
  rewrite (min_prev_aggregated_nan _ E). apply path_cell_nan_min.
Qed.

(** Every pixel after the source on the line of the direction. *)
Lemma nan_line (k : nat) :
  in_frame (y0 + Z.of_nat (S k) * dir_y) (x0 + Z.of_nat (S k) * dir_x) = true ->
  forall d, 0 <= d < MAX_DISP ->
    aggregated (y0 + Z.of_nat (S k) * dir_y) (x0 + Z.of_nat (S k) * dir_x) d
    = S754_nan.
Proof.
  induction k as [|k IH]; intros Hin d Hd.
  - apply nan_successor; try assumption.
    + replace (y0 + Z.of_nat 1 * dir_y - dir_y) with y0 by lia.
      replace (x0 + Z.of_nat 1 * dir_x - dir_x) with x0 by lia.
      exact source_in_frame.
    + replace (y0 + Z.of_nat 1 * dir_y - dir_y) with y0 by lia.
      replace (x0 + Z.of_nat 1 * dir_x - dir_x) with x0 by lia.
      exact nan_source.
  - assert (Ey : y0 + Z.of_nat (S (S k)) * dir_y - dir_y
                 = y0 + Z.of_nat (S k) * dir_y) by lia.
    assert (Ex : x0 + Z.of_nat (S (S k)) * dir_x - dir_x
                 = x0 + Z.of_nat (S k) * dir_x) by lia.
    assert (Hpred : in_frame (y0 + Z.of_nat (S k) * dir_y)
                      (x0 + Z.of_nat (S k) * dir_x) = true).
    { pose proof source_in_frame as H0.
      apply in_frame_spec. apply in_frame_spec in Hin, H0.
      rewrite !Nat2Z.inj_succ in *. unfold HEIGHT, WIDTH in *.
      destruct (Z.le_gt_cases 0 dir_y), (Z.le_gt_cases 0 dir_x); nia. }
    apply nan_successor; try assumption; rewrite Ey, Ex; try assumption.
    apply IH; [assumption|unfold MAX_DISP; lia].
Qed.

End NanPath.

Lemma nan_ray (cost stale : volume binary32) (dir_y dir_x y0 x0 k row col d : Z) :
  dir_y <> 0 \/ dir_x <> 0 ->
  in_frame y0 x0 = true -> cost y0 x0 0 = S754_nan ->
  0 < k -> row = y0 + k * dir_y -> col = x0 + k * dir_x ->
  in_frame row col = true -> 0 <= d < MAX_DISP ->
  aggregate_path_hls cost stale dir_y dir_x row col d = S754_nan.
Proof.
  intros Hdir H0 Hnan Hk -> -> Hin Hd.
  replace k with (Z.of_nat (S (Z.to_nat (k - 1)))) in * by lia.
  now apply nan_line.
Qed.

Lemma sad_cell_nan (left_pixels right_pixels : image binary32) (y x : Z) :
  b32_is_nan (left_pixels (y * WIDTH + x)) = true \/
  b32_is_nan (right_pixels (y * WIDTH + x)) = true ->
  0 <= x -> sad_cell left_pixels right_pixels y x 0 = S754_nan.
Proof.
  intros Hnan Hx. unfold sad_cell. rewrite Z.sub_0_r.
  destruct (Z.geb_spec x 0); [|lia]. cbn [fabs fsub binary32_ops].
  destruct Hnan as [E|E]; apply b32_is_nan_eq in E; rewrite E.
  - reflexivity.
  - now rewrite SFsub_nan_r.
Qed.

(** X1: a pixel that is not a number, in either image, costs its whole row
    and its whole column their disparities: every other pixel of that row
    or that column gets disparity 0, whatever the rest of the images
    holds. *)
Theorem sgm_hls_nan_pixel :
  forall (left_pixels right_pixels : image binary32) (st : sgm_state)
    (out : dispmap) (y0 x0 row col : Z),
    0 <= y0 < HEIGHT -> 0 <= x0 < WIDTH ->
    b32_is_nan (left_pixels (y0 * WIDTH + x0)) = true \/
    b32_is_nan (right_pixels (y0 * WIDTH + x0)) = true ->
    0 <= row < HEIGHT -> 0 <= col < WIDTH ->
    (row = y0 /\ col <> x0) \/ (col = x0 /\ row <> y0) ->
    snd (sgm_hls left_pixels right_pixels st out) (row * WIDTH + col) = 0.
Proof.
  intros l r st out y0 x0 row col Hy0 Hx0 Hnan Hrow Hcol Hline.
  unfold sgm_hls. cbn [snd]. rewrite sgm_select_at by assumption.
  apply best_disparity_default. intros d Hd.
  assert (H0 : in_frame y0 x0 = true) by now apply in_frame_spec.
  assert (Hin : in_frame row col = true) by now apply in_frame_spec.
  set (cv := compute_sad_cost_hls l r (cost_volume_s st)).
  assert (Hsrc : cv y0 x0 0 = S754_nan).
  { unfold cv. rewrite compute_sad_cost_at by (unfold MAX_DISP; lia).
    apply sad_cell_nan; [assumption|lia]. }
  unfold total_aggregated_cost, sgm_volumes.
  cbn [path_left_to_right path_right_to_left path_top_to_bottom
       path_bottom_to_top]. fold cv.
  cbn [fadd flt binary32_ops].
  assert (Hcase : (row = y0 /\ x0 < col) \/ (row = y0 /\ col < x0) \/
                  (col = x0 /\ y0 < row) \/ (col = x0 /\ row < y0)) by lia.
  destruct Hcase as [(Er & Hlt)|[(Er & Hlt)|[(Ec & Hlt)|(Ec & Hlt)]]].
  - rewrite (nan_ray cv (path_left_to_right st) 0 1 y0 x0 (col - x0) row col d)
      by (assumption || lia). reflexivity.
  - rewrite (nan_ray cv (path_right_to_left st) 0 (-1) y0 x0 (x0 - col) row col d)
      by (assumption || lia). now rewrite SFadd_nan_r.
  - rewrite (nan_ray cv (path_top_to_bottom st) 1 0 y0 x0 (row - y0) row col d)
      by (assumption || lia). now rewrite SFadd_nan_r.
  - rewrite (nan_ray cv (path_bottom_to_top st) (-1) 0 y0 x0 (y0 - row) row col d)
      by (assumption || lia). now rewrite SFadd_nan_r.
Qed.

Definition nan_image : image binary32 :=
  fun i => if i =? 100 * WIDTH + 99 then S754_nan else b32_of_int (i mod 7 * 30).

Lemma sgm_hls_nan_pixel_witness :
  snd (sgm_hls nan_image step_image zero_state zero_map) (100 * WIDTH + 150) = 0.
Proof.
  apply (sgm_hls_nan_pixel nan_image step_image zero_state zero_map 100 99).
  - unfold HEIGHT. lia.
  - unfold WIDTH. lia.
  - left. reflexivity.
  - unfold HEIGHT. lia.
  - unfold WIDTH. lia.
  - left. lia.
Defined.

(** The minimum scan yields a NaN exactly when cell 0 is one. *)
Lemma running_min_not_nan (cells : Z -> binary32) (l : list Z) (m : binary32) :
  b32_is_nan m = false ->
  b32_is_nan (foldi l (fun i m => if flt (cells i) m then cells i else m) m)
  = false.
Proof.
  revert m. induction l as [|i l IH]; intros m Hm; [exact Hm|].
  rewrite foldi_cons. apply IH.
  destruct (flt (cells i) m) eqn:E; [|exact Hm].
  cbn [flt binary32_ops] in E. destruct (cells i); [reflexivity..|discriminate|reflexivity].
Qed.

(** X2: the minimum over the disparities of the previous pixel is a NaN
    exactly when the cell of disparity 0 is one: a NaN in cell 0 survives
    every comparison, a NaN in another cell loses every comparison. *)
Theorem min_prev_aggregated_nan_iff :
  forall cells : Z -> binary32,
    b32_is_nan (min_prev_aggregated cells) = b32_is_nan (cells 0).
Proof.
  intros cells. destruct (b32_is_nan (cells 0)) eqn:E.
  - apply b32_is_nan_eq in E. now rewrite (min_prev_aggregated_nan cells E).
  - unfold min_prev_aggregated. rewrite for_up_steps.
    now apply running_min_not_nan.
Qed.

(** * Intensities: the costs and the winner *)

Lemma number_not_nan (x : binary32) : b32_number x = true -> b32_is_nan x = false.
Proof. destruct x; simpl; congruence. Qed.

Lemma below_1e9 (x : binary32) :
  at_most 4516 x -> SFltb x (b32_of_int 1000000000) = true.
Proof.
  intros (Hn & Hb).
  change (b32_of_int 1000000000) with (S754_finite false 15625000 6).
  rewrite SFltb_number by (assumption || reflexivity).
  apply Z.ltb_lt. cbn [b32_ulps].
  apply Z.le_lt_trans with (4516 * unit149); [assumption|].
  unfold unit149. rewrite (Z.pow_add_r 2 6 149) by lia. change (2 ^ 6) with 64.
  pose proof (pow2_pos 149 ltac:(lia)). lia.
Qed.

(** The winner among totals that are numbers below 1e9. *)
Lemma winner_of_numbers (total : Z -> binary32) :
  (forall d, 0 <= d < MAX_DISP -> at_most 4516 (total d)) ->
  let best := best_disparity total in
  0 <= best < MAX_DISP /\
  (forall d, 0 <= d < MAX_DISP -> SFltb (total d) (total best) = false) /\
  (forall d, 0 <= d < best -> SFltb (total best) (total d) = true).
Proof.
  intros Ht.
  assert (H0 : 0 <= 0 < MAX_DISP) by (unfold MAX_DISP; lia).
  assert (Hsome : exists d, 0 <= d < MAX_DISP /\
                    flt (total d) (of_int 1000000000) = true).
  { exists 0. split; [assumption|]. cbn [flt of_int binary32_ops].
    apply below_1e9, Ht, H0. }
  destruct (best_disparity_first_minimum total Hsome) as (Hb & Hmin & Hfirst).
  cbn zeta in *. split; [exact Hb|]. split.
  - intros d Hd. exact (Hmin d Hd).
  - intros d Hd. apply (Hfirst d Hd). cbn [fnan binary32_order].
    apply number_not_nan. destruct (Ht d ltac:(lia)) as (Hn & _). exact Hn.
Qed.

Lemma total_sum {F : Type} `{FloatOps F} (vols : sgm_state) (row col d : Z) :
  fadd (fadd (fadd (path_left_to_right vols row col d)
                   (path_right_to_left vols row col d))
             (path_top_to_bottom vols row col d))
       (path_bottom_to_top vols row col d)
  = total_aggregated_cost vols row col d.
Proof. reflexivity. Qed.

(** C4: on every pair of images whose pixels are binary32 numbers between
    0 and 255, whole or not, and at every pixel, [total[d]] is the sum of
    the four aggregated volumes at [[row][col][d]], a number, and [sgm_hls]
    outputs the smallest disparity index achieving the minimum total: a
    disparity of the range that no total is strictly below and that every
    smaller disparity is strictly above - among equal minimal totals the
    smallest index is selected. *)
Theorem sgm_hls_smallest_minimum :
  forall (left_pixels right_pixels : image binary32) (st : sgm_state)
    (out : dispmap) (row col : Z),
    (forall i, 0 <= i < HEIGHT * WIDTH ->
       b32_intensity (left_pixels i) = true /\
       b32_intensity (right_pixels i) = true) ->
    0 <= row < HEIGHT -> 0 <= col < WIDTH ->
    let run := sgm_hls left_pixels right_pixels st out in
    let vols := fst run in
    let total := fun d =>
      fadd (fadd (fadd (path_left_to_right vols row col d)
                       (path_right_to_left vols row col d))
                 (path_top_to_bottom vols row col d))
           (path_bottom_to_top vols row col d) in
    let best := snd run (row * WIDTH + col) in
    0 <= best < MAX_DISP /\
    (forall d, 0 <= d < MAX_DISP -> b32_number (total d) = true) /\
    (forall d, 0 <= d < MAX_DISP ->
       flt (total d) (total best) = false /\
       b32_ulps (total best) <= b32_ulps (total d)) /\
    (forall d, 0 <= d < best ->
       flt (total best) (total d) = true /\
       b32_ulps (total best) < b32_ulps (total d)).
Proof.
  intros l r st out row col Hpix Hrow Hcol. cbv zeta.
  unfold sgm_hls. cbn [fst snd]. rewrite sgm_select_at by assumption.
  assert (Hin : in_frame row col = true) by now apply in_frame_spec.
  assert (Hl : forall i, 0 <= i < HEIGHT * WIDTH -> b32_intensity (l i) = true)
    by (intros i Hi; now destruct (Hpix i Hi)).
  assert (Hr : forall i, 0 <= i < HEIGHT * WIDTH -> b32_intensity (r i) = true)
    by (intros i Hi; now destruct (Hpix i Hi)).
  assert (Ht : forall d, 0 <= d < MAX_DISP ->
            at_most 4516 (total_aggregated_cost (sgm_volumes l r st) row col d)).
  { intros d Hd. now apply total_rounded. }
  revert Ht. generalize (sgm_volumes l r st). intros vols Ht.
  destruct (winner_of_numbers _ Ht) as (Hb & Hmin & Hfirst).
  cbn zeta in *.
  set (best := best_disparity (total_aggregated_cost vols row col)) in *.
  clearbody best.
  assert (Hn : forall d, 0 <= d < MAX_DISP ->
            b32_number (total_aggregated_cost vols row col d) = true).
  { intros d Hd. now destruct (Ht d Hd). }
  split; [exact Hb|]. split; [|split].
  - intros d Hd. rewrite total_sum. now apply Hn.
  - intros d Hd. rewrite !total_sum. cbn [flt binary32_ops].
    split; [exact (Hmin d Hd)|].
    apply number_le; [apply Hn, Hb|apply Hn, Hd|exact (Hmin d Hd)].
  - intros d Hd. rewrite !total_sum. cbn [flt binary32_ops].
    split; [exact (Hfirst d Hd)|].
    apply Z.ltb_lt. rewrite <- SFltb_number by (apply Hn; lia).
    exact (Hfirst d Hd).
Qed.

Lemma step_image_intensity (i : Z) :
  0 <= i < HEIGHT * WIDTH -> b32_intensity (step_image i) = true.
Proof.
  intros Hi. destruct (step_image_grey i Hi) as (Hb & E).
  apply andb_true_iff. split.
  - destruct (b32_of_int_number (step_levels i)) as (Hn & _); [lia|exact Hn].
  - apply negb_true_iff. rewrite E.
    change (@flt binary32 _ (of_int 255) (of_int (step_levels i)) = false).
    rewrite (exact_lt (F := binary32) 255 (step_levels i)) by (try left; lia).
    apply Z.ltb_ge. lia.
Qed.

Lemma sgm_hls_smallest_minimum_witness :
  let run := sgm_hls quarter_image step_image ramp_state stale_map in
  let vols := fst run in
  let total := fun d =>
    fadd (fadd (fadd (path_left_to_right vols 100 100 d)
                     (path_right_to_left vols 100 100 d))
               (path_top_to_bottom vols 100 100 d))
         (path_bottom_to_top vols 100 100 d) in
  let best := snd run (100 * WIDTH + 100) in
  0 <= best < MAX_DISP /\
  (forall d, 0 <= d < MAX_DISP -> b32_number (total d) = true) /\
  (forall d, 0 <= d < MAX_DISP ->
     flt (total d) (total best) = false /\
     b32_ulps (total best) <= b32_ulps (total d)) /\
  (forall d, 0 <= d < best ->
     flt (total best) (total d) = true /\
     b32_ulps (total best) < b32_ulps (total d)).
Proof.
  apply (sgm_hls_smallest_minimum quarter_image step_image ramp_state stale_map
           100 100).
  - intros i Hi. split; [apply quarter_image_intensity|].
    now apply step_image_intensity.
  - unfold HEIGHT. lia.
  - unfold WIDTH. lia.
Defined.

(** X8: on images whose pixels are binary32 numbers between 0 and 255 the
    initial value 1e9 of the running minimum never decides: every total is
    below it, the disparity selected has a total that no other total is
    below, and every smaller disparity has a strictly larger total - the
    selected disparity is the smallest one of minimal total. *)
Theorem sgm_hls_intensity_first_minimum :
  forall (left_pixels right_pixels : image binary32) (st : sgm_state)
    (out : dispmap) (row col : Z),
    (forall i, 0 <= i < HEIGHT * WIDTH ->
       b32_intensity (left_pixels i) = true /\
       b32_intensity (right_pixels i) = true) ->
    0 <= row < HEIGHT -> 0 <= col < WIDTH ->
    let run := sgm_hls left_pixels right_pixels st out in
    let total := total_aggregated_cost (fst run) row col in
    let best := snd run (row * WIDTH + col) in
    (forall d, 0 <= d < MAX_DISP ->
       flt (total d) (of_int 1000000000) = true) /\
    (forall d, 0 <= d < MAX_DISP -> flt (total d) (total best) = false) /\
    (forall d, 0 <= d < best -> flt (total best) (total d) = true).
Proof.
  intros l r st out row col Hpix Hrow Hcol run total best.
  assert (Hin : in_frame row col = true) by now apply in_frame_spec.
  assert (Hl : forall i, 0 <= i < HEIGHT * WIDTH -> b32_intensity (l i) = true)
    by (intros i Hi; now destruct (Hpix i Hi)).
  assert (Hr : forall i, 0 <= i < HEIGHT * WIDTH -> b32_intensity (r i) = true)
    by (intros i Hi; now destruct (Hpix i Hi)).
  assert (Ht : forall d, 0 <= d < MAX_DISP -> at_most 4516 (total d)).
  { intros d Hd. subst total run. unfold sgm_hls. cbn [fst].
    now apply total_rounded. }
  assert (Eb : best = best_disparity total).
  { subst best total run. unfold sgm_hls. cbn [fst snd].
    now apply sgm_select_at. }
  clearbody total best. subst best. clear run.
  destruct (winner_of_numbers total Ht) as (_ & Hmin & Hfirst).
  cbn zeta in *. cbn [flt of_int binary32_ops]. split; [|split].
  - intros d Hd. apply below_1e9, Ht, Hd.
  - exact Hmin.
  - exact Hfirst.
Qed.

Lemma sgm_hls_intensity_first_minimum_witness :
  let run := sgm_hls quarter_image quarter_image zero_state zero_map in
  let total := total_aggregated_cost (fst run) 3 2 in
  let best := snd run (3 * WIDTH + 2) in
  (forall d, 0 <= d < MAX_DISP ->
     flt (total d) (of_int 1000000000) = true) /\
  (forall d, 0 <= d < MAX_DISP -> flt (total d) (total best) = false) /\
  (forall d, 0 <= d < best -> flt (total best) (total d) = true).
Proof.
  apply (sgm_hls_intensity_first_minimum quarter_image quarter_image
           zero_state zero_map 3 2).
  - intros i _. split; apply quarter_image_intensity.
  - unfold HEIGHT. lia.
  - unfold WIDTH. lia.
Defined.

(** X9: on images whose pixels are binary32 numbers between 0 and 255,
    whole or not, the cost of an admissible disparity, [d <= col], is a
    number between 0 and 255, strictly below the 1000 that the disparities
    [d > col] receive. *)
Theorem compute_sad_cost_hls_intensity :
  forall (left_pixels right_pixels : image binary32) (stale : volume binary32)
    (row col d d' : Z),
    (forall i, 0 <= i < HEIGHT * WIDTH ->
       b32_intensity (left_pixels i) = true /\
       b32_intensity (right_pixels i) = true) ->
    0 <= row < HEIGHT -> 0 <= col < WIDTH ->
    0 <= d <= col -> d < MAX_DISP -> col < d' < MAX_DISP ->
    let cost := compute_sad_cost_hls left_pixels right_pixels stale in
    b32_intensity (cost row col d) = true /\
    flt (cost row col d) (cost row col d') = true.
Proof.
  intros l r stale row col d d' Hpix Hrow Hcol Hd Hd16 Hd' cost.
  assert (Hin : in_frame row col = true) by now apply in_frame_spec.
  assert (Hl : forall i, 0 <= i < HEIGHT * WIDTH -> b32_intensity (l i) = true)
    by (intros i Hi; now destruct (Hpix i Hi)).
  assert (Hr : forall i, 0 <= i < HEIGHT * WIDTH -> b32_intensity (r i) = true)
    by (intros i Hi; now destruct (Hpix i Hi)).
  subst cost. rewrite !compute_sad_cost_at by lia.
  destruct (sad_cell_rounded l r Hl Hr row col d Hin ltac:(lia))
    as (_ & _ & Hlow).
  specialize (Hlow ltac:(lia)).
  set (c := sad_cell l r row col d) in *. clearbody c.
  assert (E : sad_cell l r row col d' = b32_of_int 1000).
  { unfold sad_cell. destruct (Z.geb_spec (col - d') 0); [lia|reflexivity]. }
  rewrite E. cbn [flt binary32_ops]. split.
  - unfold b32_intensity. apply andb_true_iff. split; [apply Hlow|].
    apply negb_true_iff. apply at_most_not_above; [exact Hlow|lia].
  - apply (at_most_below c 255 1000); [exact Hlow|lia|lia].
Qed.

Lemma compute_sad_cost_hls_intensity_witness :
  let cost := compute_sad_cost_hls quarter_image quarter_image zero_volume in
  b32_intensity (cost 3 2 1) = true /\ flt (cost 3 2 1) (cost 3 2 7) = true.
Proof.
  apply (compute_sad_cost_hls_intensity quarter_image quarter_image zero_volume
           3 2 1 7).
  - intros i _. split; apply quarter_image_intensity.
  - unfold HEIGHT. lia.
  - unfold WIDTH. lia.
  - lia.
  - unfold MAX_DISP. lia.
  - unfold MAX_DISP. lia.
Defined.

(** * Grey-level images: the run on integers *)

(** On grey-level images [sgm_hls] selects the winner of the integer
    totals [total_z]. *)
Lemma sgm_hls_exact_winner {F : Type} `{IntegerExact F}
  (left_pixels right_pixels : image F) (zl zr : Z -> Z) (st : sgm_state)
  (out : dispmap) (row col : Z) :
  grey_levels left_pixels zl -> grey_levels right_pixels zr ->
  0 <= row < HEIGHT -> 0 <= col < WIDTH ->
  snd (sgm_hls left_pixels right_pixels st out) (row * WIDTH + col)
  = best_disparity (total_z zl zr row col).
Proof.
  intros Hl Hr Hrow Hcol.
  assert (Hin : in_frame row col = true) by now apply in_frame_spec.
  unfold sgm_hls. cbn [snd]. rewrite sgm_select_at by assumption.
  apply best_disparity_exact. intros d Hd.
  destruct (sgm_totals_exact left_pixels right_pixels zl zr Hl Hr st row col d
              Hin Hd) as (E & Hb).
  destruct (sad_cell_exact left_pixels right_pixels zl zr Hl Hr row col d Hin Hd)
    as (_ & Hhigh & Hlow).
  split; [exact E|]. unfold P2_PENALTY in Hb.
  destruct (Z.lt_ge_cases col d); [rewrite Hhigh in Hb by assumption|]; lia.
Qed.

Lemma grey_levels_Z (z : Z -> Z) :
  (forall i, 0 <= i < HEIGHT * WIDTH -> 0 <= z i <= 255) -> grey_levels z z.
Proof. intros Hz i Hi. split; [now apply Hz|reflexivity]. Qed.

(** X3: on images of integer grey levels the binary32 arithmetic of the
    core never rounds: every total is the binary32 image of the total
    computed on exact integers, an integer between 0 and 4512, and the
    disparity selected is the one selected on exact integers. *)
Theorem sgm_hls_binary32_exact :
  forall (left_pixels right_pixels : image binary32) (zl zr : Z -> Z)
    (st : sgm_state (F := binary32)) (stz : sgm_state (F := Z))
    (out outz : dispmap) (row col : Z),
    grey_levels left_pixels zl -> grey_levels right_pixels zr ->
    0 <= row < HEIGHT -> 0 <= col < WIDTH ->
    let run := sgm_hls left_pixels right_pixels st out in
    let runz := sgm_hls zl zr stz outz in
    (forall d, 0 <= d < MAX_DISP ->
       total_aggregated_cost (fst run) row col d
       = b32_of_int (total_aggregated_cost (fst runz) row col d) /\
       0 <= total_aggregated_cost (fst runz) row col d <= 4512) /\
    snd run (row * WIDTH + col) = snd runz (row * WIDTH + col).
Proof.
  intros l r zl zr st stz out outz row col Hl Hr Hrow Hcol run runz.
  assert (Hin : in_frame row col = true) by now apply in_frame_spec.
  assert (Hzl : grey_levels zl zl).
  { apply grey_levels_Z. intros i Hi. now destruct (Hl i Hi). }
  assert (Hzr : grey_levels zr zr).
  { apply grey_levels_Z. intros i Hi. now destruct (Hr i Hi). }
  split.
  - intros d Hd. subst run runz. unfold sgm_hls. cbn [fst].
    destruct (sgm_totals_exact l r zl zr Hl Hr st row col d Hin Hd) as (-> & _).
    destruct (sgm_totals_exact zl zr zl zr Hzl Hzr stz row col d Hin Hd)
      as (-> & Hb).
    destruct (sad_cell_exact zl zr zl zr Hzl Hzr row col d Hin Hd)
      as (_ & Hhigh & Hlow).
    cbn [of_int Z_ops binary32_ops]. split; [reflexivity|].
    unfold P2_PENALTY in Hb.
    destruct (Z.lt_ge_cases col d); [rewrite Hhigh in Hb by assumption|]; lia.
  - subst run runz.
    rewrite (sgm_hls_exact_winner l r zl zr) by assumption.
    rewrite (sgm_hls_exact_winner zl zr zl zr) by assumption.
    reflexivity.
Qed.

Lemma sgm_hls_binary32_exact_witness :
  let run := sgm_hls ramp_image step_image ramp_state stale_map in
  let runz := sgm_hls ramp_levels step_levels
                {| cost_volume_s := fun _ _ _ => 7;
                   path_left_to_right := fun _ _ _ => 0;
                   path_right_to_left := fun y x d => y + x + d;
                   path_top_to_bottom := fun _ _ _ => 1;
                   path_bottom_to_top := fun _ _ _ => 2 |} zero_map in
  (forall d, 0 <= d < MAX_DISP ->
     total_aggregated_cost (fst run) 100 100 d
     = b32_of_int (total_aggregated_cost (fst runz) 100 100 d) /\
     0 <= total_aggregated_cost (fst runz) 100 100 d <= 4512) /\
  snd run (100 * WIDTH + 100) = snd runz (100 * WIDTH + 100).
Proof.
  apply (sgm_hls_binary32_exact ramp_image step_image ramp_levels step_levels).
  - exact ramp_image_grey.
  - exact step_image_grey.
  - unfold HEIGHT. lia.
  - unfold WIDTH. lia.
Defined.

(** The integer totals depend on the images through the costs. *)
Lemma total_z_ext (zl zr zl' zr' : Z -> Z) (row col d : Z) :
  (forall y x d, in_frame y x = true -> 0 <= d < MAX_DISP ->
     sad_cell zl zr y x d = sad_cell zl' zr' y x d) ->
  in_frame row col = true -> 0 <= d < MAX_DISP ->
  total_z zl zr row col d = total_z zl' zr' row col d.
Proof.
  intros E Hin Hd. unfold total_z, path_z.
  rewrite !(aggregate_path_cells _ _ _ _ path_fuel)
    by (try apply path_length_fuel; assumption || lia).
  now rewrite !(path_cells_ext (sad_cell zl zr) (sad_cell zl' zr')) by assumption.
Qed.

Lemma sgm_hls_same_costs {F : Type} `{IntegerExact F}
  (l r l' r' : image F) (zl zr zl' zr' : Z -> Z) (st st' : sgm_state)
  (out out' : dispmap) (row col : Z) :
  grey_levels l zl -> grey_levels r zr ->
  grey_levels l' zl' -> grey_levels r' zr' ->
  (forall y x d, in_frame y x = true -> 0 <= d < MAX_DISP ->
     sad_cell zl zr y x d = sad_cell zl' zr' y x d) ->
  0 <= row < HEIGHT -> 0 <= col < WIDTH ->
  snd (sgm_hls l' r' st' out') (row * WIDTH + col)
  = snd (sgm_hls l r st out) (row * WIDTH + col).
Proof.
  intros Hl Hr Hl' Hr' E Hrow Hcol.
  rewrite (sgm_hls_exact_winner l r zl zr) by assumption.
  rewrite (sgm_hls_exact_winner l' r' zl' zr') by assumption.
  apply best_disparity_ext. intros d Hd. symmetry.
  apply total_z_ext; [assumption| |assumption]. now apply in_frame_spec.
Qed.

(** X4: the disparity map of a pair of grey-level images does not change
    when the same offset is added to every pixel of both images, as long as
    the pixels stay grey levels. *)
Theorem sgm_hls_brightness_offset :
  forall (l r l' r' : image binary32) (zl zr : Z -> Z) (c : Z)
    (st st' : sgm_state) (out out' : dispmap) (row col : Z),
    grey_levels l zl -> grey_levels r zr ->
    grey_levels l' (fun i => zl i + c) -> grey_levels r' (fun i => zr i + c) ->
    0 <= row < HEIGHT -> 0 <= col < WIDTH ->
    snd (sgm_hls l' r' st' out') (row * WIDTH + col)
    = snd (sgm_hls l r st out) (row * WIDTH + col).
Proof.
  intros l r l' r' zl zr c st st' out out' row col Hl Hr Hl' Hr' Hrow Hcol.
  apply (sgm_hls_same_costs l r l' r' zl zr (fun i => zl i + c)
           (fun i => zr i + c)); try assumption.
  intros y x d _ _. rewrite !sad_cell_Z.
  destruct (x - d >=? 0); [f_equal; lia|reflexivity].
Qed.

(** X5: the disparity map of a pair of grey-level images does not change
    when both images are replaced by their negatives, [255 - pixel]. *)
Theorem sgm_hls_negative :
  forall (l r l' r' : image binary32) (zl zr : Z -> Z)
    (st st' : sgm_state) (out out' : dispmap) (row col : Z),
    grey_levels l zl -> grey_levels r zr ->
    grey_levels l' (fun i => 255 - zl i) -> grey_levels r' (fun i => 255 - zr i) ->
    0 <= row < HEIGHT -> 0 <= col < WIDTH ->
    snd (sgm_hls l' r' st' out') (row * WIDTH + col)
    = snd (sgm_hls l r st out) (row * WIDTH + col).
Proof.
  intros l r l' r' zl zr st st' out out' row col Hl Hr Hl' Hr' Hrow Hcol.
  apply (sgm_hls_same_costs l r l' r' zl zr (fun i => 255 - zl i)
           (fun i => 255 - zr i)); try assumption.
  intros y x d _ _. rewrite !sad_cell_Z.
  destruct (x - d >=? 0); [lia|reflexivity].
Qed.

Lemma levels_image_grey (z : Z -> Z) :
  (forall i, 0 <= z i <= 255) ->
  grey_levels (fun i => b32_of_int (z i)) z.
Proof. intros Hz i _. split; [apply Hz|reflexivity]. Qed.

Lemma ramp_levels_range (i : Z) : 0 <= ramp_levels i <= 180.
Proof. unfold ramp_levels. pose proof (Z.mod_pos_bound i 7 ltac:(lia)). lia. Qed.

Lemma step_levels_range (i : Z) : 0 <= step_levels i <= 200.
Proof. unfold step_levels. pose proof (Z.mod_pos_bound i 5 ltac:(lia)). lia. Qed.

Lemma sgm_hls_brightness_offset_witness :
  snd (sgm_hls (fun i => b32_of_int (ramp_levels i + 40))
         (fun i => b32_of_int (step_levels i + 40)) zero_state zero_map)
    (100 * WIDTH + 100)
  = snd (sgm_hls ramp_image step_image ramp_state stale_map) (100 * WIDTH + 100).
Proof.
  apply (sgm_hls_brightness_offset ramp_image step_image _ _
           ramp_levels step_levels 40).
  - exact ramp_image_grey.
  - exact step_image_grey.
  - apply (levels_image_grey (fun i => ramp_levels i + 40)).
    intros i. pose proof (ramp_levels_range i). lia.
  - apply (levels_image_grey (fun i => step_levels i + 40)).
    intros i. pose proof (step_levels_range i). lia.
  - unfold HEIGHT. lia.
  - unfold WIDTH. lia.
Defined.

Lemma sgm_hls_negative_witness :
  snd (sgm_hls (fun i => b32_of_int (255 - ramp_levels i))
         (fun i => b32_of_int (255 - step_levels i)) zero_state zero_map)
    (100 * WIDTH + 100)
  = snd (sgm_hls ramp_image step_image ramp_state stale_map) (100 * WIDTH + 100).
Proof.
  apply (sgm_hls_negative ramp_image step_image _ _ ramp_levels step_levels).
  - exact ramp_image_grey.
  - exact step_image_grey.
  - apply (levels_image_grey (fun i => 255 - ramp_levels i)).
    intros i. pose proof (ramp_levels_range i). lia.
  - apply (levels_image_grey (fun i => 255 - step_levels i)).
    intros i. pose proof (step_levels_range i). lia.
  - unfold HEIGHT. lia.
  - unfold WIDTH. lia.
Defined.

(** * Where disparity 0 is a best match everywhere *)

Section ZeroBest.

Variables zl zr : Z -> Z.
Hypothesis left_range : forall i, 0 <= i < HEIGHT * WIDTH -> 0 <= zl i <= 255.
Hypothesis right_range : forall i, 0 <= i < HEIGHT * WIDTH -> 0 <= zr i <= 255.
Hypothesis zero_best : forall y x d,
  in_frame y x = true -> 0 <= d < MAX_DISP ->
  sad_cell zl zr y x 0 <= sad_cell zl zr y x d.

Lemma path_z_lower (dy dx y x d : Z) :
  dy <> 0 \/ dx <> 0 -> in_frame y x = true -> 0 <= d < MAX_DISP ->
  sad_cell zl zr y x d <= path_z zl zr dy dx y x d <= 1128.
Proof.
  intros Hdir Hin Hd.
  destruct (sgm_path_exact zl zr zl zr (grey_levels_Z zl left_range)
              (grey_levels_Z zr right_range) (fun _ _ _ => 0) (fun _ _ _ => 0)
              dy dx y x d Hdir Hin Hd) as (_ & Hb).
  destruct (sad_cell_exact zl zr zl zr (grey_levels_Z zl left_range)
              (grey_levels_Z zr right_range) y x d Hin Hd) as (_ & Hhigh & Hlow).
  unfold P2_PENALTY in Hb.
  destruct (Z.lt_ge_cases x d); [rewrite Hhigh in * by assumption|]; lia.
Qed.

(** Along every path the aggregated cost of disparity 0 is its raw cost. *)
Lemma path_z_zero (dy dx : Z) :
  dy <> 0 \/ dx <> 0 ->
  forall y x, in_frame y x = true ->
    path_z zl zr dy dx y x 0 = sad_cell zl zr y x 0.
Proof.
  intros Hdir.
  apply (path_induction dy dx
    (fun y x => path_z zl zr dy dx y x 0 = sad_cell zl zr y x 0) Hdir).
  intros y x Hin IH. pose proof Hin as Hin'. apply in_frame_spec in Hin'.
  assert (H0 : 0 <= 0 < MAX_DISP) by (unfold MAX_DISP; lia).
  unfold path_z at 1. rewrite aggregate_path_at by (assumption || tauto).
  unfold path_step.
  destruct (in_frame (y - dy) (x - dx)) eqn:Hpred; [|reflexivity].
  specialize (IH eq_refl).
  assert (Hge : forall i, 0 <= i < MAX_DISP ->
    path_z zl zr dy dx (y - dy) (x - dx) 0
    <= path_z zl zr dy dx (y - dy) (x - dx) i <= 1128).
  { intros i Hi.
    pose proof (path_z_lower dy dx (y - dy) (x - dx) i Hdir Hpred Hi).
    pose proof (zero_best (y - dy) (x - dx) i Hpred Hi). lia. }
  unfold path_z in IH, Hge.
  set (pz := aggregate_path_hls (sad_cell zl zr) (fun _ _ _ => 0) dy dx
               (y - dy) (x - dx)) in *.
  destruct (min_prev_aggregated_Z pz) as ((j & Hj & Em) & Hle). cbn zeta in *.
  rewrite path_cell_Z.
  pose proof (Hle 0 H0). pose proof (Hge j Hj). pose proof (Hge 0 H0).
  pose proof (Hge 1 ltac:(unfold MAX_DISP; lia)).
  change (0 <? MAX_DISP - 1) with true. change (0 >? 0) with false.
  cbn iota. change (0 + 1) with 1.
  unfold P1_PENALTY, P2_PENALTY. lia.
Qed.

Lemma total_z_zero (row col d : Z) :
  in_frame row col = true -> 0 <= d < MAX_DISP ->
  total_z zl zr row col 0 <= total_z zl zr row col d <= 4512.
Proof.
  intros Hin Hd. unfold total_z.
  rewrite !path_z_zero by (assumption || lia).
  pose proof (zero_best row col d Hin Hd).
  pose proof (path_z_lower 0 1 row col d ltac:(lia) Hin Hd).
  pose proof (path_z_lower 0 (-1) row col d ltac:(lia) Hin Hd).
  pose proof (path_z_lower 1 0 row col d ltac:(lia) Hin Hd).
  pose proof (path_z_lower (-1) 0 row col d ltac:(lia) Hin Hd).
  lia.
Qed.

Lemma best_disparity_zero_best (row col : Z) :
  in_frame row col = true -> best_disparity (total_z zl zr row col) = 0.
Proof.
  intros Hin.
  destruct (best_disparity_Z (total_z zl zr row col)) as (Hr & _ & Hfirst).
  { intros d Hd. pose proof (total_z_zero row col d Hin Hd). lia. }
  cbn zeta in *.
  destruct (Z.eq_dec (best_disparity (total_z zl zr row col)) 0) as [E|Hne];
    [exact E|].
  pose proof (Hfirst 0 ltac:(lia)).
  pose proof (total_z_zero row col _ Hin Hr). lia.
Qed.

End ZeroBest.

(** X6: when, at every pixel of a pair of grey-level images, no admissible
    disparity matches better than disparity 0 - the absolute difference at
    disparity 0 is not above the one at any [d <= col] - the smoothing
    changes nothing to it: the map is 0 everywhere.  A flat right image is
    such a case, and so is a pair of identical images. *)
Theorem sgm_hls_zero_best :
  forall (left_pixels right_pixels : image binary32) (zl zr : Z -> Z)
    (st : sgm_state) (out : dispmap) (row col : Z),
    grey_levels left_pixels zl -> grey_levels right_pixels zr ->
    (forall y x d, 0 <= y < HEIGHT -> 0 <= x < WIDTH ->
       0 <= d <= x -> d < MAX_DISP ->
       Z.abs (zl (y * WIDTH + x) - zr (y * WIDTH + x))
       <= Z.abs (zl (y * WIDTH + x) - zr (y * WIDTH + (x - d)))) ->
    0 <= row < HEIGHT -> 0 <= col < WIDTH ->
    snd (sgm_hls left_pixels right_pixels st out) (row * WIDTH + col) = 0.
Proof.
  intros l r zl zr st out row col Hl Hr Hbest Hrow Hcol.
  rewrite (sgm_hls_exact_winner l r zl zr) by assumption.
  apply best_disparity_zero_best.
  - intros i Hi. now destruct (Hl i Hi).
  - intros i Hi. now destruct (Hr i Hi).
  - intros y x d Hin Hd. pose proof Hin as Hin'. apply in_frame_spec in Hin'.
    rewrite !sad_cell_Z. rewrite Z.sub_0_r.
    destruct (Z.geb_spec x 0); [|lia].
    destruct (Z.geb_spec (x - d) 0).
    + apply Hbest; lia.
    + destruct (Hl (y * WIDTH + x)) as (? & _); [unfold HEIGHT, WIDTH in *; nia|].
      destruct (Hr (y * WIDTH + x)) as (? & _); [unfold HEIGHT, WIDTH in *; nia|].
      lia.
  - now apply in_frame_spec.
Qed.

Lemma sgm_hls_zero_best_witness :
  snd (sgm_hls ramp_image (fun _ => b32_of_int 50) ramp_state stale_map)
    (100 * WIDTH + 100) = 0.
Proof.
  apply (sgm_hls_zero_best ramp_image (fun _ => b32_of_int 50)
           ramp_levels (fun _ => 50)).
  - exact ramp_image_grey.
  - apply (levels_image_grey (fun _ => 50)). intros _. lia.
  - intros y x d _ _ _ _. lia.
  - unfold HEIGHT. lia.
  - unfold WIDTH. lia.
Defined.

(** * The pixels a disparity depends on *)

(** The cells of a path at a pixel depend on the costs of the pixels of
    its line only: [on_line] is any set of pixels closed under the step
    back. *)
Lemma path_cells_ext_line {F : Type} `{FloatOps F} (cost cost' : volume F)
  (dir_y dir_x : Z) (on_line : Z -> Z -> Prop) :
  (forall y x, on_line y x -> on_line (y - dir_y) (x - dir_x)) ->
  (forall y x d, on_line y x -> in_frame y x = true -> 0 <= d < MAX_DISP ->
     cost y x d = cost' y x d) ->
  forall (fuel : nat) (y x : Z), on_line y x -> in_frame y x = true ->
    path_cells cost dir_y dir_x fuel y x = path_cells cost' dir_y dir_x fuel y x.
Proof.
  intros Hstep E. induction fuel as [|fuel IH]; intros y x Hl Hin;
    cbn [path_cells]; destruct (in_frame (y - dir_y) (x - dir_x)) eqn:Hpred;
    try (apply map_ext_in; intros d Hd; apply E;
         [assumption|assumption|now apply disps_In]).
  cbn zeta. rewrite (IH _ _ (Hstep _ _ Hl) Hpred).
  apply map_ext_in. intros d Hd. rewrite E; [reflexivity|assumption..|].
  now apply disps_In.
Qed.

(** X7: the disparity of the pixel [(row, col)] reads the left image on row
    [row] and on column [col], and the right image on row [row] and on the
    columns [col - MAX_DISP + 1 .. col]: two pairs of images that agree
    there get the same disparity at [(row, col)], whatever they hold
    elsewhere. *)
Theorem sgm_hls_pixel_support :
  forall (F : Type) (ops : FloatOps F) (l r l' r' : image F)
    (st st' : sgm_state) (out out' : dispmap) (row col : Z),
    0 <= row < HEIGHT -> 0 <= col < WIDTH ->
    (forall y x, 0 <= y < HEIGHT -> 0 <= x < WIDTH -> y = row \/ x = col ->
       l (y * WIDTH + x) = l' (y * WIDTH + x)) ->
    (forall y x, 0 <= y < HEIGHT -> 0 <= x < WIDTH ->
       y = row \/ col - MAX_DISP < x <= col ->
       r (y * WIDTH + x) = r' (y * WIDTH + x)) ->
    snd (sgm_hls l r st out) (row * WIDTH + col)
    = snd (sgm_hls l' r' st' out') (row * WIDTH + col).
Proof.
  intros F ops l r l' r' st st' out out' row col Hrow Hcol El Er.
  assert (Hin : in_frame row col = true) by now apply in_frame_spec.
  rewrite !sgm_hls_pixel by assumption. unfold sgm_pixel, sgm_totals.
  assert (Erow : forall y x d, y = row -> in_frame y x = true ->
    0 <= d < MAX_DISP -> sad_cell l r y x d = sad_cell l' r' y x d).
  { intros y x d -> Hf Hd. apply in_frame_spec in Hf. unfold sad_cell.
    destruct (Z.geb_spec (x - d) 0); [|reflexivity].
    rewrite El, Er by lia. reflexivity. }
  assert (Ecol : forall y x d, x = col -> in_frame y x = true ->
    0 <= d < MAX_DISP -> sad_cell l r y x d = sad_cell l' r' y x d).
  { intros y x d -> Hf Hd. apply in_frame_spec in Hf. unfold sad_cell.
    destruct (Z.geb_spec (col - d) 0); [|reflexivity].
    rewrite El, Er by lia. reflexivity. }
  rewrite (path_cells_ext_line (sad_cell l r) (sad_cell l' r') 0 1
             (fun y _ => y = row)) by (assumption || reflexivity || (intros; lia)).
  rewrite (path_cells_ext_line (sad_cell l r) (sad_cell l' r') 0 (-1)
             (fun y _ => y = row)) by (assumption || reflexivity || (intros; lia)).
  rewrite (path_cells_ext_line (sad_cell l r) (sad_cell l' r') 1 0
             (fun _ x => x = col)) by (assumption || reflexivity || (intros; lia)).
  rewrite (path_cells_ext_line (sad_cell l r) (sad_cell l' r') (-1) 0
             (fun _ x => x = col)) by (assumption || reflexivity || (intros; lia)).
  reflexivity.
Qed.

(** [step_image] with every pixel off row 100 and off columns 85 .. 100
    replaced. *)
Definition patched_image : image binary32 :=
  fun i =>
    if (i / WIDTH =? 100) || ((85 <=? i mod WIDTH) && (i mod WIDTH <=? 100))
    then step_image i else b32_of_int 17.

Lemma sgm_hls_pixel_support_witness :
  snd (sgm_hls ramp_image step_image zero_state zero_map) (100 * WIDTH + 100)
  = snd (sgm_hls ramp_image patched_image ramp_state stale_map) (100 * WIDTH + 100).
Proof.
  apply (sgm_hls_pixel_support binary32 binary32_ops ramp_image step_image
           ramp_image patched_image).
  - unfold HEIGHT. lia.
  - unfold WIDTH. lia.
  - reflexivity.
  - intros y x Hy Hx Hline. unfold patched_image.
    replace ((y * WIDTH + x) / WIDTH) with y
      by (unfold WIDTH in *; apply Z.div_unique with x; lia).
    replace ((y * WIDTH + x) mod WIDTH) with x
      by (unfold WIDTH in *; apply Z.mod_unique with y; lia).
    destruct (Z.eqb_spec y 100); [reflexivity|].
    destruct (Z.leb_spec 85 x), (Z.leb_spec x 100); try reflexivity;
      unfold MAX_DISP in *; lia.
Defined.

(** * Images turned upside down *)

(** The image with its rows in the opposite order. *)
Definition flip_rows {A : Type} (img : Z -> A) : Z -> A :=
  fun i => img ((HEIGHT - 1 - i / WIDTH) * WIDTH + i mod WIDTH).

Lemma in_frame_flip (y x : Z) : in_frame (HEIGHT - 1 - y) x = in_frame y x.
Proof.
  unfold in_frame.
  destruct (Z.geb_spec (HEIGHT - 1 - y) 0), (Z.ltb_spec (HEIGHT - 1 - y) HEIGHT),
    (Z.geb_spec y 0), (Z.ltb_spec y HEIGHT); try reflexivity; lia.
Qed.

Lemma flip_rows_at {A : Type} (img : Z -> A) (y x : Z) :
  0 <= x < WIDTH ->
  flip_rows img ((HEIGHT - 1 - y) * WIDTH + x) = img (y * WIDTH + x).
Proof.
  intros Hx. unfold flip_rows.
  replace (((HEIGHT - 1 - y) * WIDTH + x) / WIDTH) with (HEIGHT - 1 - y)
    by (apply Z.div_unique with x; unfold WIDTH in *; lia).
  replace (((HEIGHT - 1 - y) * WIDTH + x) mod WIDTH) with x
    by (apply Z.mod_unique with (HEIGHT - 1 - y); unfold WIDTH in *; lia).
  f_equal. lia.
Qed.

Lemma sad_cell_flip {F : Type} `{FloatOps F} (l r : image F) (y x d : Z) :
  in_frame y x = true -> 0 <= d < MAX_DISP ->
  sad_cell (flip_rows l) (flip_rows r) (HEIGHT - 1 - y) x d = sad_cell l r y x d.
Proof.
  intros Hin Hd. apply in_frame_spec in Hin. unfold sad_cell.
  destruct (Z.geb_spec (x - d) 0); [|reflexivity].
  rewrite !flip_rows_at by lia. reflexivity.
Qed.

(** A path of the flipped volume is the path of the opposite vertical
    direction. *)
Lemma path_cells_flip {F : Type} `{FloatOps F} (cost cost' : volume F)
  (dir_y dir_x : Z) :
  (forall y x d, in_frame y x = true -> 0 <= d < MAX_DISP ->
     cost' (HEIGHT - 1 - y) x d = cost y x d) ->
  forall (fuel : nat) (y x : Z), in_frame y x = true ->
    path_cells cost' (- dir_y) dir_x fuel (HEIGHT - 1 - y) x
    = path_cells cost dir_y dir_x fuel y x.
Proof.
  intros E. induction fuel as [|fuel IH]; intros y x Hin; cbn [path_cells];
    replace (HEIGHT - 1 - y - - dir_y) with (HEIGHT - 1 - (y - dir_y)) by lia;
    rewrite in_frame_flip;
    destruct (in_frame (y - dir_y) (x - dir_x)) eqn:Hpred;
    try (apply map_ext_in; intros d Hd; apply E;
         [assumption|now apply disps_In]).
  cbn zeta. rewrite (IH _ _ Hpred).
  apply map_ext_in. intros d Hd. rewrite E; [reflexivity|assumption|].
  now apply disps_In.
Qed.

Lemma path_z_flip (zl zr : Z -> Z) (dir_y dir_x row col d : Z) :
  dir_y <> 0 \/ dir_x <> 0 ->
  in_frame row col = true -> 0 <= d < MAX_DISP ->
  path_z (flip_rows zl) (flip_rows zr) (- dir_y) dir_x (HEIGHT - 1 - row) col d
  = path_z zl zr dir_y dir_x row col d.
Proof.
  intros Hdir Hin Hd. unfold path_z.
  rewrite !(aggregate_path_cells _ _ _ _ path_fuel)
    by (try apply path_length_fuel; try rewrite in_frame_flip; assumption || lia).
  f_equal. apply path_cells_flip; [|assumption].
  intros y x d' Hf Hd'. now apply sad_cell_flip.
Qed.

Lemma total_z_flip (zl zr : Z -> Z) (row col d : Z) :
  in_frame row col = true -> 0 <= d < MAX_DISP ->
  total_z (flip_rows zl) (flip_rows zr) (HEIGHT - 1 - row) col d
  = total_z zl zr row col d.
Proof.
  intros Hin Hd. unfold total_z.
  rewrite <- (path_z_flip zl zr 0 1), <- (path_z_flip zl zr 0 (-1)),
    <- (path_z_flip zl zr 1 0), <- (path_z_flip zl zr (-1) 0)
    by (assumption || lia).
  change (- 0) with 0. change (- (1)) with (-1). change (- (-1)) with 1. lia.
Qed.

(** X12: turning both grey-level images upside down turns the disparity
    map upside down: the pixel [(HEIGHT - 1 - row, col)] of the new map is
    the pixel [(row, col)] of the old one. *)
Theorem sgm_hls_vertical_flip :
  forall (l r l' r' : image binary32) (zl zr : Z -> Z)
    (st st' : sgm_state) (out out' : dispmap) (row col : Z),
    grey_levels l zl -> grey_levels r zr ->
    grey_levels l' (flip_rows zl) -> grey_levels r' (flip_rows zr) ->
    0 <= row < HEIGHT -> 0 <= col < WIDTH ->
    snd (sgm_hls l' r' st' out') ((HEIGHT - 1 - row) * WIDTH + col)
    = snd (sgm_hls l r st out) (row * WIDTH + col).
Proof.
  intros l r l' r' zl zr st st' out out' row col Hl Hr Hl' Hr' Hrow Hcol.
  rewrite (sgm_hls_exact_winner l r zl zr) by assumption.
  rewrite (sgm_hls_exact_winner l' r' (flip_rows zl) (flip_rows zr))
    by (assumption || lia).
  apply best_disparity_ext. intros d Hd.
  apply total_z_flip; [|assumption]. now apply in_frame_spec.
Qed.

Lemma flip_rows_range (z : Z -> Z) (lo hi : Z) :
  (forall i, lo <= z i <= hi) -> forall i, lo <= flip_rows z i <= hi.
Proof. intros Hz i. apply Hz. Qed.

Lemma sgm_hls_vertical_flip_witness :
  snd (sgm_hls (fun i => b32_of_int (flip_rows ramp_levels i))
         (fun i => b32_of_int (flip_rows step_levels i)) zero_state zero_map)
    ((HEIGHT - 1 - 100) * WIDTH + 100)
  = snd (sgm_hls ramp_image step_image ramp_state stale_map) (100 * WIDTH + 100).
Proof.
  apply (sgm_hls_vertical_flip ramp_image step_image _ _ ramp_levels step_levels).
  - exact ramp_image_grey.
  - exact step_image_grey.
  - apply (levels_image_grey (flip_rows ramp_levels)).
    intros i. pose proof (flip_rows_range ramp_levels 0 180 ramp_levels_range i).
    lia.
  - apply (levels_image_grey (flip_rows step_levels)).
    intros i. pose proof (flip_rows_range step_levels 0 200 step_levels_range i).
    lia.
  - unfold HEIGHT. lia.
  - unfold WIDTH. lia.
Defined.

(** * The testbench (hls/tb/main_tb.cpp)

    [main] reads the two images from text files, runs [sgm_hls] once and
    writes the disparities to a text file, one per line.  The files are
    the environment of the program:
    - [open_in path] is the input stream that [std::ifstream] opens on
      [path], if it opens one;
    - [extract stream cell] is [stream >> cell] on a [float]: the stream
      after the extraction and the value the cell holds after it, which
      may be the value it held before;
    - [open_out path] tells whether [std::ofstream] opens [path]; the lines
      sent to an open stream reach the file, those sent to a stream that
      did not open are lost.
    The three buffers come from [new] and hold anything; the static
    volumes of [sgm_hls] hold zeros at its first call. *)

Module Testbench.

Import String.

Definition string_of_int (z : Z) : string :=
  DecimalString.NilZero.string_of_int (Z.to_int z).

(** The line feed that ends a line of the result file. *)
Definition newline : string := String (Ascii.ascii_of_nat 10) EmptyString.

Inductive console_line : Type :=
| cout (line : string)
| cerr (line : string).

Record outcome : Type := {
  exit_code : Z;
  console : list console_line;
  result_file : option (list string)
}.

Lemma foldi_snoc {A : Type} (f : Z -> A) (l : list Z) (acc : list A) :
  foldi l (fun i lines => lines ++ [f i])%list acc = (acc ++ List.map f l)%list.
Proof.
  revert acc. induction l as [|i l IH]; intros acc.
  - symmetry. apply app_nil_r.
  - rewrite foldi_cons, IH. cbn [List.map]. now rewrite <- app_assoc.
Qed.

Section Main.

Variables DATA_PATH RESULT_PATH : string.
Variable istream : Type.
Variable open_in : string -> option istream.
Variable extract : istream -> binary32 -> istream * binary32.
Variable open_out : string -> bool.

Definition path_left_input : string := append DATA_PATH "left_pixels.txt".
Definition path_right_input : string := append DATA_PATH "right_pixels.txt".
Definition path_result_out : string := append RESULT_PATH "hls_disparity.txt".

(** The loop that loads the pixels, a pixel of each image in turn. *)
Definition read_pixels (stream_left stream_right : istream)
  (image_left_pixels image_right_pixels : image binary32)
  : istream * istream * image binary32 * image binary32 :=
  for_up 0 (HEIGHT * WIDTH) (fun i s =>
    let '(stream_left, stream_right, left_pixels, right_pixels) := s in
    let (stream_left, l) := extract stream_left (left_pixels i) in
    let (stream_right, r) := extract stream_right (right_pixels i) in
    (stream_left, stream_right, upd1 left_pixels i l, upd1 right_pixels i r))
    (stream_left, stream_right, image_left_pixels, image_right_pixels).

(** The loop that writes the disparities. *)
Definition write_lines (disparity_output : dispmap) : list string :=
  for_up 0 (HEIGHT * WIDTH) (fun i lines =>
    (lines ++ [append (string_of_int (disparity_output i)) newline])%list)
    [].

Definition main (image_left_pixels image_right_pixels : image binary32)
  (disparity_output : dispmap) : outcome :=
  match open_in path_left_input, open_in path_right_input with
  | Some stream_left, Some stream_right =>
      let '(_, _, left_pixels, right_pixels) :=
        read_pixels stream_left stream_right image_left_pixels
          image_right_pixels in
      let disparity_output :=
        snd (sgm_hls left_pixels right_pixels zero_state disparity_output) in
      {| exit_code := 0;
         console :=
           [cout (append ">>> Initializing SGM HLS Simulation (Resolution: "
                    (append (string_of_int WIDTH)
                       (append "x" (append (string_of_int HEIGHT) ")..."))));
            cout (append ">>> Simulation Complete. Hardware results saved to: "
                    path_result_out)];
         result_file :=
           if open_out path_result_out
           then Some (write_lines disparity_output) else None |}
  | _, _ =>
      {| exit_code := -1;
         console :=
           [cerr "CRITICAL ERROR: Input dataset not found!";
            cerr (append "Missing sequence at: " path_left_input)];
         result_file := None |}
  end.

Lemma write_lines_map (disparity_output : dispmap) :
  write_lines disparity_output
  = List.map (fun i => append (string_of_int (disparity_output i)) newline)
      (steps 0 1 (Z.to_nat (HEIGHT * WIDTH))).
Proof.
  unfold write_lines. rewrite for_up_steps, Z.sub_0_r.
  apply (foldi_snoc
    (fun i => append (string_of_int (disparity_output i)) newline) _ []).
Qed.

(** X14: when both input files open, [main] returns 0 whatever the files
    hold - short, empty or not numbers - and whether or not the result file
    opens.  If it opens, it receives exactly [HEIGHT * WIDTH] lines, and line
    [i] is the decimal writing of the disparity that [sgm_hls] selects at
    pixel [i] from the pixels read, a number between 0 and 15, followed by a
    line feed.  If it does not open, nothing is written and [main] still
    reports the results as saved. *)
Theorem main_result_lines :
  forall (image_left_pixels image_right_pixels : image binary32)
    (disparity_output : dispmap) (stream_left stream_right : istream),
    open_in path_left_input = Some stream_left ->
    open_in path_right_input = Some stream_right ->
    let run := main image_left_pixels image_right_pixels disparity_output in
    exit_code run = 0 /\
    List.last (console run) (cout "")
    = cout (append ">>> Simulation Complete. Hardware results saved to: "
              (append RESULT_PATH "hls_disparity.txt")) /\
    (open_out path_result_out = false -> result_file run = None) /\
    (open_out path_result_out = true ->
     exists (lines : list string) (left_pixels right_pixels : image binary32),
       result_file run = Some lines /\
       snd (read_pixels stream_left stream_right image_left_pixels
              image_right_pixels) = right_pixels /\
       snd (fst (read_pixels stream_left stream_right image_left_pixels
                   image_right_pixels)) = left_pixels /\
       List.length lines = Z.to_nat (HEIGHT * WIDTH) /\
       forall i, 0 <= i < HEIGHT * WIDTH ->
         let d := snd (sgm_hls left_pixels right_pixels zero_state
                         disparity_output) i in
         nth (Z.to_nat i) lines EmptyString = append (string_of_int d) newline /\
         0 <= d < MAX_DISP).
Proof.
  intros il ir out sl sr Hl Hr. cbn zeta. unfold main. rewrite Hl, Hr.
  destruct (read_pixels sl sr il ir) as [[[sl' sr'] left_pixels] right_pixels].
  cbn [exit_code console result_file fst snd].
  split; [reflexivity|]. split; [reflexivity|].
  split; intros Hopen; rewrite Hopen; [reflexivity|].
  exists (write_lines (snd (sgm_hls left_pixels right_pixels zero_state out))),
    left_pixels, right_pixels.
  do 3 (split; [reflexivity|]). rewrite write_lines_map. split.
  - now rewrite length_map, steps_length.
  - intros i Hi. split.
    + rewrite (nth_indep _ EmptyString
        ((fun j => append (string_of_int
                     (snd (sgm_hls left_pixels right_pixels zero_state out) j))
                     newline) 0))
        by (rewrite length_map, steps_length; apply Z2Nat.inj_lt; lia).
      rewrite (map_nth (fun j => append (string_of_int
                     (snd (sgm_hls left_pixels right_pixels zero_state out) j))
                     newline) _ 0).
      rewrite nth_steps by (apply Z2Nat.inj_lt; lia).
      rewrite Z2Nat.id by lia. reflexivity.
    + assert (Hw : 0 < WIDTH) by (unfold WIDTH; lia).
      assert (Hrow : 0 <= i / WIDTH < HEIGHT).
      { split; [apply Z.div_pos; lia|apply Z.div_lt_upper_bound; lia]. }
      pose proof (Z.mod_pos_bound i WIDTH Hw) as Hcol.
      assert (E : i = i / WIDTH * WIDTH + i mod WIDTH).
      { rewrite (Z.div_mod i WIDTH) at 1 by lia. lia. }
      rewrite E, sgm_hls_pixel by assumption.
      apply best_disparity_range.
Qed.

End Main.

(** A file system with the two inputs under [data/], the left one two
    numbers long and the right one empty; an extraction from an exhausted
    stream leaves the cell as it was. *)
Definition sample_open_in (path : string) : option (list binary32) :=
  if String.eqb path "data/left_pixels.txt"
  then Some [b32_of_int 10; b32_of_int 20]
  else if String.eqb path "data/right_pixels.txt" then Some []
  else None.

Definition sample_extract (stream : list binary32) (cell : binary32)
  : list binary32 * binary32 :=
  match stream with
  | [] => ([], cell)
  | v :: stream => (stream, v)
  end.

Lemma main_result_lines_witness :
  let run := main "data/" "results/" (list binary32) sample_open_in
               sample_extract (fun _ => true) ramp_image step_image zero_map in
  exit_code run = 0 /\
  exists lines : list string,
    result_file run = Some lines /\
    List.length lines = Z.to_nat (HEIGHT * WIDTH).
Proof.
  destruct (main_result_lines "data/" "results/" (list binary32) sample_open_in
              sample_extract (fun _ => true) ramp_image step_image zero_map
              [b32_of_int 10; b32_of_int 20] [] eq_refl eq_refl)
    as (Hcode & _ & _ & Hfile).
  destruct (Hfile eq_refl) as (lines & _ & _ & Hlines & _ & _ & Hlength & _).
  split; [exact Hcode|]. exists lines. split; assumption.
Defined.

End Testbench.
